(** * QuickChess: the game-playing core of [popup.js]

    A shallow embedding of the search and evaluation code of the QuickChess
    extension ([src/popup.js]): the evaluator ([evaluatePosition] and its
    helpers), the move orderer ([orderMoves], [shuffleArray]), the
    alpha-beta search ([minimax], [findBestMove]) and the difficulty policy
    ([getEasyMove], [getMediumMove], ...).

    - JavaScript numbers are IEEE-754 binary64 values: they are modelled by
      Rocq's primitive [float], whose operations are the same binary64
      operations (round to nearest even).
    - The rules engine (chess.js, the object [this.game]) is an external
      library: it is an interface, [RulesEngine], over an abstract position
      type.
    - The code mutates [this.game] and [this.nodeCount] and reads
      [Math.random()]: this is explicit state passing in a small monad with
      three outcomes (normal return, exception, fuel exhausted). The draws
      of [Math.random()] are binary64 values; the theorems about them take
      draws of the interval [0, 1), and the index [Math.floor(r * n)] is
      the floor of the rounded binary64 product. *)

From Stdlib Require Import ZArith List Lia Bool Floats String QArith Qround
  Qpower Permutation Arith.
Import ListNotations.
Close Scope Q_scope.

Set Implicit Arguments.

(* ===================================================================== *)
(** * Part I. Definitions                                                 *)
(* ===================================================================== *)

(** ** JavaScript numbers *)

Module JS.

(** [a > b], [a >= b], [a <= b], [a < b] on numbers: comparisons with NaN
    are false. *)
Definition gt (a b : float) : bool := (b <? a)%float.
Definition lt (a b : float) : bool := (a <? b)%float.
Definition ge (a b : float) : bool := (b <=? a)%float.
Definition le (a b : float) : bool := (a <=? b)%float.

(** [x] is the zero with the sign bit set. *)
Definition is_neg_zero (x : float) : bool := is_zero x && get_sign x.

(** [Math.max(a, b)]: NaN if an argument is NaN; [+0] is larger than [-0]. *)
Definition Math_max (a b : float) : float :=
  if is_nan a || is_nan b then nan
  else if (a <? b)%float then b
  else if (b <? a)%float then a
  else if is_neg_zero a then b else a.

(** [Math.min(a, b)]: NaN if an argument is NaN; [-0] is smaller than [+0]. *)
Definition Math_min (a b : float) : float :=
  if is_nan a || is_nan b then nan
  else if (a <? b)%float then a
  else if (b <? a)%float then b
  else if is_neg_zero a then a else b.

(** The number of a length or of a count (an array length is far below
    [2 ^ 63], where [Uint63.of_Z] would wrap). *)
Definition of_nat (n : nat) : float := of_uint63 (Uint63.of_Z (Z.of_nat n)).

(** The literal [0.1]: the nearest binary64 value. *)
Definition tenth : float := 0x1.999999999999ap-4%float.

(** The literal [0.3]: the nearest binary64 value,
    [5404319552844595 / 2 ^ 54]. *)
Definition three_tenths : float := 0x1.3333333333333p-2%float.

(** [Math.floor(x)] of a finite number, as an integer: the mantissa shifted
    by the exponent, to the left or, dropping the fractional bits, to the
    right. NaN and the infinities have no integer part; they do not arise
    below, where [x] is a product of a draw of [0, 1) and a length. *)
Definition SFfloor (x : spec_float) : Z :=
  match x with
  | S754_finite s m e => Z.shiftl (if s then Z.neg m else Z.pos m) e
  | _ => 0%Z
  end.

Definition Math_floor (x : float) : Z := SFfloor (Prim2SF x).

(** The index [Math.floor(r * n)] for a draw [r] of [Math.random()] and a
    length [n]: the product is the binary64 product, rounded to nearest. *)
Definition floor_index (r : float) (n : nat) : nat :=
  Z.to_nat (Math_floor (r * of_nat n)).

(** The rational value of a finite number: [m * 2 ^ e], with its sign. *)
Definition SF2Q (x : spec_float) : Q :=
  match x with
  | S754_finite s m e =>
      (inject_Z (if s then Z.neg m else Z.pos m) * 2 ^ e)%Q
  | _ => 0%Q
  end.

Definition to_Q (x : float) : Q := SF2Q (Prim2SF x).

(** A number of the interval [0, 1): what [Math.random()] returns. *)
Definition unit_draw (r : float) : Prop :=
  le 0 r = true /\ lt r 1 = true.

(** The relative error of a rounding to nearest: [2 ^ -53]. *)
Definition u : Q := (1 # 9007199254740992)%Q.

(** The order of the numbers other than NaN, read through an integer key:
    [key] is monotone on binary64 values ([KINF] for [Infinity]), so that
    comparisons of numbers are comparisons of integers. *)
Definition P53 : Z := 9007199254740992.
Definition KINF : Z := 4000 * P53.

Definition SFkey (x : spec_float) : Z :=
  match x with
  | S754_zero _ => 0
  | S754_infinity s => if s then - KINF else KINF
  | S754_nan => 0
  | S754_finite s m e =>
      let v := ((e + 2000) * P53 + Z.pos m)%Z in if s then (- v)%Z else v
  end.

Definition key (x : float) : Z := SFkey (Prim2SF x).

(** A number proper: not NaN. *)
Definition num (x : float) : Prop := is_nan x = false.

(** A finite number: neither NaN nor an infinity. *)
Definition finite (x : float) : Prop :=
  num x /\ (- KINF < key x < KINF)%Z.

(** Numerical equality [a === b] of two numbers. *)
Definition same (a b : float) : Prop := (a =? b)%float = true.

End JS.

(** ** Magnitudes of binary64 values

    A bound on the size of a number, kept through the additions and
    multiplications of the evaluator to show that its result is finite. *)

(** The mantissa [m], read at exponent [e], is below [2 ^ k], and [e] is at
    most the exponent of a number of that size. *)
Definition fits (k m e : Z) : Prop :=
  (0 <= m < 2 ^ (k - e) /\ e + 53 <= k)%Z.

(** [x] is a zero or a finite number below [2 ^ k] in absolute value. *)
Definition SFsmall (k : Z) (x : spec_float) : Prop :=
  match x with
  | S754_zero _ => True
  | S754_finite _ m e => fits k (Z.pos m) e
  | _ => False
  end.

Definition small (k : Z) (x : float) : Prop := SFsmall k (Prim2SF x).

(** The same bound as a test, for the constants of the program. *)
Definition SFsmallb (k : Z) (x : spec_float) : bool :=
  match x with
  | S754_zero _ => true
  | S754_finite _ m e => ((Z.pos m <? 2 ^ (k - e)) && (e + 53 <=? k))%Z
  | _ => false
  end.

Definition smallb (k : Z) (x : float) : bool := SFsmallb k (Prim2SF x).

(** ** Chess data, as chess.js exposes it *)

(** The colours ['w'] and ['b'] and the piece types ['p'], ['n'], ['b'],
    ['r'], ['q'], ['k']. The user plays white, the engine black. *)
Inductive Color := White | Black.

Inductive PieceType := Pawn | Knight | Bishop | Rook | Queen | King.

Definition Color_eqb (c1 c2 : Color) : bool :=
  match c1, c2 with White, White | Black, Black => true | _, _ => false end.

Definition PieceType_eqb (t1 t2 : PieceType) : bool :=
  match t1, t2 with
  | Pawn, Pawn | Knight, Knight | Bishop, Bishop
  | Rook, Rook | Queen, Queen | King, King => true
  | _, _ => false
  end.

(** An entry of [game.board()]: [{ type, color }]. *)
Record Piece := mkPiece { type : PieceType; color : Color }.

(** [game.board()]: eight rows (rank 8 first) of eight squares, [null] for an
    empty square. *)
Definition Board := list (list (option Piece)).

(** A verbose move of [game.moves({ verbose: true })]. The fields the core
    reads are [from], [to] and [captured]; [captured] is absent on a
    non-capturing move. *)
Record Move := mkMove {
  from : string;
  to : string;
  piece : PieceType;
  captured : option PieceType;
  promotion : option PieceType
}.

(** The truthiness test [move.captured]. *)
Definition is_capture (m : Move) : bool :=
  match captured m with Some _ => true | None => false end.

(** ** The rules engine [this.game] *)

(** The operations of chess.js that the core calls, over the engine's
    position (board, side to move, history). [game_move] is [None] where
    [game.move(m)] returns [null] (the position is then unchanged).
    [engine_fails] marks the positions in which a call into the engine
    raises an exception. *)
Class RulesEngine (G : Type) := {
  game_turn : G -> Color;
  game_board : G -> Board;
  game_moves : G -> list Move;
  game_move : Move -> G -> option G;
  game_undo : G -> G;
  game_over : G -> bool;
  in_checkmate : G -> bool;
  in_stalemate : G -> bool;
  in_threefold_repetition : G -> bool;
  insufficient_material : G -> bool;
  in_draw : G -> bool;
  engine_fails : G -> bool
}.

(** ** The evaluator *)

Section Evaluator.
Local Open Scope float_scope.

(** [board[i][j]] for indices inside the board; outside it there is no
    piece (the loops below stay inside, and guard the computed indices). *)
Definition square (board : Board) (i j : Z) : option Piece :=
  if ((0 <=? i) && (0 <=? j))%Z
  then nth (Z.to_nat j) (nth (Z.to_nat i) board []) None
  else None.

(** The indices [0 .. 7] of [for (let i = 0; i < 8; i++)]. *)
Definition range8 : list Z := [0; 1; 2; 3; 4; 5; 6; 7]%Z.

Definition pieceValues (t : PieceType) : float :=
  match t with
  | Pawn => 100 | Knight => 320 | Bishop => 330
  | Rook => 500 | Queen => 900 | King => 20000
  end.

Definition pawnTable : list (list float) :=
  [ [0;  0;  0;  0;  0;  0;  0;  0];
    [50; 50; 50; 50; 50; 50; 50; 50];
    [10; 10; 20; 30; 30; 20; 10; 10];
    [5;  5; 10; 25; 25; 10;  5;  5];
    [0;  0;  0; 20; 20;  0;  0;  0];
    [5; -5;-10;  0;  0;-10; -5;  5];
    [5; 10; 10;-20;-20; 10; 10;  5];
    [0;  0;  0;  0;  0;  0;  0;  0] ].

Definition knightTable : list (list float) :=
  [ [-50;-40;-30;-30;-30;-30;-40;-50];
    [-40;-20;  0;  0;  0;  0;-20;-40];
    [-30;  0; 10; 15; 15; 10;  0;-30];
    [-30;  5; 15; 20; 20; 15;  5;-30];
    [-30;  0; 15; 20; 20; 15;  0;-30];
    [-30;  5; 10; 15; 15; 10;  5;-30];
    [-40;-20;  0;  5;  5;  0;-20;-40];
    [-50;-40;-30;-30;-30;-30;-40;-50] ].

Definition bishopTable : list (list float) :=
  [ [-20;-10;-10;-10;-10;-10;-10;-20];
    [-10;  0;  0;  0;  0;  0;  0;-10];
    [-10;  0;  5; 10; 10;  5;  0;-10];
    [-10;  5;  5; 10; 10;  5;  5;-10];
    [-10;  0; 10; 10; 10; 10;  0;-10];
    [-10; 10; 10; 10; 10; 10; 10;-10];
    [-10;  5;  0;  0;  0;  0;  5;-10];
    [-20;-10;-10;-10;-10;-10;-10;-20] ].

Definition rookTable : list (list float) :=
  [ [0;  0;  0;  0;  0;  0;  0;  0];
    [5; 10; 10; 10; 10; 10; 10;  5];
    [-5;  0;  0;  0;  0;  0;  0; -5];
    [-5;  0;  0;  0;  0;  0;  0; -5];
    [-5;  0;  0;  0;  0;  0;  0; -5];
    [-5;  0;  0;  0;  0;  0;  0; -5];
    [-5;  0;  0;  0;  0;  0;  0; -5];
    [0;  0;  0;  5;  5;  0;  0;  0] ].

Definition queenTable : list (list float) :=
  [ [-20;-10;-10; -5; -5;-10;-10;-20];
    [-10;  0;  0;  0;  0;  0;  0;-10];
    [-10;  0;  5;  5;  5;  5;  0;-10];
    [-5;  0;  5;  5;  5;  5;  0; -5];
    [0;  0;  5;  5;  5;  5;  0; -5];
    [-10;  5;  5;  5;  5;  5;  0;-10];
    [-10;  0;  5;  0;  0;  0;  0;-10];
    [-20;-10;-10; -5; -5;-10;-10;-20] ].

Definition kingMiddleGameTable : list (list float) :=
  [ [-30;-40;-40;-50;-50;-40;-40;-30];
    [-30;-40;-40;-50;-50;-40;-40;-30];
    [-30;-40;-40;-50;-50;-40;-40;-30];
    [-30;-40;-40;-50;-50;-40;-40;-30];
    [-20;-30;-30;-40;-40;-30;-30;-20];
    [-10;-20;-20;-20;-20;-20;-20;-10];
    [20; 20;  0;  0;  0;  0; 20; 20];
    [20; 30; 10;  0;  0; 10; 30; 20] ].

(** [table[tableRow][col]]; an index outside the table reads [undefined],
    which the addition below turns into NaN. *)
Definition table_at (table : list (list float)) (row col : Z) : float :=
  if ((0 <=? row) && (0 <=? col))%Z
  then nth (Z.to_nat col) (nth (Z.to_nat row) table []) nan
  else nan.

Definition getPieceValue (piece : Piece) (row col : Z) : float :=
  let baseValue := pieceValues (type piece) in
  let table :=
    match type piece with
    | Pawn => pawnTable
    | Knight => knightTable
    | Bishop => bishopTable
    | Rook => rookTable
    | Queen => queenTable
    | King => kingMiddleGameTable
    end in
  let tableRow := match color piece with Black => row | White => (7 - row)%Z end in
  let positionalValue := table_at table tableRow col in
  baseValue + positionalValue.

(** [piece && piece.type === t && piece.color === c]. *)
Definition is_piece (t : PieceType) (c : Color) (sq : option Piece) : bool :=
  match sq with
  | Some piece => PieceType_eqb (type piece) t && Color_eqb (color piece) c
  | None => false
  end.

(** The two nested loops that look for the king, with their two [break]s:
    the first king of the colour in row-major order. *)
Definition findKing (board : Board) (c : Color) : option (Z * Z) :=
  fold_left
    (fun kingPos i =>
       match kingPos with
       | Some _ => kingPos
       | None =>
           match find (fun j => is_piece King c (square board i j)) range8 with
           | Some j => Some (i, j)
           | None => None
           end
       end)
    range8 None.

Definition evaluateKingSafety (board : Board) (c : Color) : float :=
  let safety := 0 in
  match findKing board c with
  | None => 0
  | Some (row, col) =>
      let direction := match c with White => (-1)%Z | Black => 1%Z end in
      let shieldRow := (row + direction)%Z in
      if ((0 <=? shieldRow) && (shieldRow <? 8))%Z then
        fold_left
          (fun safety colOffset =>
             let col := (col + colOffset)%Z in
             if ((0 <=? col) && (col <? 8))%Z then
               if is_piece Pawn c (square board shieldRow col)
               then safety + 10 else safety
             else safety)
          [(-1)%Z; 0%Z; 1%Z] safety
      else safety
  end.

Definition evaluatePawnStructure (board : Board) (c : Color) : float :=
  fold_left
    (fun score col =>
       let pawnsInCol :=
         fold_left
           (fun pawnsInCol row =>
              if is_piece Pawn c (square board row col)
              then pawnsInCol + 1 else pawnsInCol)
           range8 0 in
       let hasPawnInAdjacentCol :=
         fold_left
           (fun has adjacentCol =>
              if ((0 <=? adjacentCol) && (adjacentCol <? 8))%Z then
                if existsb (fun row => is_piece Pawn c (square board row adjacentCol))
                     range8
                then true else has
              else has)
           [(col - 1)%Z; (col + 1)%Z] false in
       let score :=
         if JS.gt pawnsInCol 1 then score - 10 * (pawnsInCol - 1) else score in
       if JS.gt pawnsInCol 0 && negb hasPawnInAdjacentCol
       then score - 15 else score)
    range8 0.

Context {G : Type} {E : RulesEngine G}.

(** [evaluatePosition()], on the position [g] that [this.game] holds. *)
Definition evaluatePosition (g : G) : float :=
  if in_checkmate g then
    match game_turn g with Black => 10000 | White => -10000 end
  else if in_stalemate g || in_threefold_repetition g
          || insufficient_material g || in_draw g then 0
  else
    let score := 0 in
    let board := game_board g in
    let score :=
      fold_left
        (fun score i =>
           fold_left
             (fun score j =>
                match square board i j with
                | Some piece =>
                    let pieceValue := getPieceValue piece i j in
                    score + match color piece with
                            | Black => pieceValue
                            | White => - pieceValue
                            end
                | None => score
                end)
             range8 score)
        range8 score in
    let currentMoves := JS.of_nat (List.length (game_moves g)) in
    let score :=
      match game_turn g with
      | Black => score + currentMoves * JS.tenth
      | White => score - currentMoves * JS.tenth
      end in
    let score :=
      score + (evaluateKingSafety board Black - evaluateKingSafety board White) in
    let score :=
      score + (evaluatePawnStructure board Black - evaluatePawnStructure board White) in
    score.

End Evaluator.

(** The twelve pieces: every value of [Piece]. *)
Definition pieces12 : list Piece :=
  flat_map (fun t => [mkPiece t White; mkPiece t Black])
    [Pawn; Knight; Bishop; Rook; Queen; King].

(** ** The state of the [QuickChess] object and its monad *)

Section Core.
Context {G : Type} {E : RulesEngine G}.

(** The fields the core reads and writes: the rules engine's position
    [this.game], the counter [this.nodeCount], and the draws that
    [Math.random()] will return, in order. *)
Record QuickChess := mkQuickChess {
  game : G;
  nodeCount : Z;
  random : nat -> float
}.

(** How a call ends: it returns a value, it throws (the exception started
    in the rules engine; the state is the one in which it was raised, as no
    handler of the core runs in between), or the model ran out of fuel. *)
Inductive Outcome (A : Type) :=
| Return (a : A) (s : QuickChess)
| Throw (s : QuickChess)
| OutOfFuel.
Arguments Throw {A} s.
Arguments OutOfFuel {A}.

Definition M (A : Type) := QuickChess -> Outcome A.

Definition ret {A} (a : A) : M A := fun s => Return a s.

Definition bind {A B} (c : M A) (k : A -> M B) : M B :=
  fun s =>
    match c s with
    | Return a s' => k a s'
    | Throw s' => Throw s'
    | OutOfFuel => OutOfFuel
    end.

Local Notation "x <- c ;; k" := (bind c (fun x => k))
  (at level 61, c at next level, right associativity).
Local Notation "c ;;; k" := (bind c (fun _ => k))
  (at level 61, right associativity).

(** A query [this.game.f()] that does not change the position. *)
Definition call {A} (f : G -> A) : M A :=
  fun s => if engine_fails (game s) then Throw s else Return (f (game s)) s.

(** [this.game.move(m)]: the result is truthy when the move was applied. *)
Definition move_ (m : Move) : M bool :=
  fun s =>
    if engine_fails (game s) then Throw s
    else match game_move m (game s) with
         | Some g' => Return true (mkQuickChess g' (nodeCount s) (random s))
         | None => Return false s
         end.

(** [this.game.undo()]. *)
Definition undo_ : M unit :=
  fun s =>
    if engine_fails (game s) then Throw s
    else Return tt (mkQuickChess (game_undo (game s)) (nodeCount s) (random s)).

(** [Math.random()]: the next draw. *)
Definition Math_random : M float :=
  fun s => Return (random s 0%nat)
             (mkQuickChess (game s) (nodeCount s) (fun i => random s (S i))).

(** [await new Promise(resolve => setTimeout(resolve, 0))]: the search is
    suspended and resumed with its state as it was. The handlers that could
    run in between ([undoMove], [restartGame], [onDragStart]) return at once
    while [isAiThinking] is set, so this is a no-op on the state. *)
Definition yield : M unit := ret tt.

(** [this.nodeCount++; if (this.nodeCount % 500 === 0) await ...]. *)
Definition countNode : M unit :=
  fun s =>
    let s' := mkQuickChess (game s) (nodeCount s + 1) (random s) in
    if (nodeCount s' mod 500 =? 0)%Z then yield s' else Return tt s'.

(** A [for (... of xs)] loop whose body may [break]. The loop variables are
    threaded as [s]; the result also tells how the loop was left. *)
Inductive Flow := Continue | Break.

Fixpoint for_of {A S : Type} (xs : list A) (body : A -> S -> M (Flow * S))
  (s : S) : M (Flow * S) :=
  match xs with
  | [] => ret (Continue, s)
  | x :: xs' =>
      r <- body x s ;;
      match r with
      | (Break, s') => ret (Break, s')
      | (Continue, s') => for_of xs' body s'
      end
  end.

(** ** The move orderer *)

(** [array[i] = x] inside the array. *)
Fixpoint set_at {A} (array : list A) (i : nat) (x : A) : list A :=
  match array, i with
  | [], _ => []
  | _ :: rest, O => x :: rest
  | a :: rest, S i' => a :: set_at rest i' x
  end.

(** [[array[i], array[j]] = [array[j], array[i]]], for [i] and [j] inside
    the array (where the draws of [Math.random()] keep them). *)
Definition swap {A} (array : list A) (i j : nat) : list A :=
  match nth_error array i, nth_error array j with
  | Some ai, Some aj => set_at (set_at array i aj) j ai
  | _, _ => array
  end.

(** The loop [for (let i = ...; i > 0; i--)] of [shuffleArray], from [i]. *)
Fixpoint shuffleFrom {A} (i : nat) (array : list A) : M (list A) :=
  match i with
  | O => ret array
  | S i' =>
      rnd <- Math_random ;;
      let j := JS.floor_index rnd (i + 1) in
      shuffleFrom i' (swap array i j)
  end.

(** [shuffleArray(array)]; the array is shuffled in place, so the shuffled
    array is the result. *)
Definition shuffleArray {A} (array : list A) : M (list A) :=
  shuffleFrom (List.length array - 1) array.

Definition orderMoves (moves : list Move) : M (list Move) :=
  let captures := filter is_capture moves in
  let others := filter (fun m => negb (is_capture m)) moves in
  captures <- shuffleArray captures ;;
  others <- shuffleArray others ;;
  ret (captures ++ others).

(** ** The search *)

Local Open Scope float_scope.

(** The body of the loop of the maximizing branch of [minimax]; [rec] is
    the recursive call [this.minimax(depth - 1, alpha, beta, false)]. *)
Definition maxStep (rec : float -> float -> M float) (beta : float)
  (move : Move) (vars : float * float) : M (Flow * (float * float)) :=
  let '(maxEval, alpha) := vars in
  moveResult <- move_ move ;;
  if moveResult then
    eval_score <- rec alpha beta ;;
    undo_ ;;;
    let maxEval := JS.Math_max maxEval eval_score in
    let alpha := JS.Math_max alpha eval_score in
    if JS.le beta alpha then ret (Break, (maxEval, alpha))
    else ret (Continue, (maxEval, alpha))
  else ret (Continue, (maxEval, alpha)).

(** The body of the loop of the minimizing branch. *)
Definition minStep (rec : float -> float -> M float) (alpha : float)
  (move : Move) (vars : float * float) : M (Flow * (float * float)) :=
  let '(minEval, beta) := vars in
  moveResult <- move_ move ;;
  if moveResult then
    eval_score <- rec alpha beta ;;
    undo_ ;;;
    let minEval := JS.Math_min minEval eval_score in
    let beta := JS.Math_min beta eval_score in
    if JS.le beta alpha then ret (Break, (minEval, beta))
    else ret (Continue, (minEval, beta))
  else ret (Continue, (minEval, beta)).

(** [minimax(depth, alpha, beta, isMaximizing)]. The recursion of the
    source is not structural ([depth] is a number), so the model takes
    fuel: one unit per nested call. *)
Fixpoint minimax (fuel : nat) (depth : Z) (alpha beta : float)
  (isMaximizing : bool) : M float :=
  match fuel with
  | O => fun _ => OutOfFuel
  | S fuel' =>
      countNode ;;;
      terminal <- (if (depth =? 0)%Z then ret true else call game_over) ;;
      if terminal then call evaluatePosition
      else
        moves <- call game_moves ;;
        if (List.length moves =? 0)%nat then call evaluatePosition
        else if isMaximizing then
          r <- for_of moves
                 (maxStep (fun alpha beta =>
                             minimax fuel' (depth - 1) alpha beta false) beta)
                 (neg_infinity, alpha) ;;
          ret (fst (snd r))
        else
          r <- for_of moves
                 (minStep (fun alpha beta =>
                             minimax fuel' (depth - 1) alpha beta true) alpha)
                 (infinity, beta) ;;
          ret (fst (snd r))
  end.

(** The loop variables of [findBestMove]. *)
Record RootVars := mkRootVars {
  bestMove : option Move;
  bestValue : float;
  alpha : float
}.

(** The body of the loop of [findBestMove]; [beta] is never assigned. *)
Definition rootStep (fuel : nat) (depth : Z) (beta : float)
  (move : Move) (vars : RootVars) : M (Flow * RootVars) :=
  move_ move ;;;
  v <- minimax fuel (depth - 1) (- beta) (- alpha vars) false ;;
  let value := - v in
  undo_ ;;;
  let vars :=
    if JS.gt value (bestValue vars)
    then mkRootVars (Some move) value (alpha vars)
    else vars in
  let vars :=
    mkRootVars (bestMove vars) (bestValue vars) (JS.Math_max (alpha vars) value) in
  if JS.ge (alpha vars) beta then ret (Break, vars) else ret (Continue, vars).

Definition rootLoop (fuel : nat) (depth : Z) (orderedMoves : list Move)
  : M (Flow * RootVars) :=
  for_of orderedMoves (rootStep fuel depth infinity)
    (mkRootVars None neg_infinity neg_infinity).

(** [findBestMove(depth)]; [None] is [null]. *)
Definition findBestMove (fuel : nat) (depth : Z) : M (option Move) :=
  moves <- call game_moves ;;
  if (List.length moves =? 0)%nat then ret None
  else
    orderedMoves <- orderMoves moves ;;
    r <- rootLoop fuel depth orderedMoves ;;
    ret (bestMove (snd r)).

(** ** The difficulty policy *)

Inductive Difficulty := easy | medium | hard | grandmaster.

(** [Math.random() < 0.3] on a draw. *)
Definition below_0_3 (rnd : float) : bool := JS.lt rnd JS.three_tenths.

(** [moves[Math.floor(Math.random() * moves.length)]]; an index outside the
    array reads [undefined]. *)
Definition randomElement {A} (array : list A) : M (option A) :=
  rnd <- Math_random ;;
  ret (nth_error array (JS.floor_index rnd (List.length array))).

Definition getEasyMove (moves : list Move) : M (option Move) :=
  let captures := filter is_capture moves in
  preferCapture <-
    (if (0 <? List.length captures)%nat
     then rnd <- Math_random ;; ret (below_0_3 rnd)
     else ret false) ;;
  if preferCapture then randomElement captures else randomElement moves.

Definition getMediumMove (fuel : nat) (moves : list Move) : M (option Move) :=
  findBestMove fuel 2.

Definition getHardMove (fuel : nat) (moves : list Move) : M (option Move) :=
  findBestMove fuel 3.

Definition getGrandmasterMove (fuel : nat) (moves : list Move) : M (option Move) :=
  findBestMove fuel 4.

(** The [switch (this.difficulty)] of [makeAIMove]. *)
Definition selectMove (fuel : nat) (difficulty : Difficulty)
  (possibleMoves : list Move) : M (option Move) :=
  match difficulty with
  | easy => getEasyMove possibleMoves
  | medium => getMediumMove fuel possibleMoves
  | hard => getHardMove fuel possibleMoves
  | grandmaster => getGrandmasterMove fuel possibleMoves
  end.

End Core.

Arguments Throw {G A} s.
Arguments OutOfFuel {G A}.


(** ** Concrete positions and engines *)

Module Positions.
Local Open Scope string_scope.

Definition black (t : PieceType) : option Piece := Some (mkPiece t Black).
Definition white (t : PieceType) : option Piece := Some (mkPiece t White).

Definition emptyRow : list (option Piece) := repeat None 8.

Definition backRank (side : PieceType -> option Piece) : list (option Piece) :=
  [side Rook; side Knight; side Bishop; side Queen;
   side King; side Bishop; side Knight; side Rook].

(** The standard starting position, as [game.board()] returns it: rank 8
    (black's pieces) is row 0, rank 1 (white's pieces) is row 7. *)
Definition startBoard : Board :=
  [ backRank black; repeat (black Pawn) 8;
    emptyRow; emptyRow; emptyRow; emptyRow;
    repeat (white Pawn) 8; backRank white ].

Definition quiet (f t : string) (pc : PieceType) : Move := mkMove f t pc None None.

(** White's twenty legal moves of the starting position: each pawn one or
    two squares, each knight to its two squares. *)
Definition startMoves : list Move :=
  flat_map (fun file => [quiet (file ++ "2") (file ++ "3") Pawn;
                         quiet (file ++ "2") (file ++ "4") Pawn])
    ["a"; "b"; "c"; "d"; "e"; "f"; "g"; "h"]
  ++ [quiet "b1" "a3" Knight; quiet "b1" "c3" Knight;
      quiet "g1" "f3" Knight; quiet "g1" "h3" Knight].

(** The position after 1. f3 e5 2. g4 Qh4#: white, to move, is checkmated. *)
Definition foolsMateBoard : Board :=
  [ [black Rook; black Knight; black Bishop; None;
     black King; black Bishop; black Knight; black Rook];
    [black Pawn; black Pawn; black Pawn; black Pawn;
     None; black Pawn; black Pawn; black Pawn];
    emptyRow;
    [None; None; None; None; black Pawn; None; None; None];
    [None; None; None; None; None; None; white Pawn; black Queen];
    [None; None; None; None; None; white Pawn; None; None];
    [white Pawn; white Pawn; white Pawn; white Pawn;
     white Pawn; None; None; white Pawn];
    backRank white ].

(** What the engine answers in one position. *)
Record Snapshot := mkSnapshot {
  snap_turn : Color;
  snap_board : Board;
  snap_moves : list Move;
  snap_checkmate : bool;
  snap_stalemate : bool
}.

(** An engine frozen at a position: it answers the queries of the
    evaluator; no move is ever applied to it. *)
#[global] Instance FrozenEngine : RulesEngine Snapshot := {
  game_turn := snap_turn;
  game_board := snap_board;
  game_moves := snap_moves;
  game_move := fun _ _ => None;
  game_undo := fun g => g;
  game_over := fun g => snap_checkmate g || snap_stalemate g;
  in_checkmate := snap_checkmate;
  in_stalemate := snap_stalemate;
  in_threefold_repetition := fun _ => false;
  insufficient_material := fun _ => false;
  in_draw := snap_stalemate;
  engine_fails := fun _ => false
}.

Definition startPosition : Snapshot :=
  mkSnapshot White startBoard startMoves false false.

Definition foolsMate : Snapshot :=
  mkSnapshot White foolsMateBoard [] true false.

End Positions.

(** ** A miniature rules engine

    A small engine with the interface and the contract of chess.js, for
    running the search on concrete positions. The two kings stand on g8 or
    h8 and on g1 or h1; black may have a pawn on e5, white a pawn on d4. In
    each position the engine offers the king's step to its other square
    and, while both pawns stand on e5 and d4, the capture and the advance
    of the pawn of the side to move. Moves are applied on a history stack,
    and [undo] pops it. *)

Module Miniature.
Local Open Scope string_scope.

(** The pawns: both at home, or after [exd4], [e4], [dxe5], [d5]. *)
Inductive Pawns := Home | BlackTook | BlackPushed | WhiteTook | WhitePushed.

Record Pos := mkPos {
  pawns : Pawns;
  blackKingOnH : bool;
  whiteKingOnH : bool;
  side : Color
}.

Record Game := mkGame { current : Pos; history : list Pos }.

Definition other (c : Color) : Color :=
  match c with White => Black | Black => White end.

(** The pieces of a position, with their row and column on the board. *)
Definition pieces (pos : Pos) : list (nat * nat * Piece) :=
  [(0, if blackKingOnH pos then 7 else 6, mkPiece King Black);
   (7, if whiteKingOnH pos then 7 else 6, mkPiece King White)]%nat
  ++ match pawns pos with
     | Home => [(3, 4, mkPiece Pawn Black); (4, 3, mkPiece Pawn White)]
     | BlackTook => [(4, 3, mkPiece Pawn Black)]
     | BlackPushed => [(4, 4, mkPiece Pawn Black); (4, 3, mkPiece Pawn White)]
     | WhiteTook => [(3, 4, mkPiece Pawn White)]
     | WhitePushed => [(3, 4, mkPiece Pawn Black); (3, 3, mkPiece Pawn White)]
     end%nat.

Definition boardOf (pos : Pos) : Board :=
  map (fun i =>
         map (fun j =>
                match find (fun e => (fst (fst e) =? i)%nat
                                     && (snd (fst e) =? j)%nat) (pieces pos) with
                | Some e => Some (snd e)
                | None => None
                end)
           (seq 0 8))
    (seq 0 8).

(** The moves on offer, each with the position it leads to. *)
Definition movesOf (pos : Pos) : list (Move * Pos) :=
  let next := other (side pos) in
  let kingStep :=
    match side pos with
    | Black =>
        (mkMove (if blackKingOnH pos then "h8" else "g8")
                (if blackKingOnH pos then "g8" else "h8") King None None,
         mkPos (pawns pos) (negb (blackKingOnH pos)) (whiteKingOnH pos) next)
    | White =>
        (mkMove (if whiteKingOnH pos then "h1" else "g1")
                (if whiteKingOnH pos then "g1" else "h1") King None None,
         mkPos (pawns pos) (blackKingOnH pos) (negb (whiteKingOnH pos)) next)
    end in
  let pawnMoves :=
    match pawns pos, side pos with
    | Home, Black =>
        [(mkMove "e5" "d4" Pawn (Some Pawn) None,
          mkPos BlackTook (blackKingOnH pos) (whiteKingOnH pos) next);
         (mkMove "e5" "e4" Pawn None None,
          mkPos BlackPushed (blackKingOnH pos) (whiteKingOnH pos) next)]
    | Home, White =>
        [(mkMove "d4" "e5" Pawn (Some Pawn) None,
          mkPos WhiteTook (blackKingOnH pos) (whiteKingOnH pos) next);
         (mkMove "d4" "d5" Pawn None None,
          mkPos WhitePushed (blackKingOnH pos) (whiteKingOnH pos) next)]
    | _, _ => []
    end in
  kingStep :: pawnMoves.

(** chess.js identifies a move by its squares and its promotion. *)
Definition sameMove (m1 m2 : Move) : bool :=
  String.eqb (from m1) (from m2) && String.eqb (to m1) (to m2)
  && match promotion m1, promotion m2 with
     | None, None => true
     | Some t1, Some t2 => PieceType_eqb t1 t2
     | _, _ => false
     end.

(** The engine; [fails] tells in which positions its calls raise an
    exception. *)
Definition engine (fails : Pos -> bool) : RulesEngine Game := {|
  game_turn := fun g => side (current g);
  game_board := fun g => boardOf (current g);
  game_moves := fun g => map fst (movesOf (current g));
  game_move := fun m g =>
    match find (fun e => sameMove m (fst e)) (movesOf (current g)) with
    | Some e => Some (mkGame (snd e) (current g :: history g))
    | None => None
    end;
  game_undo := fun g =>
    match history g with
    | prev :: older => mkGame prev older
    | [] => g
    end;
  game_over := fun _ => false;
  in_checkmate := fun _ => false;
  in_stalemate := fun _ => false;
  in_threefold_repetition := fun _ => false;
  insufficient_material := fun _ => false;
  in_draw := fun _ => false;
  engine_fails := fun g => fails (current g)
|}.

(** The engine that never fails. *)
Definition sound : RulesEngine Game := engine (fun _ => false).

(** The engine that fails once black has captured on d4. *)
Definition faulty : RulesEngine Game :=
  engine (fun pos => match pawns pos with BlackTook => true | _ => false end).

(** Black to move, both pawns at home, no move played yet. *)
Definition start : Game := mkGame (mkPos Home false false Black) [].

(** The object state: the position, a fresh counter, and draws that are
    all 1/2. *)
Definition state (g : Game) : @QuickChess Game :=
  mkQuickChess g 0 (fun _ => 0.5%float).

End Miniature.

(** ** The contract of the rules engine *)

Section Contract.
Context {G : Type} {E : RulesEngine G}.

(** [undo] takes back the move that [move] applied, restoring the position
    exactly. *)
Definition undo_restores : Prop :=
  forall g m g', game_move m g = Some g' -> game_undo g' = g.

(** A move of the legal-move list is accepted by [move]. *)
Definition legal_moves_apply : Prop :=
  forall g m, In m (game_moves g) -> game_move m g <> None.

(** The engine raises no exception. *)
Definition never_fails : Prop := forall g, engine_fails g = false.

(** The position reached by applying the moves of [path], one after the
    other, none taken back. *)
Fixpoint play (path : list Move) (g : G) : option G :=
  match path with
  | [] => Some g
  | m :: path' =>
      match game_move m g with
      | Some g' => play path' g'
      | None => None
      end
  end.

(** The computation [c] always ends: it never exhausts the fuel. *)
Definition terminates {A} (c : @M G A) : Prop := forall s, c s <> OutOfFuel.

(** What a call made in position [g] leaves behind when it returns: the
    value [v], the position and the draws as they were. *)
Definition returns_at {A} (g : G) (c : @M G A) (v : A) : Prop :=
  forall s a s',
    game s = g -> c s = Return a s' ->
    a = v /\ game s' = g /\ random s' = random s.

(** The exception surfaces in [s']: the moves of [path] were applied from
    [g], one after the other, none was taken back, and the engine failed in
    the position they lead to. *)
Definition stuck_at (g : G) (s' : @QuickChess G) (path : list Move) : Prop :=
  play path g = Some (game s') /\ engine_fails (game s') = true.

(** A call made in position [g] gives the position back when it
    returns. *)
Definition restores_at {A} (g : G) (c : @M G A) : Prop :=
  forall s a s', game s = g -> c s = Return a s' -> game s' = g.

(** A call made in position [g] leaves a state of [P] when it throws. *)
Definition throws_into {A} (g : G) (c : @M G A) (P : @QuickChess G -> Prop)
  : Prop :=
  forall s s', game s = g -> c s = Throw s' -> P s'.

End Contract.

(** ** The shuffle, read as a function of its random choices *)

Section ShufflePure.
Context {A : Type}.

(** The loop of [shuffleArray] from index [i], given the indices [j] it
    draws, in order: the first one for [i], the next for [i - 1], ... *)
Fixpoint shuffleBy (i : nat) (array : list A) (choices : list nat) : list A :=
  match i, choices with
  | S i', j :: choices' => shuffleBy i' (swap array i j) choices'
  | _, _ => array
  end.

(** The choices are proper: one per step, each inside its range
    [0 .. i]. *)
Fixpoint valid_choices (i : nat) (choices : list nat) : Prop :=
  match i, choices with
  | O, [] => True
  | S i', j :: choices' => (j <= i)%nat /\ valid_choices i' choices'
  | _, _ => False
  end.

End ShufflePure.

(** The indices that the loop of [shuffleArray] computes from the draws of
    [Math.random()], starting at index [i]. *)
Fixpoint choices_of (i : nat) (draws : nat -> float) : list nat :=
  match i with
  | O => []
  | S i' => JS.floor_index (draws 0%nat) (i + 1)
             :: choices_of i' (fun k => draws (S k))
  end.

(** The draws lie in the interval [0, 1), as [Math.random()] promises. *)
Definition unit_draws (draws : nat -> float) : Prop :=
  forall k, JS.unit_draw (draws k).

(** The draws left after [k] calls of [Math.random()]. *)
Definition drop_draws (k : nat) (draws : nat -> float) : nat -> float :=
  fun i => draws (k + i)%nat.

(** A draw of the interval [0, 1) that gives the index [j] among [n]: the
    number [c / 2 ^ 53], with [c] the first integer above [j * 2 ^ 53 / n],
    written with a mantissa of 53 bits. *)
Definition draw_for (n j : nat) : float :=
  let c := (Z.of_nat j * 2 ^ 53 / Z.of_nat n + 1)%Z in
  let d := Zdigits2 c in
  SF2Prim (S754_finite false (Z.to_pos (c * 2 ^ (53 - d))) (d - 106)).

(** Draws that give the choices [js] to the steps of the shuffle from
    index [i]. *)
Fixpoint draws_for (i : nat) (js : list nat) : nat -> float :=
  match i, js with
  | S i', j :: js' =>
      fun k => match k with
               | O => draw_for (i + 1) j
               | S k' => draws_for i' js' k'
               end
  | _, _ => fun _ => 0%float
  end.

(** The draws [d1] for the first [k] calls, then the draws [d2]. *)
Definition draws_then (k : nat) (d1 d2 : nat -> float) : nat -> float :=
  fun i => if (i <? k)%nat then d1 i else d2 (i - k)%nat.

(** ** The search, read as a function of the position

    When no call into the engine fails and [undo] restores the position,
    the search is a function of the position it starts from. [alphabeta]
    and [rootLoopPure] are that function, for [minimax] and for the loop of
    [findBestMove], with the same loops and the same [break]s. *)

Section SearchPure.
Context {G : Type} {E : RulesEngine G}.
Local Open Scope float_scope.

Fixpoint for_pure {A S : Type} (xs : list A) (body : A -> S -> Flow * S)
  (s : S) : Flow * S :=
  match xs with
  | [] => (Continue, s)
  | x :: xs' =>
      match body x s with
      | (Break, s') => (Break, s')
      | (Continue, s') => for_pure xs' body s'
      end
  end.

Definition maxStepPure (rec : float -> float -> G -> float) (beta : float)
  (g : G) (move : Move) (vars : float * float) : Flow * (float * float) :=
  let '(maxEval, alpha) := vars in
  match game_move move g with
  | Some g' =>
      let eval_score := rec alpha beta g' in
      let maxEval := JS.Math_max maxEval eval_score in
      let alpha := JS.Math_max alpha eval_score in
      if JS.le beta alpha then (Break, (maxEval, alpha))
      else (Continue, (maxEval, alpha))
  | None => (Continue, (maxEval, alpha))
  end.

Definition minStepPure (rec : float -> float -> G -> float) (alpha : float)
  (g : G) (move : Move) (vars : float * float) : Flow * (float * float) :=
  let '(minEval, beta) := vars in
  match game_move move g with
  | Some g' =>
      let eval_score := rec alpha beta g' in
      let minEval := JS.Math_min minEval eval_score in
      let beta := JS.Math_min beta eval_score in
      if JS.le beta alpha then (Break, (minEval, beta))
      else (Continue, (minEval, beta))
  | None => (Continue, (minEval, beta))
  end.

Fixpoint alphabeta (depth : nat) (alpha beta : float) (isMaximizing : bool)
  (g : G) : float :=
  match depth with
  | O => evaluatePosition g
  | S depth' =>
      if game_over g then evaluatePosition g
      else if (List.length (game_moves g) =? 0)%nat then evaluatePosition g
      else if isMaximizing then
        fst (snd (for_pure (game_moves g)
                    (maxStepPure (fun a b' g' => alphabeta depth' a b' false g')
                       beta g)
                    (neg_infinity, alpha)))
      else
        fst (snd (for_pure (game_moves g)
                    (minStepPure (fun a b' g' => alphabeta depth' a b' true g')
                       alpha g)
                    (infinity, beta)))
  end.

(** The body of the loop of [findBestMove] on a legal move (a move that
    the engine rejects is not in the list the loop runs over). *)
Definition rootStepPure (depth : nat) (beta : float) (g : G)
  (move : Move) (vars : RootVars) : Flow * RootVars :=
  match game_move move g with
  | Some g' =>
      let value := - alphabeta (depth - 1) (- beta) (- alpha vars) false g' in
      let vars :=
        if JS.gt value (bestValue vars)
        then mkRootVars (Some move) value (alpha vars)
        else vars in
      let vars :=
        mkRootVars (bestMove vars) (bestValue vars)
          (JS.Math_max (alpha vars) value) in
      if JS.ge (alpha vars) beta then (Break, vars) else (Continue, vars)
  | None => (Continue, vars)
  end.

Definition rootLoopPure (depth : nat) (g : G) (orderedMoves : list Move)
  : Flow * RootVars :=
  for_pure orderedMoves (rootStepPure depth infinity g)
    (mkRootVars None neg_infinity neg_infinity).

(** ** The exhaustive search

    The full-width search of the same tree, to the same depth, with the
    same loops and no [break]: every move of every node is searched. *)

Definition maxStepFull (rec : G -> float) (g : G) (maxEval : float)
  (move : Move) : float :=
  match game_move move g with
  | Some g' => JS.Math_max maxEval (rec g')
  | None => maxEval
  end.

Definition minStepFull (rec : G -> float) (g : G) (minEval : float)
  (move : Move) : float :=
  match game_move move g with
  | Some g' => JS.Math_min minEval (rec g')
  | None => minEval
  end.

Fixpoint fullWidth (depth : nat) (isMaximizing : bool) (g : G) : float :=
  match depth with
  | O => evaluatePosition g
  | S depth' =>
      if game_over g then evaluatePosition g
      else if (List.length (game_moves g) =? 0)%nat then evaluatePosition g
      else if isMaximizing then
        fold_left (maxStepFull (fullWidth depth' false) g) (game_moves g)
          neg_infinity
      else
        fold_left (minStepFull (fullWidth depth' true) g) (game_moves g)
          infinity
  end.

(** The body of the root loop without its [break]; the value of a root
    move is the negated full-width value of the position it leads to. *)
Definition rootStepFull (depth : nat) (g : G) (vars : RootVars) (move : Move)
  : RootVars :=
  match game_move move g with
  | Some g' =>
      let value := - fullWidth (depth - 1) false g' in
      let vars :=
        if JS.gt value (bestValue vars)
        then mkRootVars (Some move) value (alpha vars)
        else vars in
      mkRootVars (bestMove vars) (bestValue vars)
        (JS.Math_max (alpha vars) value)
  | None => vars
  end.

Definition rootLoopFull (depth : nat) (g : G) (orderedMoves : list Move)
  : RootVars :=
  fold_left (rootStepFull depth g) orderedMoves
    (mkRootVars None neg_infinity neg_infinity).

End SearchPure.

(** The pruned value [pruned] of a node searched in the window
    ([alpha], [beta]) against its full-width value [full]: it is on the
    same side of the window, and it is the same number when that lies
    inside the window. *)
Definition agrees (alpha beta pruned full : float) : Prop :=
  ((JS.key full <= JS.key alpha -> JS.key pruned <= JS.key alpha)
   /\ (JS.key alpha < JS.key full < JS.key beta -> JS.key pruned = JS.key full)
   /\ (JS.key beta <= JS.key full -> JS.key beta <= JS.key pruned))%Z.

(** The loop variables of the pruned root loop against those of the root
    loop without [break]: the same best move, numerically the same best
    value and the same alpha, which equals the best value and is not
    [Infinity]. *)
Definition rootAgree (pruned full : RootVars) : Prop :=
  JS.num (bestValue pruned) /\ JS.num (alpha pruned)
  /\ JS.num (bestValue full) /\ JS.num (alpha full)
  /\ bestMove pruned = bestMove full
  /\ JS.key (bestValue pruned) = JS.key (bestValue full)
  /\ JS.key (alpha pruned) = JS.key (alpha full)
  /\ JS.key (alpha pruned) = JS.key (bestValue pruned)
  /\ (JS.key (alpha pruned) < JS.KINF)%Z.

(** [orderMoves] and [findBestMove] as functions of the position and of
    the draws. *)
Definition orderMovesPure (moves : list Move) (draws : nat -> float) : list Move :=
  let captures := filter is_capture moves in
  let others := filter (fun m => negb (is_capture m)) moves in
  let nc := (List.length captures - 1)%nat in
  let no := (List.length others - 1)%nat in
  shuffleBy nc captures (choices_of nc draws)
  ++ shuffleBy no others (choices_of no (drop_draws nc draws)).

Definition findBestMovePure {G : Type} {E : RulesEngine G} (depth : nat)
  (g : G) (draws : nat -> float) : option Move :=
  if (List.length (game_moves g) =? 0)%nat then None
  else bestMove (snd (rootLoopPure depth g
                        (orderMovesPure (game_moves g) draws))).

(** The move that the exhaustive search chooses: [findBestMove] with the
    full-width search in place of the pruned one. *)
Definition findBestMoveExhaustive {G : Type} {E : RulesEngine G} (depth : nat)
  (g : G) (draws : nat -> float) : option Move :=
  if (List.length (game_moves g) =? 0)%nat then None
  else bestMove (rootLoopFull depth g (orderMovesPure (game_moves g) draws)).

(** ** Counts

    The integer readings of the evaluator's two counting terms, and the
    bound of the search tree. *)

(** The count of the pawn shield: the pawns of colour [c] on the three
    squares of the row in front of the king of colour [c]. *)
Definition shieldPawns (board : Board) (c : Color) : nat :=
  match findKing board c with
  | None => 0
  | Some (row, col) =>
      let shieldRow :=
        (row + match c with White => -1 | Black => 1 end)%Z in
      if ((0 <=? shieldRow) && (shieldRow <? 8))%Z then
        List.length
          (filter (fun colOffset =>
                     ((0 <=? col + colOffset) && (col + colOffset <? 8))%Z
                     && is_piece Pawn c (square board shieldRow (col + colOffset)))
             [-1; 0; 1]%Z)
      else 0
  end.

(** The pawns of colour [c] in a column, and whether a neighbouring column
    holds one. *)
Definition pawnsInColumn (board : Board) (c : Color) (col : Z) : nat :=
  List.length (filter (fun row => is_piece Pawn c (square board row col)) range8).

Definition hasNeighbourPawn (board : Board) (c : Color) (col : Z) : bool :=
  existsb (fun adjacentCol =>
             ((0 <=? adjacentCol) && (adjacentCol <? 8))%Z
             && (0 <? pawnsInColumn board c adjacentCol)%nat)
    [col - 1; col + 1]%Z.

(** The penalty of a column: 10 for each pawn after the first, 15 when its
    pawns have no pawn beside them. *)
Definition columnPenalty (n : nat) (neighbour : bool) : nat :=
  (if (1 <? n)%nat then 10 * (n - 1) else 0)
  + (if (0 <? n)%nat && negb neighbour then 15 else 0).

Definition pawnPenalty (board : Board) (c : Color) : nat :=
  list_sum (map (fun col => columnPenalty (pawnsInColumn board c col)
                              (hasNeighbourPawn board c col))
              range8).

(** The largest number of nodes of a search tree of the given depth in
    which no position has more than [B] moves. *)
Fixpoint searchBound (B : nat) (depth : nat) : Z :=
  match depth with
  | O => 1
  | S depth' => 1 + Z.of_nat B * searchBound B depth'
  end.

(** A call that returns has added between [lo] and [hi] to [nodeCount]. *)
Definition counts {G : Type} {E : RulesEngine G} {A : Type}
  (lo hi : Z) (c : @M G A) : Prop :=
  forall s a s',
    c s = Return a s' ->
    (nodeCount s + lo <= nodeCount s' <= nodeCount s + hi)%Z.

(** ** The page: the handlers of [popup.js] around the search

    The rest of the [QuickChess] object: the handlers of the board
    ([onDragStart], [onDrop]), of the buttons ([undoMove], [restartGame],
    [setDifficulty]), the engine's turn ([makeAIMove]), the status line
    ([updateStatus]) and the saved state ([saveGameState],
    [loadGameState]). The page (the DOM and chessboard.js), the extension's
    storage and the timers are part of the state. *)

(** The other operations of chess.js that the page calls. [game_new] is
    [new Chess()]; [game_move_squares] is [game.move({ from, to,
    promotion: 'q' })], [None] where it returns [null]. *)
Class GameControls (G : Type) := {
  game_new : G;
  game_history : G -> list string;
  in_check : G -> bool;
  game_fen : G -> string;
  game_pgn : G -> string;
  game_load : string -> G -> G;
  game_reset : G -> G;
  game_move_squares : string -> string -> G -> option G
}.


(** The object written under the key ['gameState']. *)
Record GameState := mkGameState {
  saved_fen : string;
  saved_difficulty : string;
  saved_lastMoveSquares : list string;
  saved_pgn : string
}.

(** The values this program keeps in [chrome.storage.local]: the flag
    ['hasPlayedBefore'] and the saved game. *)
Inductive Stored :=
| StoredFlag (b : bool)
| StoredState (gs : GameState).

(** [chrome.storage.local]: keys with their values, each key once. *)
Definition Storage := list (string * Stored).

Definition storage_get (key : string) (st : Storage) : option Stored :=
  match find (fun e => String.eqb (fst e) key) st with
  | Some e => Some (snd e)
  | None => None
  end.

Definition storage_set (key : string) (v : Stored) (st : Storage) : Storage :=
  (key, v) :: filter (fun e => negb (String.eqb (fst e) key)) st.

(** The part of the document that the handlers read and write. [squares]
    are the elements that carry a [data-square] attribute (chessboard.js
    draws them); [highlighted] are those with the class [last-move]. *)
Record Page := mkPage {
  squares : list string;
  boardPosition : string;
  highlighted : list string;
  thinking : bool;
  turnIndicator : string;
  gameStatus : string;
  undoDisabled : bool;
  restartDisabled : bool;
  difficultyDisabled : bool;
  difficultyLabel : string;
  modalHidden : bool;
  celebrating : bool;
  confetti : list float
}.

(** The callbacks handed to [setTimeout]. *)
Inductive Timer :=
| CallMakeAIMove
| RunAIMove
| EndCelebration.

(** The truthiness of a string: the empty string is falsy. *)
Definition truthy (s : string) : bool := negb (String.eqb s "").

(** [c.toUpperCase()] on an ASCII character. *)
Definition toUpperCase (c : Ascii.ascii) : Ascii.ascii :=
  let n := Ascii.nat_of_ascii c in
  if ((97 <=? n) && (n <=? 122))%nat then Ascii.ascii_of_nat (n - 32) else c.

(** [s.charAt(0).toUpperCase() + s.slice(1)], on ASCII strings. *)
Definition capitalize (s : string) : string :=
  match s with
  | EmptyString => EmptyString
  | String c rest => String (toUpperCase c) rest
  end.

(** [piece.search(/^b/) !== -1]: the first character is [b] (code 98). *)
Definition starts_with_b (piece : string) : bool :=
  match piece with
  | String c _ => Ascii.eqb c (Ascii.ascii_of_nat 98)
  | EmptyString => false
  end.

Section Application.
Context {G : Type} {E : RulesEngine G} {C : GameControls G}.
Local Open Scope string_scope.

(** The [QuickChess] object with its surroundings: the fields of the core,
    the fields of the page's logic, the document, the storage, and the
    timers set so far (latest first) with their delays. *)
Record App := mkApp {
  core : @QuickChess G;
  difficulty : string;
  isAiThinking : bool;
  lastMoveSquares : list string;
  page : Page;
  storage : Storage;
  timers : list (Timer * Z)
}.

(** How a handler ends: it returns, an exception leaves it (out of an
    [async] function: a rejected promise that nobody handles), or the
    model ran out of fuel. *)
Inductive Result (A : Type) :=
| Done (a : A) (st : App)
| Raised (st : App)
| Starved.
Arguments Raised {A} st.
Arguments Starved {A}.

Definition UI (A : Type) := App -> Result A.

Definition uret {A} (a : A) : UI A := fun st => Done a st.

Definition ubind {A B} (c : UI A) (k : A -> UI B) : UI B :=
  fun st =>
    match c st with
    | Done a st' => k a st'
    | Raised st' => Raised st'
    | Starved => Starved
    end.

Local Notation "x <~ c ;; k" := (ubind c (fun x => k))
  (at level 61, c at next level, right associativity).
Local Notation "c ;;~ k" := (ubind c (fun _ => k))
  (at level 61, right associativity).

(** [try { body } catch (error) { handler }]. *)
Definition try_catch {A} (body handler : UI A) : UI A :=
  fun st =>
    match body st with
    | Raised st' => handler st'
    | r => r
    end.

(** A call of an [async] method that is not awaited: an exception inside
    it rejects its promise and does not reach the caller. *)
Definition detached (c : UI unit) : UI unit :=
  fun st =>
    match c st with
    | Raised st' => Done tt st'
    | r => r
    end.

Definition set_core (s : @QuickChess G) (st : App) : App :=
  mkApp s (difficulty st) (isAiThinking st) (lastMoveSquares st) (page st)
    (storage st) (timers st).

Definition set_difficulty (d : string) (st : App) : App :=
  mkApp (core st) d (isAiThinking st) (lastMoveSquares st) (page st)
    (storage st) (timers st).

Definition set_isAiThinking (b : bool) (st : App) : App :=
  mkApp (core st) (difficulty st) b (lastMoveSquares st) (page st)
    (storage st) (timers st).

Definition set_lastMoveSquares (l : list string) (st : App) : App :=
  mkApp (core st) (difficulty st) (isAiThinking st) l (page st)
    (storage st) (timers st).

Definition set_page (p : Page) (st : App) : App :=
  mkApp (core st) (difficulty st) (isAiThinking st) (lastMoveSquares st) p
    (storage st) (timers st).

Definition set_storage (s : Storage) (st : App) : App :=
  mkApp (core st) (difficulty st) (isAiThinking st) (lastMoveSquares st)
    (page st) s (timers st).

(** [setTimeout(callback, delay)]. *)
Definition setTimeout (t : Timer) (delay : Z) : UI unit :=
  fun st =>
    Done tt (mkApp (core st) (difficulty st) (isAiThinking st)
               (lastMoveSquares st) (page st) (storage st)
               ((t, delay) :: timers st)).

(** An assignment to a field, or to a property of an element. *)
Definition assign (f : App -> App) : UI unit := fun st => Done tt (f st).

Definition on_page (f : Page -> Page) : UI unit :=
  assign (fun st => set_page (f (page st)) st).

(** A computation of the core, run on the fields of the core. *)
Definition lift {A} (c : @M G A) : UI A :=
  fun st =>
    match c (core st) with
    | Return a s' => Done a (set_core s' st)
    | Throw s' => Raised (set_core s' st)
    | OutOfFuel => Starved
    end.

(** A call into the engine that replaces the position: [game.reset()],
    [game.load(fen)]. *)
Definition replace_ (f : G -> G) : @M G unit :=
  fun s =>
    if engine_fails (game s) then Throw s
    else Return tt (mkQuickChess (f (game s)) (nodeCount s) (random s)).

(** [this.game.move({ from: source, to: target, promotion: 'q' })]; the
    result is [false] for [null]. *)
Definition move_squares_ (source target : string) : @M G bool :=
  fun s =>
    if engine_fails (game s) then Throw s
    else match game_move_squares source target (game s) with
         | Some g' => Return true (mkQuickChess g' (nodeCount s) (random s))
         | None => Return false s
         end.

(** [this.nodeCount = 0]. *)
Definition resetNodeCount : @M G unit :=
  fun s => Return tt (mkQuickChess (game s) 0 (random s)).

(** *** The document *)

Definition set_highlighted (l : list string) (p : Page) : Page :=
  mkPage (squares p) (boardPosition p) l (thinking p) (turnIndicator p)
    (gameStatus p) (undoDisabled p) (restartDisabled p) (difficultyDisabled p)
    (difficultyLabel p) (modalHidden p) (celebrating p) (confetti p).

Definition set_thinking (b : bool) (p : Page) : Page :=
  mkPage (squares p) (boardPosition p) (highlighted p) b (turnIndicator p)
    (gameStatus p) (undoDisabled p) (restartDisabled p) (difficultyDisabled p)
    (difficultyLabel p) (modalHidden p) (celebrating p) (confetti p).

Definition set_boardPosition (pos : string) (p : Page) : Page :=
  mkPage (squares p) pos (highlighted p) (thinking p) (turnIndicator p)
    (gameStatus p) (undoDisabled p) (restartDisabled p) (difficultyDisabled p)
    (difficultyLabel p) (modalHidden p) (celebrating p) (confetti p).

Definition set_turnIndicator (t : string) (p : Page) : Page :=
  mkPage (squares p) (boardPosition p) (highlighted p) (thinking p) t
    (gameStatus p) (undoDisabled p) (restartDisabled p) (difficultyDisabled p)
    (difficultyLabel p) (modalHidden p) (celebrating p) (confetti p).

Definition set_gameStatus (t : string) (p : Page) : Page :=
  mkPage (squares p) (boardPosition p) (highlighted p) (thinking p)
    (turnIndicator p) t (undoDisabled p) (restartDisabled p)
    (difficultyDisabled p) (difficultyLabel p) (modalHidden p) (celebrating p)
    (confetti p).

Definition set_disabled (undo restart diff : bool) (p : Page) : Page :=
  mkPage (squares p) (boardPosition p) (highlighted p) (thinking p)
    (turnIndicator p) (gameStatus p) undo restart diff
    (difficultyLabel p) (modalHidden p) (celebrating p) (confetti p).

Definition set_difficultyLabel (t : string) (p : Page) : Page :=
  mkPage (squares p) (boardPosition p) (highlighted p) (thinking p)
    (turnIndicator p) (gameStatus p) (undoDisabled p) (restartDisabled p)
    (difficultyDisabled p) t (modalHidden p) (celebrating p) (confetti p).

Definition set_modalHidden (b : bool) (p : Page) : Page :=
  mkPage (squares p) (boardPosition p) (highlighted p) (thinking p)
    (turnIndicator p) (gameStatus p) (undoDisabled p) (restartDisabled p)
    (difficultyDisabled p) (difficultyLabel p) b (celebrating p) (confetti p).

Definition set_celebration (b : bool) (pieces : list float) (p : Page) : Page :=
  mkPage (squares p) (boardPosition p) (highlighted p) (thinking p)
    (turnIndicator p) (gameStatus p) (undoDisabled p) (restartDisabled p)
    (difficultyDisabled p) (difficultyLabel p) (modalHidden p) b pieces.

Definition mem (x : string) (l : list string) : bool :=
  existsb (String.eqb x) l.

(** [addHighlight(square)]: the element of the square, if the document
    has one, gets the class [last-move]. *)
Definition addHighlight (square : string) : UI unit :=
  on_page (fun p =>
    if mem square (squares p) then
      if mem square (highlighted p) then p
      else set_highlighted (highlighted p ++ [square]) p
    else p).

Definition removeHighlights : UI unit := on_page (set_highlighted []).

Definition highlightLastMove : UI unit :=
  removeHighlights ;;~
  fun st =>
    match lastMoveSquares st with
    | [from; to] => (addHighlight from ;;~ addHighlight to) st
    | _ => Done tt st
    end.

Definition addThinkingIndicator : UI unit := on_page (set_thinking true).
Definition removeThinkingIndicator : UI unit := on_page (set_thinking false).

Definition showDifficultyModal : UI unit := on_page (set_modalHidden false).

(** *** The storage *)

(** [await this.getStorageData(key)]; [None] is [undefined]. *)
Definition getStorageData (key : string) : UI (option Stored) :=
  fun st => Done (storage_get key (storage st)) st.

Definition setStorageData (key : string) (value : Stored) : UI unit :=
  assign (fun st => set_storage (storage_set key value (storage st)) st).

Definition hideDifficultyModal : UI unit :=
  on_page (set_modalHidden true) ;;~
  setStorageData "hasPlayedBefore" (StoredFlag true).

(** [saveGameState()]; every caller leaves it unawaited. *)
Definition saveGameState : UI unit :=
  detached
    (fen <~ lift (call game_fen) ;;
     d <~ (fun st => Done (difficulty st) st) ;;
     sq <~ (fun st => Done (lastMoveSquares st) st) ;;
     pgn <~ lift (call game_pgn) ;;
     setStorageData "gameState" (StoredState (mkGameState fen d sq pgn))).

(** [await this.loadGameState()]. A stored flag has none of the three
    properties read here. *)
Definition loadGameState : UI unit :=
  gameState <~ getStorageData "gameState" ;;
  match gameState with
  | Some (StoredState gs) =>
      (if truthy (saved_fen gs)
       then lift (replace_ (game_load (saved_fen gs))) else uret tt) ;;~
      (if truthy (saved_difficulty gs)
       then assign (set_difficulty (saved_difficulty gs)) ;;~
            on_page (set_difficultyLabel
                       ("Difficulty: " ++ capitalize (saved_difficulty gs)))
       else uret tt) ;;~
      assign (set_lastMoveSquares (saved_lastMoveSquares gs))
  | _ => uret tt
  end.

(** *** The status line *)

(** The ten pieces of confetti, each with its duration
    [2 + Math.random() * 2] in seconds, and the timer that clears them. *)
Fixpoint drawConfetti (n : nat) : @M G (list float) :=
  match n with
  | O => ret []
  | S n' => bind Math_random (fun r =>
            bind (drawConfetti n') (fun rest => ret ((2 + r * 2)%float :: rest)))
  end.

Definition triggerWinCelebration : UI unit :=
  pieces <~ lift (drawConfetti 10) ;;
  on_page (set_celebration true pieces) ;;~
  setTimeout EndCelebration 4000.

(** The second half of [updateStatus]: the two lines of the status, when
    no custom message is shown. *)
Definition statusLines : UI unit :=
  over <~ lift (call game_over) ;;
  if over then
    on_page (set_turnIndicator "") ;;~
    mate <~ lift (call in_checkmate) ;;
    if mate then
      turn <~ lift (call game_turn) ;;
      match turn with
      | White => on_page (set_gameStatus "CHECKMATE - AI WINS")
      | Black =>
          on_page (set_gameStatus "CHECKMATE - YOU WIN!") ;;~
          triggerWinCelebration
      end
    else
      stale <~ lift (call in_stalemate) ;;
      if stale then on_page (set_gameStatus "STALEMATE - DRAW")
      else
        rep <~ lift (call in_threefold_repetition) ;;
        if rep then on_page (set_gameStatus "DRAW - THREEFOLD REPETITION")
        else
          insuf <~ lift (call insufficient_material) ;;
          if insuf
          then on_page (set_gameStatus "DRAW - INSUFFICIENT MATERIAL")
          else on_page (set_gameStatus "DRAW - 50 MOVE RULE")
  else
    on_page (set_gameStatus "") ;;~
    check <~ lift (call in_check) ;;
    turn <~ lift (call game_turn) ;;
    on_page (set_turnIndicator
               (match check, turn with
                | true, White => "CHECK - Your turn"
                | true, Black => "CHECK - AI turn"
                | false, White => "Your turn"
                | false, Black => "AI turn"
                end)).

(** [updateStatus(customMessage)]; [None] is the default [null]. The
    buttons first; then the custom message, if there is one, and nothing
    else. *)
Definition updateStatus (customMessage : option string) : UI unit :=
  ai <~ (fun st => Done (isAiThinking st) st) ;;
  isDisabled <~ (if ai then uret true else lift (call game_over)) ;;
  undo <~ (if isDisabled then uret true
           else h <~ lift (call game_history) ;;
                uret (List.length h =? 0)%nat) ;;
  on_page (set_disabled undo ai ai) ;;~
  match customMessage with
  | Some message =>
      if truthy message then
        on_page (set_turnIndicator message) ;;~ on_page (set_gameStatus "")
      else statusLines
  | None => statusLines
  end.

(** *** The board *)

(** [onDragStart(source, piece, position, orientation)]: [false] where it
    returns [false], [true] where it returns nothing (the drag goes on). *)
Definition onDragStart (source piece : string) : UI bool :=
  over <~ lift (call game_over) ;;
  ai <~ (fun st => Done (isAiThinking st) st) ;;
  if over || ai then uret false
  else if starts_with_b piece then uret false
  else
    turn <~ lift (call game_turn) ;;
    match turn with
    | White => uret true
    | Black => uret false
    end.

(** [this.board.position(this.game.fen())]. *)
Definition showPosition : UI unit :=
  fen <~ lift (call game_fen) ;;
  on_page (set_boardPosition fen).

(** [!this.game.game_over() && this.game.turn() === 'b']. *)
Definition engineToMove : UI bool :=
  over <~ lift (call game_over) ;;
  if over then uret false
  else
    turn <~ lift (call game_turn) ;;
    uret (match turn with Black => true | White => false end).

(** [onDrop(source, target)]: [true] where it returns ['snapback']. *)
Definition onDrop (source target : string) : UI bool :=
  removeHighlights ;;~
  moved <~ lift (move_squares_ source target) ;;
  if negb moved then uret true
  else
    assign (set_lastMoveSquares [source; target]) ;;~
    updateStatus None ;;~
    highlightLastMove ;;~
    saveGameState ;;~
    go <~ engineToMove ;;
    (if go then setTimeout CallMakeAIMove 1200 else uret tt) ;;~
    uret false.

(** *** The engine's turn *)

(** The names that the [switch] of [makeAIMove] knows. *)
Definition difficultyOf (d : string) : option Difficulty :=
  if String.eqb d "easy" then Some easy
  else if String.eqb d "medium" then Some medium
  else if String.eqb d "hard" then Some hard
  else if String.eqb d "grandmaster" then Some grandmaster
  else None.

(** The callback that [makeAIMove] hands to [setTimeout]. With a name that
    the [switch] does not know, [selectedMove] stays [undefined]. *)
Definition runAIMove (fuel : nat) : UI unit :=
  try_catch
    (possibleMoves <~ lift (call game_moves) ;;
     if (List.length possibleMoves =? 0)%nat then
       assign (set_isAiThinking false) ;;~
       removeThinkingIndicator ;;~
       updateStatus None
     else
       d <~ (fun st => Done (difficulty st) st) ;;
       selectedMove <~
         match difficultyOf d with
         | Some level => lift (selectMove fuel level possibleMoves)
         | None => uret None
         end ;;
       match selectedMove with
       | Some m =>
           lift (move_ m) ;;~
           showPosition ;;~
           assign (set_lastMoveSquares [from m; to m]) ;;~
           highlightLastMove
       | None => uret tt
       end ;;~
       assign (set_isAiThinking false) ;;~
       removeThinkingIndicator ;;~
       updateStatus None ;;~
       saveGameState)
    (assign (set_isAiThinking false) ;;~
     removeThinkingIndicator ;;~
     updateStatus None).

(** [makeAIMove()], up to the timer it sets. *)
Definition makeAIMove : UI unit :=
  over <~ lift (call game_over) ;;
  ai <~ (fun st => Done (isAiThinking st) st) ;;
  if over || ai then uret tt
  else
    assign (set_isAiThinking true) ;;~
    updateStatus (Some "AI is thinking...") ;;~
    addThinkingIndicator ;;~
    lift resetNodeCount ;;~
    setTimeout RunAIMove 50.

(** *** The buttons *)

Definition undoMove : UI unit :=
  ai <~ (fun st => Done (isAiThinking st) st) ;;
  none <~ (if ai then uret true
           else h <~ lift (call game_history) ;;
                uret (List.length h =? 0)%nat) ;;
  if none then uret tt
  else
    lift undo_ ;;~
    h <~ lift (call game_history) ;;
    (if (0 <? List.length h)%nat then
       turn <~ lift (call game_turn) ;;
       match turn with
       | White => lift undo_
       | Black => uret tt
       end
     else uret tt) ;;~
    showPosition ;;~
    assign (set_lastMoveSquares []) ;;~
    removeHighlights ;;~
    updateStatus None ;;~
    saveGameState.

Definition restartGame : UI unit :=
  ai <~ (fun st => Done (isAiThinking st) st) ;;
  if ai then uret tt
  else
    lift (replace_ game_reset) ;;~
    on_page (set_boardPosition "start") ;;~
    assign (set_lastMoveSquares []) ;;~
    removeHighlights ;;~
    updateStatus None ;;~
    saveGameState.

(** [setDifficulty(difficulty)]; it returns [true]. *)
Definition setDifficulty (d : string) : UI bool :=
  assign (set_difficulty d) ;;~
  on_page (set_difficultyLabel ("Difficulty: " ++ capitalize d)) ;;~
  saveGameState ;;~
  uret true.

(** *** Start-up *)

(** The object as the constructor leaves it, before [init] runs, in a
    document [p] with storage [store]. *)
Definition constructed (draws : nat -> float) (p : Page) (store : Storage) : App :=
  mkApp (mkQuickChess game_new 0 draws) "easy" false [] p store [].

(** [init()], without the registration of the listeners. *)
Definition init : UI unit :=
  loadGameState ;;~
  showPosition ;;~
  updateStatus None ;;~
  highlightLastMove ;;~
  hasPlayedBefore <~ getStorageData "hasPlayedBefore" ;;
  (match hasPlayedBefore with
   | Some (StoredFlag true) | Some (StoredState _) => uret tt
   | _ => showDifficultyModal
   end) ;;~
  turn <~ lift (call game_turn) ;;
  go <~ (match turn with
         | Black => over <~ lift (call game_over) ;; uret (negb over)
         | White => uret false
         end) ;;
  if go then setTimeout CallMakeAIMove 500 else uret tt.

End Application.

Arguments Raised {G A} st.
Arguments Starved {G A}.

(** *** What a handler leaves behind *)

Section Outcomes.
Context {G : Type} {E : RulesEngine G} {C : GameControls G}.

(** What a handler leaves true however it ends. *)
Definition always {A} (P : @App G -> Prop) (c : @UI G A) : Prop :=
  forall st, match c st with
             | Done _ st' | Raised st' => P st'
             | Starved => True
             end.

(** What a handler keeps true however it ends. *)
Definition keeps {A} (P : @App G -> Prop) (c : @UI G A) : Prop :=
  forall st, P st -> match c st with
                     | Done _ st' | Raised st' => P st'
                     | Starved => True
                     end.

(** What a handler makes true when it returns. *)
Definition establishes {A} (P : @App G -> Prop) (c : @UI G A) : Prop :=
  forall st, match c st with
             | Done _ st' => P st'
             | _ => True
             end.

(** The engine is no longer thinking: the flag is down and the indicator
    is off. *)
Definition settled (st : @App G) : Prop :=
  isAiThinking st = false /\ thinking (page st) = false.

(** Everything but the status line, the buttons, the celebration and the
    draws is as it was. *)
Definition status_only (st st' : @App G) : Prop :=
  game (core st') = game (core st)
  /\ nodeCount (core st') = nodeCount (core st)
  /\ difficulty st' = difficulty st
  /\ isAiThinking st' = isAiThinking st
  /\ lastMoveSquares st' = lastMoveSquares st
  /\ storage st' = storage st
  /\ squares (page st') = squares (page st)
  /\ boardPosition (page st') = boardPosition (page st)
  /\ highlighted (page st') = highlighted (page st)
  /\ thinking (page st') = thinking (page st)
  /\ modalHidden (page st') = modalHidden (page st)
  /\ difficultyLabel (page st') = difficultyLabel (page st)
  /\ (timers st' = timers st
      \/ timers st' = (EndCelebration, 4000%Z) :: timers st).

(** The three buttons are disabled. *)
Definition locked (st : @App G) : Prop :=
  undoDisabled (page st) = true
  /\ restartDisabled (page st) = true
  /\ difficultyDisabled (page st) = true.


End Outcomes.

(** ** The page on the miniature engine *)

Module MiniaturePage.
Import Miniature.
Local Open Scope string_scope.

(** The position in four letters: the pawns, the file of the black king,
    the file of the white king, the side to move. *)
Definition fenOf (pos : Pos) : string :=
  (match pawns pos with
   | Home => "H" | BlackTook => "b" | BlackPushed => "B"
   | WhiteTook => "w" | WhitePushed => "W"
   end)
  ++ (if blackKingOnH pos then "h" else "g")
  ++ (if whiteKingOnH pos then "h" else "g")
  ++ (match side pos with White => "w" | Black => "b" end).

Definition positions : list Pos :=
  flat_map (fun pw =>
    flat_map (fun bk =>
      flat_map (fun wk => [mkPos pw bk wk White; mkPos pw bk wk Black])
        [false; true])
      [false; true])
    [Home; BlackTook; BlackPushed; WhiteTook; WhitePushed].

Definition parseFen (fen : string) : option Pos :=
  find (fun pos => String.eqb (fenOf pos) fen) positions.

(** White to move, both pawns at home, no move played. *)
Definition fresh : Game := mkGame (mkPos Home false false White) [].

(** The operations of the page on the miniature engine: the history
    counts the moves played, [load] starts from the position it reads (and
    keeps the game when it cannot read one), a move is found by its two
    squares. *)
Definition controls : GameControls Game := {|
  game_new := fresh;
  game_history := fun g => map fenOf (history g);
  in_check := fun _ => false;
  game_fen := fun g => fenOf (current g);
  game_pgn := fun g => String.concat " " (rev (map fenOf (history g)));
  game_load := fun fen g =>
    match parseFen fen with
    | Some pos => mkGame pos []
    | None => g
    end;
  game_reset := fun _ => fresh;
  game_move_squares := fun source target g =>
    match find (fun e => String.eqb (from (fst e)) source
                         && String.eqb (to (fst e)) target)
            (movesOf (current g)) with
    | Some e => Some (mkGame (snd e) (current g :: history g))
    | None => None
    end
|}.

(** A document with the squares of the two pawns and of the kings. *)
Definition document : Page :=
  mkPage ["d4"; "e5"; "e4"; "d5"; "g1"; "h1"; "g8"; "h8"]
    "" [] false "" "" false false false "" true false [].

(** The object on the position [g], at the given difficulty, with nothing
    stored and no timer set. *)
Definition app (g : Game) (d : string) : @App Game :=
  mkApp (state g) d false [] document [] [].

(** White has played [d5]: black is to move, one move in the history. *)
Definition afterPush : Game :=
  mkGame (mkPos WhitePushed false false Black) [mkPos Home false false White].


End MiniaturePage.
(* ===================================================================== *)
(** * Part II. Properties                                                 *)
(* ===================================================================== *)

(** ** The order of JavaScript numbers

    Numbers other than NaN are totally ordered by [<=]. The order is read
    through an integer key, monotone on binary64 values, so that facts
    about comparisons, [Math.max], [Math.min] and negation reduce to linear
    integer arithmetic. *)

Module JSFacts.
Local Open Scope Z_scope.

Local Abbreviation P53 := JS.P53.
Local Abbreviation KINF := JS.KINF.
Local Abbreviation SFkey := JS.SFkey.
Local Abbreviation key := JS.key.
Local Abbreviation num := JS.num.

Lemma digits2_pos_bound (m : positive) : Z.pos m < 2 ^ Z.pos (digits2_pos m).
Proof.
  induction m as [m IH | m IH | ]; simpl digits2_pos.
  - rewrite Pos2Z.inj_succ, Z.pow_succ_r by lia. lia.
  - rewrite Pos2Z.inj_succ, Z.pow_succ_r by lia. lia.
  - reflexivity.
Qed.

Lemma bounded_range m e :
  SpecFloat.bounded prec emax m e = true ->
  Z.pos m < P53 /\ -1074 <= e <= 971.
Proof.
  unfold SpecFloat.bounded, canonical_mantissa, fexp.
  change (SpecFloat.emin prec emax) with (-1074).
  change (emax - prec) with 971. change prec with 53.
  intros H. apply andb_true_iff in H. destruct H as [Hc He].
  apply Z.eqb_eq in Hc. apply Z.leb_le in He.
  assert (Hd : Z.pos (digits2_pos m) <= 53) by lia.
  split; [|lia].
  pose proof (digits2_pos_bound m) as Hm.
  assert (2 ^ Z.pos (digits2_pos m) <= 2 ^ 53) by (apply Z.pow_le_mono_r; lia).
  change (2 ^ 53) with JS.P53 in *. lia.
Qed.

Lemma SFcompare_key x y :
  valid_binary x = true -> valid_binary y = true ->
  x <> S754_nan -> y <> S754_nan ->
  SFcompare x y = Some (SFkey x ?= SFkey y).
Proof.
  intros Vx Vy Nx Ny.
  destruct x as [sx|sx| |sx mx ex], y as [sy|sy| |sy my ey];
    try congruence; simpl in Vx, Vy;
    try (apply bounded_range in Vx); try (apply bounded_range in Vy);
    unfold SFcompare, JS.SFkey, JS.KINF, JS.P53 in *;
    repeat match goal with s : bool |- _ => destruct s end;
    try reflexivity;
    try (f_equal; symmetry;
         first [ apply Z.compare_lt_iff; lia | apply Z.compare_gt_iff; lia
               | apply Z.compare_eq_iff; lia ]).
  all: f_equal;
    destruct (Z.compare_spec ex ey);
      [ subst; change (Pos.compare_cont Eq mx my) with (Pos.compare mx my);
        destruct (Pos.compare_spec mx my); [subst| |] | | ];
    simpl; symmetry;
    first [ apply Z.compare_eq_iff; lia | apply Z.compare_lt_iff; lia
          | apply Z.compare_gt_iff; lia ].
Qed.

Lemma SFkey_range x : valid_binary x = true -> - KINF <= SFkey x <= KINF.
Proof.
  destruct x as [s|s| |s m e]; simpl; intros V;
    try (apply bounded_range in V); unfold JS.KINF, JS.P53 in *;
    try destruct s; lia.
Qed.

Lemma num_spec x : num x <-> Prim2SF x <> S754_nan.
Proof.
  unfold JS.num, is_nan. rewrite FloatAxioms.eqb_spec. unfold SFeqb.
  destruct (Prim2SF x) as [s|s| |s m e] eqn:Hx; simpl.
  - split; [congruence | reflexivity].
  - destruct s; (split; [congruence | reflexivity]).
  - split; [discriminate | congruence].
  - rewrite Z.compare_refl.
    change (Pos.compare_cont Eq m m) with (Pos.compare m m).
    rewrite Pos.compare_refl. destruct s; (split; [congruence | reflexivity]).
Qed.

Lemma compare_key x y :
  num x -> num y -> SFcompare (Prim2SF x) (Prim2SF y) = Some (key x ?= key y).
Proof.
  intros Hx Hy. apply SFcompare_key;
    auto using Prim2SF_valid; now apply num_spec.
Qed.

Lemma leb_key x y : num x -> num y -> (x <=? y)%float = (key x <=? key y).
Proof.
  intros Hx Hy. rewrite FloatAxioms.leb_spec. unfold SFleb. rewrite compare_key by assumption.
  unfold Z.leb. now destruct (key x ?= key y).
Qed.

Lemma ltb_key x y : num x -> num y -> (x <? y)%float = (key x <? key y).
Proof.
  intros Hx Hy. rewrite FloatAxioms.ltb_spec. unfold SFltb. rewrite compare_key by assumption.
  unfold Z.ltb. now destruct (key x ?= key y).
Qed.

Lemma eqb_key x y : num x -> num y -> (x =? y)%float = (key x =? key y).
Proof.
  intros Hx Hy. rewrite FloatAxioms.eqb_spec. unfold SFeqb. rewrite compare_key by assumption.
  destruct (Z.compare_spec (key x) (key y)); symmetry;
    [apply Z.eqb_eq | apply Z.eqb_neq | apply Z.eqb_neq]; lia.
Qed.

Lemma key_range x : - KINF <= key x <= KINF.
Proof. apply SFkey_range, Prim2SF_valid. Qed.

Lemma num_opp x : num x -> num (- x)%float.
Proof.
  rewrite !num_spec, FloatAxioms.opp_spec. now destruct (Prim2SF x).
Qed.

Lemma key_opp x : key (- x)%float = - key x.
Proof.
  unfold JS.key. rewrite FloatAxioms.opp_spec.
  destruct (Prim2SF x) as [s|s| |s m e]; simpl; try destruct s; simpl;
    unfold JS.KINF, JS.P53; lia.
Qed.

Lemma num_infinity : num infinity.
Proof. reflexivity. Qed.

Lemma num_neg_infinity : num neg_infinity.
Proof. reflexivity. Qed.

Lemma key_infinity : key infinity = KINF.
Proof. reflexivity. Qed.

Lemma key_neg_infinity : key neg_infinity = - KINF.
Proof. reflexivity. Qed.

(** A finite number lies strictly between the infinities. *)
Lemma finite_num x : is_finite x = true -> num x.
Proof.
  unfold is_finite, JS.num. rewrite negb_true_iff, orb_false_iff. tauto.
Qed.

Lemma finite_key x : is_finite x = true -> - KINF < key x < KINF.
Proof.
  intros Hf. pose proof (finite_num _ Hf) as Hn.
  unfold is_finite in Hf. rewrite negb_true_iff, orb_false_iff in Hf.
  destruct Hf as [_ Hi]. unfold is_infinity in Hi.
  rewrite FloatAxioms.eqb_spec, FloatAxioms.abs_spec in Hi.
  apply num_spec in Hn. pose proof (Prim2SF_valid x) as V.
  unfold JS.key. change (Prim2SF infinity) with (S754_infinity false) in Hi.
  destruct (Prim2SF x) as [s|s| |s m e]; try congruence.
  - simpl. unfold JS.KINF, JS.P53. lia.
  - discriminate Hi.
  - apply bounded_range in V. simpl. unfold JS.KINF, JS.P53 in *. destruct s; lia.
Qed.

(** [v >= Infinity] holds of [Infinity] alone. *)
Lemma ge_infinity x : JS.ge x infinity = true -> x = infinity.
Proof.
  unfold JS.ge. rewrite FloatAxioms.leb_spec. intros H. apply Prim2SF_inj.
  change (Prim2SF infinity) with (S754_infinity false) in *.
  destruct (Prim2SF x) as [s|s| |s m e]; simpl in H; try discriminate.
  - destruct s; [discriminate | reflexivity].
Qed.

Lemma num_Math_max a b : num a -> num b -> num (JS.Math_max a b).
Proof.
  unfold JS.num, JS.Math_max. intros Ha Hb. rewrite Ha, Hb. simpl.
  destruct (a <? b)%float; [assumption|].
  destruct (b <? a)%float; [assumption|].
  now destruct (JS.is_neg_zero a).
Qed.

Lemma num_Math_min a b : num a -> num b -> num (JS.Math_min a b).
Proof.
  unfold JS.num, JS.Math_min. intros Ha Hb. rewrite Ha, Hb. simpl.
  destruct (a <? b)%float; [assumption|].
  destruct (b <? a)%float; [assumption|].
  now destruct (JS.is_neg_zero a).
Qed.

Lemma key_Math_max a b :
  num a -> num b -> key (JS.Math_max a b) = Z.max (key a) (key b).
Proof.
  intros Ha Hb. unfold JS.Math_max.
  rewrite (ltb_key Ha Hb), (ltb_key Hb Ha). unfold JS.num in Ha, Hb.
  rewrite Ha, Hb. simpl.
  destruct (Z.ltb_spec (key a) (key b)); [lia|].
  destruct (Z.ltb_spec (key b) (key a)); [lia|].
  destruct (JS.is_neg_zero a); lia.
Qed.

Lemma key_Math_min a b :
  num a -> num b -> key (JS.Math_min a b) = Z.min (key a) (key b).
Proof.
  intros Ha Hb. unfold JS.Math_min.
  rewrite (ltb_key Ha Hb), (ltb_key Hb Ha). unfold JS.num in Ha, Hb.
  rewrite Ha, Hb. simpl.
  destruct (Z.ltb_spec (key a) (key b)); [lia|].
  destruct (Z.ltb_spec (key b) (key a)); [lia|].
  destruct (JS.is_neg_zero a); lia.
Qed.

(** [Math.max] is [Infinity] only when an argument is. *)
Lemma Math_max_infinity a v :
  JS.Math_max a v = infinity -> a = infinity \/ v = infinity.
Proof.
  unfold JS.Math_max. destruct (is_nan a || is_nan v).
  - intros H. apply (f_equal is_nan) in H. discriminate H.
  - destruct (a <? v)%float; [now right|].
    destruct (v <? a)%float; [now left|].
    destruct (JS.is_neg_zero a); [now right | now left].
Qed.

Lemma same_key x y : num x -> num y -> key x = key y -> JS.same x y.
Proof.
  intros Hx Hy Hk. unfold JS.same. rewrite eqb_key by assumption.
  now apply Z.eqb_eq.
Qed.

End JSFacts.

(** ** The evaluator returns a finite number

    Every intermediate value of [evaluatePosition] is a zero or a finite
    number of bounded size: the rounding of an addition or a multiplication
    of two bounded numbers cannot overflow. The bounds are followed through
    the definition of the binary64 operations ([SpecFloat]). *)

Section Magnitudes.
Local Open Scope Z_scope.

Lemma pow2_pos n : 0 < 2 ^ n \/ n < 0.
Proof. destruct (Z_lt_le_dec n 0); [now right | left; now apply Z.pow_pos_nonneg]. Qed.

Lemma pow2_split a c : 0 <= a -> 0 <= c -> 2 ^ (a + c) = 2 ^ a * 2 ^ c.
Proof. intros. now apply Z.pow_add_r. Qed.

(** Cancelling a power of two in a strict bound. *)
Lemma lt_pow2_cancel m n j :
  0 <= n -> 0 <= j -> m * 2 ^ n < 2 ^ (j + n) -> m < 2 ^ j.
Proof.
  intros Hn Hj H. rewrite Z.pow_add_r in H by assumption.
  assert (0 < 2 ^ n) by now apply Z.pow_pos_nonneg.
  nia.
Qed.

Lemma div_pow2_bound m n :
  0 <= m -> 0 <= n -> 0 <= m / 2 ^ n /\ (m / 2 ^ n) * 2 ^ n <= m.
Proof.
  intros Hm Hn. assert (0 < 2 ^ n) by now apply Z.pow_pos_nonneg.
  split; [apply Z.div_pos; lia|]. rewrite Z.mul_comm. apply Z.mul_div_le. lia.
Qed.

Lemma shr_1_spec mrs : 0 <= shr_m mrs -> shr_m (shr_1 mrs) = shr_m mrs / 2.
Proof.
  destruct mrs as [m r s]. simpl. intros Hm.
  destruct m as [|[p|p|]|p]; cbn [shr_m]; try lia; try reflexivity.
  - apply Z.div_unique with (r := 1); lia.
  - apply Z.div_unique with (r := 0); lia.
Qed.

Lemma iter_shr_1_spec p : forall mrs,
  0 <= shr_m mrs ->
  shr_m (SpecFloat.iter_pos shr_1 p mrs) = shr_m mrs / 2 ^ Z.pos p.
Proof.
  assert (Hnn : forall mrs, 0 <= shr_m mrs -> 0 <= shr_m (shr_1 mrs)).
  { intros mrs H. rewrite shr_1_spec by assumption. apply Z.div_pos; lia. }
  induction p as [p IH | p IH | ]; intros mrs Hm; simpl SpecFloat.iter_pos.
  - rewrite IH, IH, shr_1_spec; auto.
    + rewrite !Z.div_div by (try apply Z.pow_pos_nonneg; lia).
      f_equal. replace (Z.pos p~1) with (1 + Z.pos p + Z.pos p) by lia.
      rewrite !Z.pow_add_r by lia. change (2 ^ 1) with 2. ring.
    + rewrite IH by auto. apply Z.div_pos; [auto | now apply Z.pow_pos_nonneg].
  - rewrite IH, IH; auto.
    + rewrite !Z.div_div by (try apply Z.pow_pos_nonneg; lia).
      f_equal. replace (Z.pos p~0) with (Z.pos p + Z.pos p) by lia.
      rewrite !Z.pow_add_r by lia. ring.
    + rewrite IH by auto. apply Z.div_pos; [auto | now apply Z.pow_pos_nonneg].
  - rewrite shr_1_spec by assumption. reflexivity.
Qed.

Lemma shr_record_of_loc_m m l : shr_m (shr_record_of_loc m l) = m.
Proof. destruct l as [|[| |]]; reflexivity. Qed.

(** The shift of [shr_fexp]: the new exponent, and the mantissa divided. *)
Lemma shr_fexp_spec m e l :
  0 <= m ->
  let e' := Z.max e (fexp prec emax (Zdigits2 m + e)) in
  snd (shr_fexp prec emax m e l) = e' /\
  shr_m (fst (shr_fexp prec emax m e l)) = m / 2 ^ (e' - e).
Proof.
  intros Hm e'. unfold shr_fexp, shr.
  destruct (fexp prec emax (Zdigits2 m + e) - e) as [|p|p] eqn:Hn; simpl.
  - subst e'. replace (Z.max e _) with e by lia.
    rewrite shr_record_of_loc_m, Z.sub_diag. simpl. now rewrite Z.div_1_r.
  - subst e'. replace (Z.max e _) with (e + Z.pos p) by lia.
    rewrite iter_shr_1_spec by (rewrite shr_record_of_loc_m; assumption).
    rewrite shr_record_of_loc_m.
    split; [reflexivity|]. f_equal. f_equal. lia.
  - subst e'. replace (Z.max e _) with e by lia.
    rewrite shr_record_of_loc_m, Z.sub_diag. simpl. now rewrite Z.div_1_r.
Qed.

Lemma round_nearest_even_bounds m l :
  m <= round_nearest_even m l <= m + 1.
Proof.
  destruct l as [|[| |]]; simpl; try lia. destruct (Z.even m); lia.
Qed.

Lemma digits2_pos_lower (p : positive) : 2 ^ (Z.pos (digits2_pos p) - 1) <= Z.pos p.
Proof.
  induction p as [p IH | p IH | ]; simpl digits2_pos.
  - rewrite Pos2Z.inj_succ. replace (Z.succ (Z.pos (digits2_pos p)) - 1)
      with (1 + (Z.pos (digits2_pos p) - 1)) by lia.
    rewrite Z.pow_add_r by lia. lia.
  - rewrite Pos2Z.inj_succ. replace (Z.succ (Z.pos (digits2_pos p)) - 1)
      with (1 + (Z.pos (digits2_pos p) - 1)) by lia.
    rewrite Z.pow_add_r by lia. lia.
  - simpl. lia.
Qed.

Lemma digits2_pos_upper (p : positive) : Z.pos p < 2 ^ Z.pos (digits2_pos p).
Proof.
  induction p as [p IH | p IH | ]; simpl digits2_pos.
  - rewrite Pos2Z.inj_succ, Z.pow_succ_r by lia. lia.
  - rewrite Pos2Z.inj_succ, Z.pow_succ_r by lia. lia.
  - reflexivity.
Qed.

(** The number of bits of a number below [2 ^ j]. *)
Lemma Zdigits2_le m j : 0 <= m < 2 ^ j -> 0 <= j -> Zdigits2 m <= j.
Proof.
  intros [Hm Hlt] Hj. destruct m as [|p|p]; simpl; try lia.
  pose proof (digits2_pos_lower p) as Hlow.
  destruct (Z_lt_le_dec j (Z.pos (digits2_pos p))) as [Hgt|]; [|lia].
  exfalso. assert (2 ^ j <= 2 ^ (Z.pos (digits2_pos p) - 1))
    by (apply Z.pow_le_mono_r; lia). lia.
Qed.

Lemma Zdigits2_lt_pow m : 0 <= m -> m < 2 ^ Zdigits2 m.
Proof.
  intros Hm. destruct m as [|p|p]; simpl; try lia. apply digits2_pos_upper.
Qed.

Lemma fexp_eq z : fexp prec emax z = Z.max (z - 53) (-1074).
Proof. reflexivity. Qed.

Lemma fits_mono k k' m e : k <= k' -> fits k m e -> fits k' m e.
Proof.
  intros Hk [[H0 Hlt] He]. split; [split; [assumption|] | lia].
  assert (2 ^ (k - e) <= 2 ^ (k' - e)) by (apply Z.pow_le_mono_r; lia). lia.
Qed.

Lemma SFsmall_mono k k' x : k <= k' -> SFsmall k x -> SFsmall k' x.
Proof. intros Hk. destruct x; simpl; auto. now apply fits_mono. Qed.

(** Rounding a mantissa that fits [k] gives zero or a finite number that
    fits [k + 1]: no overflow while [k] stays below the largest exponent. *)
Lemma binary_round_aux_small sx mx ex k :
  fits k mx ex -> -1021 <= k <= 1022 ->
  SFsmall (k + 1) (binary_round_aux prec emax sx mx ex loc_Exact).
Proof.
  intros [[H0 Hlt] He] Hk. unfold binary_round_aux.
  pose proof (@shr_fexp_spec mx ex loc_Exact H0) as Hs1. cbv zeta in Hs1.
  destruct (shr_fexp prec emax mx ex loc_Exact) as [mrs1 e1].
  cbn [fst snd] in Hs1. destruct Hs1 as [He1 Hm1].
  rewrite <- He1 in Hm1. rewrite fexp_eq in He1.
  assert (Hdx : Zdigits2 mx <= k - ex) by (apply Zdigits2_le; [lia | lia]).
  pose proof (@Zdigits2_lt_pow mx H0) as Hmx.
  assert (Hdx0 : 0 <= Zdigits2 mx) by (destruct mx; simpl; lia).
  destruct (@div_pow2_bound mx (e1 - ex) H0 ltac:(lia)) as [Hq0 Hq].
  rewrite <- Hm1 in Hq0, Hq.
  set (m1 := shr_m mrs1) in *.
  assert (Hm53 : m1 < 2 ^ 53).
  { apply (@lt_pow2_cancel m1 (e1 - ex) 53); try lia.
    assert (2 ^ Zdigits2 mx <= 2 ^ (53 + (e1 - ex)))
      by (apply Z.pow_le_mono_r; lia). lia. }
  assert (Hmk : m1 < 2 ^ (k - e1)).
  { apply (@lt_pow2_cancel m1 (e1 - ex) (k - e1)); try lia.
    replace (k - e1 + (e1 - ex)) with (k - ex) by lia. lia. }
  pose proof (round_nearest_even_bounds m1 (loc_of_shr_record mrs1)) as Hr.
  set (m2 := round_nearest_even m1 (loc_of_shr_record mrs1)) in *.
  assert (H20 : 0 <= m2) by lia.
  pose proof (@shr_fexp_spec m2 e1 loc_Exact H20) as Hs2. cbv zeta in Hs2.
  destruct (shr_fexp prec emax m2 e1 loc_Exact) as [mrs2 e2].
  cbn [fst snd] in Hs2. destruct Hs2 as [He2 Hm2].
  rewrite <- He2 in Hm2. rewrite fexp_eq in He2.
  assert (Hd2 : Zdigits2 m2 <= 54).
  { apply Zdigits2_le; [|lia]. change (2 ^ 54) with (2 * 2 ^ 53). lia. }
  assert (Hd20 : 0 <= Zdigits2 m2) by (destruct m2; simpl; lia).
  destruct (@div_pow2_bound m2 (e2 - e1) H20 ltac:(lia)) as [Hq20 Hq2].
  rewrite <- Hm2 in Hq20, Hq2.
  destruct (shr_m mrs2) as [|m|m] eqn:Hm; [exact I | | lia].
  assert (Hle : (e2 <=? emax - prec) = true)
    by (apply Z.leb_le; change (emax - prec) with 971; lia).
  rewrite Hle. simpl. split; [|lia]. split; [lia|].
  apply (@lt_pow2_cancel (Z.pos m) (e2 - e1) (k + 1 - e2)); try lia.
  replace (k + 1 - e2 + (e2 - e1)) with (1 + (k - e1)) by lia.
  rewrite Z.pow_add_r by lia. change (2 ^ 1) with 2. lia.
Qed.

Lemma iter_xO_spec (m d : positive) :
  Z.pos (Pos.iter xO m d) = Z.pos m * 2 ^ Z.pos d.
Proof.
  induction d as [|d IH] using Pos.peano_ind.
  - simpl. lia.
  - rewrite Pos.iter_succ, Pos2Z.inj_xO, IH, Pos2Z.inj_succ,
      Z.pow_succ_r by lia. ring.
Qed.

Lemma shl_align_spec mx ex ex' :
  let r := shl_align mx ex ex' in
  snd r <= ex /\ Z.pos (fst r) = Z.pos mx * 2 ^ (ex - snd r).
Proof.
  unfold shl_align. destruct (ex' - ex) as [|d|d] eqn:Hd; cbn [fst snd].
  - rewrite Z.sub_diag. simpl. lia.
  - rewrite Z.sub_diag. simpl. lia.
  - split; [lia|]. rewrite iter_xO_spec. f_equal. f_equal. lia.
Qed.

Lemma fits_shl_align k mx ex ex' :
  fits k (Z.pos mx) ex ->
  fits k (Z.pos (fst (shl_align mx ex ex'))) (snd (shl_align mx ex ex')).
Proof.
  intros [[H0 Hlt] He].
  destruct (shl_align_spec mx ex ex') as [Hle Heq].
  set (r := shl_align mx ex ex') in *. rewrite Heq.
  split; [split; [lia|] | lia].
  replace (k - snd r) with ((k - ex) + (ex - snd r)) by lia.
  rewrite Z.pow_add_r by lia.
  assert (0 < 2 ^ (ex - snd r)) by (apply Z.pow_pos_nonneg; lia). nia.
Qed.

Lemma binary_round_small sx mx ex k :
  fits k (Z.pos mx) ex -> -1021 <= k <= 1022 ->
  SFsmall (k + 1) (binary_round prec emax sx mx ex).
Proof.
  intros Hfit Hk. unfold binary_round.
  pose proof (@fits_shl_align k mx ex
                (fexp prec emax (Z.pos (digits2_pos mx) + ex)) Hfit) as Hal.
  destruct (shl_align mx ex _) as [mz ez]. cbn [fst snd] in Hal.
  now apply binary_round_aux_small.
Qed.

Lemma binary_normalize_small m e k szero :
  fits k (Z.abs m) e -> -1021 <= k <= 1022 ->
  SFsmall (k + 1) (binary_normalize prec emax m e szero).
Proof.
  intros Hfit Hk. destruct m as [|p|p]; simpl in *;
    [exact I | now apply binary_round_small | now apply binary_round_small].
Qed.

(** The sum of two mantissas that fit [k], aligned at the lower exponent,
    fits [k + 1]. *)
Lemma fits_aligned_sum k sx mx ex sy my ey (op : Z -> Z -> Z) :
  (forall a c, Z.abs (op a c) <= Z.abs a + Z.abs c) ->
  fits k (Z.pos mx) ex -> fits k (Z.pos my) ey ->
  let ez := Z.min ex ey in
  fits (k + 1)
    (Z.abs (op (cond_Zopp sx (Z.pos (fst (shl_align mx ex ez))))
               (cond_Zopp sy (Z.pos (fst (shl_align my ey ez))))))
    ez.
Proof.
  intros Hop Hx Hy ez.
  pose proof (@fits_shl_align k mx ex ez Hx) as Hax.
  pose proof (@fits_shl_align k my ey ez Hy) as Hay.
  assert (Hsx : snd (shl_align mx ex ez) = ez).
  { unfold shl_align. destruct (ez - ex) eqn:Hd; cbn [snd]; lia. }
  assert (Hsy : snd (shl_align my ey ez) = ez).
  { unfold shl_align. destruct (ez - ey) eqn:Hd; cbn [snd]; lia. }
  rewrite Hsx in Hax. rewrite Hsy in Hay.
  destruct Hax as [[_ Hltx] Hex]. destruct Hay as [[_ Hlty] Hey].
  set (ax := Z.pos (fst (shl_align mx ex ez))) in *.
  set (ay := Z.pos (fst (shl_align my ey ez))) in *.
  split; [split; [lia|] | lia].
  specialize (Hop (cond_Zopp sx ax) (cond_Zopp sy ay)).
  assert (Z.abs (cond_Zopp sx ax) = ax) by (destruct sx; simpl; lia).
  assert (Z.abs (cond_Zopp sy ay) = ay) by (destruct sy; simpl; lia).
  replace (k + 1 - ez) with (1 + (k - ez)) by lia.
  rewrite Z.pow_add_r by lia. change (2 ^ 1) with 2. lia.
Qed.

Lemma SFadd_small k x y :
  SFsmall k x -> SFsmall k y -> -1021 <= k <= 1021 ->
  SFsmall (k + 2) (SF64add x y).
Proof.
  intros Hx Hy Hk.
  destruct x as [sx|sx| |sx mx ex], y as [sy|sy| |sy my ey];
    simpl in Hx, Hy; try contradiction.
  - simpl. now destruct sx, sy.
  - simpl. apply fits_mono with k; [lia | assumption].
  - simpl. apply fits_mono with k; [lia | assumption].
  - unfold SF64add, SFadd.
    replace (k + 2) with ((k + 1) + 1) by lia.
    apply binary_normalize_small; [|lia].
    apply (@fits_aligned_sum k sx mx ex sy my ey Z.add); auto. intros; lia.
Qed.

Lemma SFsub_small k x y :
  SFsmall k x -> SFsmall k y -> -1021 <= k <= 1021 ->
  SFsmall (k + 2) (SF64sub x y).
Proof.
  intros Hx Hy Hk.
  destruct x as [sx|sx| |sx mx ex], y as [sy|sy| |sy my ey];
    simpl in Hx, Hy; try contradiction.
  - simpl. now destruct sx, sy.
  - simpl. apply fits_mono with k; [lia | assumption].
  - simpl. apply fits_mono with k; [lia | assumption].
  - unfold SF64sub, SFsub.
    replace (k + 2) with ((k + 1) + 1) by lia.
    apply binary_normalize_small; [|lia].
    apply (@fits_aligned_sum k sx mx ex sy my ey Z.sub); auto. intros; lia.
Qed.

Lemma SFmul_small kx ky x y :
  SFsmall kx x -> SFsmall ky y -> -1021 <= kx + ky <= 1022 ->
  SFsmall (kx + ky + 1) (SF64mul x y).
Proof.
  intros Hx Hy Hk.
  destruct x as [sx|sx| |sx mx ex], y as [sy|sy| |sy my ey];
    simpl in Hx, Hy; try contradiction; try exact I.
  unfold SF64mul, SFmul. apply binary_round_aux_small; [|assumption].
  destruct Hx as [[_ Hltx] Hex]. destruct Hy as [[_ Hlty] Hey].
  split; [split; [lia|] | lia].
  rewrite Pos2Z.inj_mul.
  replace (kx + ky - (ex + ey)) with ((kx - ex) + (ky - ey)) by lia.
  rewrite Z.pow_add_r by lia. nia.
Qed.

Lemma SFopp_small k x : SFsmall k x -> SFsmall k (SFopp x).
Proof. destruct x; simpl; auto. Qed.

(** *** On the primitive numbers *)

Lemma small_add k x y :
  small k x -> small k y -> -1021 <= k <= 1021 -> small (k + 2) (x + y)%float.
Proof. unfold small. rewrite FloatAxioms.add_spec. apply SFadd_small. Qed.

Lemma small_sub k x y :
  small k x -> small k y -> -1021 <= k <= 1021 -> small (k + 2) (x - y)%float.
Proof. unfold small. rewrite FloatAxioms.sub_spec. apply SFsub_small. Qed.

Lemma small_mul kx ky x y :
  small kx x -> small ky y -> -1021 <= kx + ky <= 1022 ->
  small (kx + ky + 1) (x * y)%float.
Proof. unfold small. rewrite FloatAxioms.mul_spec. apply SFmul_small. Qed.

Lemma small_opp k x : small k x -> small k (- x)%float.
Proof. unfold small. rewrite FloatAxioms.opp_spec. apply SFopp_small. Qed.

Lemma small_mono k k' x : k <= k' -> small k x -> small k' x.
Proof. unfold small. apply SFsmall_mono. Qed.

Lemma small_of_uint63 n : small 64 (of_uint63 n).
Proof.
  unfold small. rewrite FloatAxioms.of_uint63_spec.
  apply (@binary_normalize_small (Uint63.to_Z n) 0 63 false); [|lia].
  pose proof (Uint63.to_Z_bounded n) as Hb.
  split; [|lia]. rewrite Z.abs_eq by lia. split; [lia|].
  change (2 ^ (63 - 0)) with Uint63.wB. lia.
Qed.

Lemma small_is_finite k x : small k x -> is_finite x = true.
Proof.
  unfold small, is_finite, is_nan, is_infinity.
  rewrite !FloatAxioms.eqb_spec, FloatAxioms.abs_spec.
  change (Prim2SF infinity) with (S754_infinity false).
  destruct (Prim2SF x) as [s|s| |s m e]; simpl; try contradiction.
  - reflexivity.
  - intros _. unfold SFeqb. simpl. rewrite Z.compare_refl.
    change (Pos.compare_cont Eq m m) with (Pos.compare m m).
    rewrite Pos.compare_refl. now destruct s.
Qed.

End Magnitudes.

Section EvaluatorBounds.
Local Open Scope Z_scope.

Lemma smallb_small k x : smallb k x = true -> small k x.
Proof.
  unfold smallb, small. destruct (Prim2SF x) as [s|s| |s m e]; simpl;
    try discriminate; auto.
  intros H. apply andb_true_iff in H. destruct H as [H1 H2].
  apply Z.ltb_lt in H1. apply Z.leb_le in H2. unfold fits. lia.
Qed.

Lemma small_zero k : small k 0%float.
Proof. exact I. Qed.

Lemma fold_left_small (A : Type) (f : float -> A -> float) (d lo K : Z)
    (l : list A) :
  (forall k s a, In a l -> lo <= k -> k + d <= K ->
                 small k s -> small (k + d) (f s a)) ->
  0 <= d ->
  forall s k k', lo <= k -> k + d * Z.of_nat (List.length l) <= k' -> k' <= K ->
    small k s -> small k' (fold_left f l s).
Proof.
  intros Hstep Hd. induction l as [|a l IH]; intros s k k' Hlo Hk Hk' Hs.
  - simpl in *. apply small_mono with k; [lia | assumption].
  - cbn [fold_left]. cbn [List.length] in Hk. rewrite Nat2Z.inj_succ in Hk.
    apply IH with (k := k + d).
    + intros k0 s0 a0 Hin. apply Hstep. now right.
    + lia.
    + lia.
    + assumption.
    + apply Hstep; [now left | lia | nia | assumption].
Qed.

Lemma In_pieces12 p : In p pieces12.
Proof. destruct p as [[] []]; simpl; tauto. Qed.

Lemma getPieceValue_small p i j :
  In i range8 -> In j range8 -> small 15 (getPieceValue p i j).
Proof.
  intros Hi Hj. apply smallb_small.
  assert (H : forallb (fun p => forallb (fun i => forallb (fun j =>
                 smallb 15 (getPieceValue p i j)) range8) range8) pieces12
              = true) by (vm_compute; reflexivity).
  rewrite forallb_forall in H. specialize (H p (In_pieces12 p)).
  rewrite forallb_forall in H. specialize (H i Hi).
  rewrite forallb_forall in H. exact (H j Hj).
Qed.

Lemma material_small (board : Board) :
  small 143
    (fold_left
       (fun score i =>
          fold_left
            (fun score j =>
               match square board i j with
               | Some piece =>
                   let pieceValue := getPieceValue piece i j in
                   (score + match color piece with
                            | Black => pieceValue
                            | White => - pieceValue
                            end)%float
               | None => score
               end)
            range8 score)
       range8 0%float).
Proof.
  apply (@fold_left_small Z _ 16 15 1023 range8) with (k := 15);
    [| lia | lia | simpl; lia | lia | apply small_zero].
  intros k s i Hi Hlo Hk Hs.
  apply (@fold_left_small Z _ 2 15 1023 range8) with (k := k);
    [| lia | lia | simpl; lia | lia | assumption].
  intros k0 s0 j Hj Hlo0 Hk0 Hs0.
  destruct (square board i j) as [p|].
  - cbv zeta. apply small_add; [assumption | | lia].
    apply small_mono with 15; [lia|].
    destruct (color p); [apply small_opp|]; now apply getPieceValue_small.
  - apply small_mono with k0; [lia | assumption].
Qed.

Lemma mobility_small (n : nat) : small 62 (JS.of_nat n * JS.tenth)%float.
Proof.
  apply (@small_mul 64 (-3)); [apply small_of_uint63 | | lia].
  apply smallb_small. vm_compute. reflexivity.
Qed.

Lemma evaluateKingSafety_small board c : small 10 (evaluateKingSafety board c).
Proof.
  unfold evaluateKingSafety. cbv zeta.
  destruct (findKing board c) as [[row col]|]; [|apply small_zero].
  match goal with |- context [if ?b then _ else _] => destruct b end;
    [|apply small_zero].
  apply (@fold_left_small Z _ 2 4 1023 _) with (k := 4);
    [| lia | lia | simpl; lia | lia | apply small_zero].
  intros k s off _ Hlo Hk Hs. cbv zeta.
  assert (Hadd : small (k + 2) (s + 10)%float).
  { apply small_add; [assumption | | lia].
    apply small_mono with 4; [lia|]. apply smallb_small. vm_compute. reflexivity. }
  assert (Hsame : small (k + 2) s) by (apply small_mono with k; [lia | assumption]).
  repeat match goal with |- context [if ?b then _ else _] => destruct b end;
    assumption.
Qed.

Lemma pawnsInCol_small board c col :
  small 17
    (fold_left
       (fun pawnsInCol row =>
          if is_piece Pawn c (square board row col)
          then (pawnsInCol + 1)%float else pawnsInCol)
       range8 0%float).
Proof.
  apply (@fold_left_small Z _ 2 1 1023 _) with (k := 1);
    [| lia | lia | simpl; lia | lia | apply small_zero].
  intros k s row _ Hlo Hk Hs.
  destruct (is_piece Pawn c (square board row col)).
  - apply small_add; [assumption | | lia].
    apply small_mono with 1; [lia|]. apply smallb_small. vm_compute. reflexivity.
  - apply small_mono with k; [lia | assumption].
Qed.

Lemma evaluatePawnStructure_small board c :
  small 56 (evaluatePawnStructure board c).
Proof.
  unfold evaluatePawnStructure.
  apply (@fold_left_small Z _ 4 24 1023 _) with (k := 24);
    [| lia | lia | simpl; lia | lia | apply small_zero].
  intros k s col _ Hlo Hk Hs. cbv zeta.
  pose proof (pawnsInCol_small board c col) as Hp.
  set (pawnsInCol := fold_left _ range8 0%float) in *.
  set (has := fold_left _ [col - 1; col + 1] false).
  assert (Hd : small (k + 2)
                 (if JS.gt pawnsInCol 1 then s - 10 * (pawnsInCol - 1) else s)%float).
  { destruct (JS.gt pawnsInCol 1).
    - apply small_sub; [assumption | | lia].
      apply small_mono with 24; [lia|].
      apply (@small_mul 4 19); [| | lia].
      + apply smallb_small. vm_compute. reflexivity.
      + apply (@small_sub 17); [assumption | | lia].
        apply smallb_small. vm_compute. reflexivity.
    - apply small_mono with k; [lia | assumption]. }
  destruct (JS.gt pawnsInCol 0 && negb has).
  - replace (k + 4) with (k + 2 + 2) by lia.
    apply small_sub; [assumption | | lia].
    apply small_mono with 4; [lia|]. apply smallb_small. vm_compute. reflexivity.
  - apply small_mono with (k + 2); [lia | assumption].
Qed.

End EvaluatorBounds.

Section EvaluatorFinite.
Context {G : Type} {E : RulesEngine G}.
Local Open Scope Z_scope.

Lemma evaluatePosition_small (g : G) : small 149 (evaluatePosition g).
Proof.
  unfold evaluatePosition.
  destruct (in_checkmate g).
  { destruct (game_turn g); apply smallb_small; vm_compute; reflexivity. }
  destruct (_ || _); [apply small_zero|]. cbv zeta.
  pose proof (material_small (game_board g)) as Hm.
  set (material := fold_left _ range8 0%float) in *.
  pose proof (mobility_small (List.length (game_moves g))) as Hmob.
  set (mob := (JS.of_nat _ * JS.tenth)%float) in *.
  assert (H1 : small 145 (match game_turn g with
                          | Black => material + mob
                          | White => material - mob
                          end)%float).
  { destruct (game_turn g);
      [apply (@small_sub 143) | apply (@small_add 143)];
      try assumption; try lia; apply small_mono with 62; (lia || assumption). }
  set (s1 := match game_turn g with Black => _ | White => _ end) in *.
  assert (H2 : small 147
                 (s1 + (evaluateKingSafety (game_board g) Black
                        - evaluateKingSafety (game_board g) White))%float).
  { apply (@small_add 145); [assumption | | lia].
    apply small_mono with 12; [lia|].
    apply (@small_sub 10); [apply evaluateKingSafety_small .. | lia]. }
  apply (@small_add 147); [assumption | | lia].
  apply small_mono with 58; [lia|].
  apply (@small_sub 56); [apply evaluatePawnStructure_small .. | lia].
Qed.

(** [evaluatePosition] never returns NaN or an infinity. *)
Lemma evaluatePosition_is_finite (g : G) : is_finite (evaluatePosition g) = true.
Proof. apply small_is_finite with 149. apply evaluatePosition_small. Qed.

End EvaluatorFinite.
(** ** Rounding to nearest, and the index [Math.floor(r * n)]

    The product of a draw [r] of the interval [0, 1) with a length [n] is
    rounded to the nearest binary64 value before [Math.floor] is taken. The
    rounding is followed through the definition of the binary64
    multiplication ([SpecFloat]): the index stays inside the array, and it
    differs from the floor of the exact product only for the draws within a
    relative distance of [2 ^ -53] below a multiple of [1 / n]. *)

Section RoundingToNearest.
Local Open Scope Z_scope.

Lemma shr_1_r mrs : 0 <= shr_m mrs -> shr_r (shr_1 mrs) = Z.odd (shr_m mrs).
Proof.
  destruct mrs as [m r s]. simpl. intros Hm.
  destruct m as [|[p|p|]|p]; cbn [shr_r]; try lia; reflexivity.
Qed.

Lemma iter_shr_1_nonneg p mrs :
  0 <= shr_m mrs -> 0 <= shr_m (SpecFloat.iter_pos shr_1 p mrs).
Proof.
  intros H. rewrite iter_shr_1_spec by assumption.
  apply Z.div_pos; [assumption | now apply Z.pow_pos_nonneg].
Qed.

(** The round bit after a shift by [p]: the bit [p - 1] of the mantissa. *)
Lemma iter_shr_1_r p : forall mrs,
  0 <= shr_m mrs ->
  shr_r (SpecFloat.iter_pos shr_1 p mrs) = Z.odd (shr_m mrs / 2 ^ (Z.pos p - 1)).
Proof.
  induction p as [p IH | p IH | ]; intros mrs Hm; simpl SpecFloat.iter_pos.
  - assert (H1 : 0 <= shr_m (shr_1 mrs))
      by (rewrite shr_1_spec by assumption; apply Z.div_pos; lia).
    rewrite IH by now apply iter_shr_1_nonneg.
    rewrite iter_shr_1_spec, shr_1_spec by assumption.
    rewrite !Z.div_div by (try apply Z.pow_pos_nonneg; lia).
    f_equal. f_equal.
    replace (Z.pos p~1 - 1) with (1 + (Z.pos p + (Z.pos p - 1))) by lia.
    rewrite !Z.pow_add_r by lia. change (2 ^ 1) with 2. ring.
  - rewrite IH by now apply iter_shr_1_nonneg.
    rewrite iter_shr_1_spec by assumption.
    rewrite !Z.div_div by (try apply Z.pow_pos_nonneg; lia).
    f_equal. f_equal.
    replace (Z.pos p~0 - 1) with (Z.pos p + (Z.pos p - 1)) by lia.
    rewrite !Z.pow_add_r by lia. ring.
  - rewrite shr_1_r by assumption. simpl. now rewrite Z.div_1_r.
Qed.

Lemma round_up_r mrs :
  round_nearest_even (shr_m mrs) (loc_of_shr_record mrs) <> shr_m mrs ->
  shr_r mrs = true.
Proof.
  destruct mrs as [m [|] [|]]; simpl; intros H; congruence.
Qed.

(** An odd quotient by [2 ^ (p - 1)]: the remainder of the division by
    [2 ^ p] is at least one half of it. *)
Lemma odd_quotient m p :
  0 <= m -> 1 <= p -> Z.odd (m / 2 ^ (p - 1)) = true ->
  (2 * (m / 2 ^ p) + 1) * 2 ^ p <= 2 * m.
Proof.
  intros Hm Hp Hodd.
  assert (Hpow : 0 < 2 ^ (p - 1)) by (apply Z.pow_pos_nonneg; lia).
  assert (Hp2 : 2 ^ p = 2 ^ (p - 1) * 2).
  { replace p with ((p - 1) + 1) at 1 by lia.
    rewrite Z.pow_add_r by lia. reflexivity. }
  assert (Hq : m / 2 ^ p = m / 2 ^ (p - 1) / 2)
    by (rewrite Hp2, Z.div_div by lia; reflexivity).
  rewrite Z.odd_spec in Hodd || apply Z.odd_spec in Hodd.
  destruct Hodd as [k Hk].
  assert (Hk2 : m / 2 ^ (p - 1) / 2 = k).
  { rewrite Hk. symmetry. apply Z.div_unique with (r := 1); lia. }
  pose proof (Z.mul_div_le m (2 ^ (p - 1)) Hpow) as Hle.
  rewrite Hq, Hk2, Hp2. rewrite Hk in Hle. nia.
Qed.

(** The first step of a rounding: the mantissa is shifted to the exponent
    of the result, and rounded to the nearest. *)
Lemma shr_fexp_round m e :
  0 <= m ->
  let e1 := Z.max e (fexp prec emax (Zdigits2 m + e)) in
  let mrs := fst (shr_fexp prec emax m e loc_Exact) in
  let m1 := m / 2 ^ (e1 - e) in
  let m2 := round_nearest_even (shr_m mrs) (loc_of_shr_record mrs) in
  snd (shr_fexp prec emax m e loc_Exact) = e1
  /\ m1 <= m2 <= m1 + 1
  /\ (m2 <> m1 -> e < e1 /\ (2 * m1 + 1) * 2 ^ (e1 - e) <= 2 * m)
  /\ (e1 = e -> m2 = m).
Proof.
  intros Hm e1 mrs m1 m2.
  pose proof (@shr_fexp_spec m e loc_Exact Hm) as Hs. cbv zeta in Hs.
  destruct Hs as [He Hm1]. fold e1 in He, Hm1. fold mrs in Hm1. fold m1 in Hm1.
  pose proof (round_nearest_even_bounds (shr_m mrs) (loc_of_shr_record mrs)) as Hb.
  fold m2 in Hb. rewrite Hm1 in Hb.
  split; [exact He|]. split; [exact Hb|].
  assert (Hcase : (e1 = e /\ m2 = m)
                  \/ (e < e1 /\ shr_r mrs = Z.odd (m / 2 ^ (e1 - e - 1)))).
  { subst m2 mrs. unfold shr_fexp, shr. unfold e1.
    destruct (fexp prec emax (Zdigits2 m + e) - e) as [|p|p] eqn:Hn; cbn [fst].
    - left. split; [lia | reflexivity].
    - right. split; [lia|].
      rewrite iter_shr_1_r by (cbn [shr_record_of_loc shr_m]; assumption).
      cbn [shr_record_of_loc shr_m]. f_equal. f_equal. f_equal. lia.
    - left. split; [lia | reflexivity]. }
  split.
  - intros Hne. destruct Hcase as [[He1e Heq] | [Hlt Hr]].
    + exfalso. apply Hne. subst m1. rewrite Heq.
      replace (e1 - e) with 0 by lia. simpl.
      now rewrite Z.div_1_r.
    + split; [exact Hlt|]. apply odd_quotient; [assumption | lia |].
      rewrite <- Hr. apply round_up_r. fold m2. rewrite Hm1. exact Hne.
  - intros Heq. destruct Hcase as [[_ H] | [Hlt _]]; [exact H | lia].
Qed.

(** The rounding of [M * 2 ^ e], for a mantissa [M > 0]: the mantissa [m2]
    at the exponent [e1] of the result is the quotient [M / 2 ^ (e1 - e)] or
    the next integer, and it is the next integer only from the half of the
    interval on. *)
Lemma binary_round_aux_nearest (M e : Z) :
  0 < M ->
  let e1 := Z.max e (fexp prec emax (Zdigits2 M + e)) in
  let m1 := M / 2 ^ (e1 - e) in
  e1 + 1 <= 971 ->
  exists m2,
    m1 <= m2 <= m1 + 1
    /\ m2 <= 2 ^ 53
    /\ (m2 <> m1 -> e < e1 /\ (2 * m1 + 1) * 2 ^ (e1 - e) <= 2 * M)
    /\ (e1 = e -> m2 = M)
    /\ (e < e1 -> 2 ^ 52 <= m1 \/ e1 = -1074)
    /\ match binary_round_aux prec emax false M e loc_Exact with
       | S754_zero false => m2 = 0
       | S754_finite false m3 e3 =>
           (e3 = e1 /\ Z.pos m3 = m2)
           \/ (e3 = e1 + 1 /\ m2 = 2 ^ 53 /\ Z.pos m3 = 2 ^ 52)
       | _ => False
       end.
Proof.
  intros HM e1 m1 Hmax.
  assert (H0 : 0 <= M) by lia.
  pose proof (@shr_fexp_round M e H0) as Hs. cbv zeta in Hs.
  fold e1 in Hs. fold m1 in Hs.
  unfold binary_round_aux.
  destruct (shr_fexp prec emax M e loc_Exact) as [mrs1 e1'].
  cbn [fst snd] in Hs. destruct Hs as (He1 & Hb & Hup & Hex). subst e1'.
  set (m2 := round_nearest_even (shr_m mrs1) (loc_of_shr_record mrs1)) in *.
  exists m2.
  assert (Hd0 : 0 < Zdigits2 M) by (destruct M; simpl; lia).
  pose proof (@Zdigits2_lt_pow M H0) as HMup.
  assert (HMlow : 2 ^ (Zdigits2 M - 1) <= M).
  { destruct M as [|p|p]; try lia. simpl. apply digits2_pos_lower. }
  assert (Hfe : fexp prec emax (Zdigits2 M + e)
                = Z.max (Zdigits2 M + e - 53) (-1074)) by apply fexp_eq.
  assert (Hsh : 0 <= e1 - e) by (unfold e1; lia).
  assert (Hp : 0 < 2 ^ (e1 - e)) by (apply Z.pow_pos_nonneg; lia).
  assert (Hm1 : 0 <= m1 < 2 ^ 53).
  { split; [apply Z.div_pos; lia|].
    apply Z.div_lt_upper_bound; [lia|].
    rewrite <- Z.pow_add_r by lia.
    assert (2 ^ Zdigits2 M <= 2 ^ (e1 - e + 53))
      by (apply Z.pow_le_mono_r; unfold e1; lia).
    lia. }
  assert (Hnorm : e < e1 -> 2 ^ 52 <= m1 \/ e1 = -1074).
  { intros Hlt.
    destruct (Z.eq_dec e1 (-1074)) as [|Hne]; [now right | left].
    assert (He1 : e1 - e = Zdigits2 M - 53) by (unfold e1 in *; lia).
    apply Z.div_le_lower_bound; [lia|].
    rewrite Z.mul_comm, <- Z.pow_add_r by lia.
    replace (52 + (e1 - e)) with (Zdigits2 M - 1) by lia. exact HMlow. }
  split; [exact Hb|]. split; [lia|]. split; [exact Hup|].
  split; [exact Hex|]. split; [exact Hnorm|].
  assert (H20 : 0 <= m2) by lia.
  pose proof (@shr_fexp_spec m2 e1 loc_Exact H20) as Hs2. cbv zeta in Hs2.
  destruct (shr_fexp prec emax m2 e1 loc_Exact) as [mrs2 e2].
  cbn [fst snd] in Hs2. destruct Hs2 as [He2 Hm2].
  rewrite <- He2 in Hm2. rewrite fexp_eq in He2.
  assert (He1low : -1074 <= e1) by (unfold e1; lia).
  destruct (Z_lt_le_dec m2 (2 ^ 53)) as [Hlt | Hge].
  - assert (Hd2 : Zdigits2 m2 <= 53) by (apply Zdigits2_le; lia).
    assert (Hd20 : 0 <= Zdigits2 m2) by (destruct m2; simpl; lia).
    assert (He21 : e2 = e1) by lia. clear He2. subst e2.
    rewrite Z.sub_diag in Hm2. simpl in Hm2. rewrite Z.div_1_r in Hm2.
    rewrite Hm2. destruct m2 as [|p|p]; [reflexivity | | lia].
    replace (e1 <=? emax - prec) with true
      by (symmetry; apply Z.leb_le; change (emax - prec) with 971; lia).
    left. split; reflexivity.
  - assert (Heq : m2 = 2 ^ 53) by lia.
    assert (He : e2 = e1 + 1) by (rewrite Heq in He2; change (Zdigits2 (2 ^ 53)) with 54 in He2; lia).
    clear He2. subst e2. rewrite Hm2, Heq.
    replace (e1 + 1 - e1) with 1 by lia.
    change (2 ^ 53 / 2 ^ 1) with (Z.pos (2 ^ 52)).
    replace (e1 + 1 <=? emax - prec) with true
      by (symmetry; apply Z.leb_le; change (emax - prec) with 971; lia).
    right. repeat split.
Qed.

Lemma shiftl_neg_exp m E : 0 <= E -> Z.shiftl m (- E) = m / 2 ^ E.
Proof.
  intros HE. rewrite Z.shiftl_opp_r. now apply Z.shiftr_div_pow2.
Qed.

(** The rounding of a number [M * 2 ^ e] below [2 ^ 53], with [e <= 0],
    against the integers [k]: the rounded number [Rm / 2 ^ E] is not below
    an integer that the number is not below, and it reaches an integer
    [k >= 1] only from [k * (1 - 2 ^ -53)] on. *)
Lemma round_thresholds (M e : Z) :
  0 < M -> e <= 0 -> M < 2 ^ (53 - e) ->
  exists E Rm,
    0 <= E /\ 0 <= Rm
    /\ JS.SFfloor (binary_round_aux prec emax false M e loc_Exact) = Rm / 2 ^ E
    /\ (forall k, k * 2 ^ (- e) <= M -> k * 2 ^ E <= Rm)
    /\ (forall k, 1 <= k -> k * 2 ^ E <= Rm ->
                  k * (2 ^ 53 - 1) * 2 ^ (- e) < M * 2 ^ 53).
Proof.
  intros HM He HMlt.
  assert (Hd : Zdigits2 M <= 53 - e) by (apply Zdigits2_le; lia).
  assert (Hd0 : 0 < Zdigits2 M) by (destruct M; simpl; lia).
  pose proof (fexp_eq (Zdigits2 M + e)) as Hfe.
  destruct (@binary_round_aux_nearest M e HM) as (m2 & Hb & H253 & Hup & Hex & Hnorm & Hres);
    [lia|].
  set (e1 := Z.max e (fexp prec emax (Zdigits2 M + e))) in *.
  set (m1 := M / 2 ^ (e1 - e)) in *.
  assert (He1 : e <= e1 <= 0) by (unfold e1; lia).
  assert (He1low : -1074 <= e1) by (unfold e1; lia).
  set (s := e1 - e) in *. set (E := - e1).
  assert (Hs : 0 <= s) by (unfold s; lia).
  assert (HE : 0 <= E) by (unfold E; lia).
  assert (HpS : 0 < 2 ^ s) by (apply Z.pow_pos_nonneg; lia).
  assert (HpE : 0 < 2 ^ E) by (apply Z.pow_pos_nonneg; lia).
  assert (Hsplit : 2 ^ (- e) = 2 ^ E * 2 ^ s).
  { rewrite <- Z.pow_add_r by lia. f_equal. unfold E, s. lia. }
  assert (Hm1 : 0 <= m1 /\ m1 * 2 ^ s <= M).
  { split; [apply Z.div_pos; lia|]. rewrite Z.mul_comm. apply Z.mul_div_le. lia. }
  exists E, m2. split; [exact HE|]. split; [lia|]. split; [|split].
  - destruct (binary_round_aux prec emax false M e loc_Exact) as [[|]|[|]| |[|] m3 e3];
      try contradiction.
    + subst m2. simpl. symmetry. apply Z.div_0_l. lia.
    + destruct Hres as [[-> <-] | (-> & H2 & Hm3)]; cbn [JS.SFfloor].
      * replace e1 with (- E) by (unfold E; lia). now apply shiftl_neg_exp.
      * rewrite Hm3, H2. replace (e1 + 1) with (1 + e1) by lia.
        rewrite <- Z.shiftl_shiftl by lia.
        change (Z.shiftl (2 ^ 52) 1) with (2 ^ 53).
        replace e1 with (- E) by (unfold E; lia). now apply shiftl_neg_exp.
  - intros k Hk. rewrite Hsplit in Hk.
    assert (k * 2 ^ E <= m1); [|lia].
    apply Z.div_le_lower_bound; [lia|]. lia.
  - intros k Hk1 Hk. rewrite Hsplit.
    set (K := k * 2 ^ E) in *.
    assert (HK1 : 1 <= K) by (unfold K; nia).
    replace (k * (2 ^ 53 - 1) * (2 ^ E * 2 ^ s)) with (K * 2 ^ s * (2 ^ 53 - 1))
      by (unfold K; ring).
    destruct (Z_le_gt_dec K m1) as [Hle | Hgt].
    + assert (K * 2 ^ s <= M) by nia.
      assert (0 < K * 2 ^ s) by nia. lia.
    + assert (Hne : m2 <> m1) by lia.
      destruct (Hup Hne) as [Hlt Hhalf].
      assert (HKm : K = m1 + 1) by lia.
      destruct (Hnorm Hlt) as [Hn | Hsub].
      * (* 2 * M >= (2 * K - 1) * 2 ^ s with K > 2 ^ 52 *)
        assert (H1 : (2 * K - 1) * 2 ^ s <= 2 * M)
          by (replace (2 * K - 1) with (2 * m1 + 1) by lia; exact Hhalf).
        assert (H2 : 2 * K * (2 ^ 53 - 1) < (2 * K - 1) * 2 ^ 53) by lia.
        assert (H3 : 2 * K * (2 ^ 53 - 1) * 2 ^ s < (2 * K - 1) * 2 ^ 53 * 2 ^ s)
          by (apply Z.mul_lt_mono_pos_r; assumption).
        assert (H4 : (2 * K - 1) * 2 ^ s * 2 ^ 53 <= 2 * M * 2 ^ 53)
          by (apply Z.mul_le_mono_nonneg_r; lia).
        lia.
      * exfalso. assert (HE' : E = 1074) by (unfold E; lia).
        assert (2 ^ 1074 <= K).
        { unfold K. rewrite HE'. assert (0 < 2 ^ 1074) by reflexivity. nia. }
        assert (2 ^ 53 < 2 ^ 1074) by reflexivity. lia.
Qed.

(** The floor of the product of a number [mx * 2 ^ ex] of the interval
    [0, 1) with an integer [n] below [2 ^ 53]. *)
Lemma SFmul_floor mx ex my ey n :
  Z.pos mx < 2 ^ 53 -> ex <= -53 ->
  ey <= 0 -> Z.pos my = n * 2 ^ (- ey) -> 1 <= n < 2 ^ 53 ->
  let j := JS.SFfloor (SF64mul (S754_finite false mx ex) (S754_finite false my ey)) in
  0 <= j < n
  /\ j * (2 ^ 53 - 1) * 2 ^ (- ex) <= Z.pos mx * n * 2 ^ 53
  /\ Z.pos mx * n < (j + 1) * 2 ^ (- ex).
Proof.
  intros Hmx Hex Hey Hmy Hn. cbv zeta.
  unfold SF64mul, SFmul. cbn [xorb]. rewrite Pos2Z.inj_mul.
  set (M := Z.pos mx * Z.pos my) in *. set (e := ex + ey) in *.
  set (j := JS.SFfloor _).
  set (X := 2 ^ (- ex)). set (Y := 2 ^ (- ey)) in *.
  assert (HX : 2 ^ 53 <= X) by (apply Z.pow_le_mono_r; lia).
  assert (HY : 0 < Y) by (apply Z.pow_pos_nonneg; lia).
  assert (HXY : 2 ^ (- e) = X * Y).
  { unfold X, Y, e. rewrite <- Z.pow_add_r by lia. f_equal. lia. }
  assert (HMn : M = Z.pos mx * n * Y) by (unfold M; rewrite Hmy; ring).
  assert (HM0 : 0 < M) by (unfold M; lia).
  assert (HMlt : M < 2 ^ (53 - e)).
  { replace (53 - e) with (53 + - e) by lia.
    rewrite Z.pow_add_r, HXY by lia. rewrite HMn.
    assert (Z.pos mx * n < 2 ^ 53 * X) by nia. nia. }
  destruct (@round_thresholds M e HM0 ltac:(unfold e; lia) HMlt)
    as (E & Rm & HE & HRm & Hfloor & HF1 & HF2).
  fold j in Hfloor.
  assert (HpE : 0 < 2 ^ E) by (apply Z.pow_pos_nonneg; lia).
  assert (Hj0 : 0 <= j) by (rewrite Hfloor; apply Z.div_pos; lia).
  assert (Hjlo : j * 2 ^ E <= Rm)
    by (rewrite Hfloor, Z.mul_comm; apply Z.mul_div_le; lia).
  assert (Hjhi : Rm < (j + 1) * 2 ^ E).
  { rewrite Hfloor.
    pose proof (Z.mul_succ_div_gt Rm (2 ^ E) HpE) as H. lia. }
  rewrite HXY in HF1, HF2. rewrite HMn in HF1, HF2.
  assert (Hupper : Z.pos mx * n < (j + 1) * X).
  { destruct (Z_lt_le_dec (Z.pos mx * n) ((j + 1) * X)) as [|Hge]; [assumption|].
    exfalso. assert ((j + 1) * 2 ^ E <= Rm); [|lia].
    apply HF1. nia. }
  assert (Hstrict : forall k, 1 <= k -> k * 2 ^ E <= Rm ->
                              k * (2 ^ 53 - 1) * X < Z.pos mx * n * 2 ^ 53).
  { intros k Hk1 Hk. specialize (HF2 k Hk1 Hk).
    apply (Z.mul_lt_mono_pos_r Y); [exact HY|]. nia. }
  split; [split; [exact Hj0|] | split; [|exact Hupper]].
  - destruct (Z_lt_le_dec j n) as [|Hge]; [assumption | exfalso].
    assert (Hk : n * 2 ^ E <= Rm) by nia.
    specialize (Hstrict n ltac:(lia) Hk).
    assert (Z.pos mx * 2 ^ 53 <= (2 ^ 53 - 1) * X) by nia. nia.
  - destruct (Z.eq_dec j 0) as [-> | Hj]; [lia|].
    specialize (Hstrict j ltac:(lia) Hjlo). lia.
Qed.

End RoundingToNearest.

Section FloorIndex.
Local Open Scope Z_scope.

(** The number of a count below [2 ^ 53] is that count. *)
Lemma of_nat_repr (n : nat) :
  1 <= Z.of_nat n < 2 ^ 53 ->
  exists my ey,
    Prim2SF (JS.of_nat n) = S754_finite false my ey
    /\ ey <= 0 /\ Z.pos my = Z.of_nat n * 2 ^ (- ey).
Proof.
  intros Hn. unfold JS.of_nat. rewrite FloatAxioms.of_uint63_spec, Uint63.of_Z_spec.
  rewrite Z.mod_small
    by (split; [lia|]; apply Z.lt_trans with (2 ^ 53); [lia | reflexivity]).
  destruct (Z.of_nat n) as [|p|p] eqn:Hp; try lia.
  unfold binary_normalize, binary_round. rewrite Z.add_0_r.
  pose proof (shl_align_spec p 0 (fexp prec emax (Z.pos (digits2_pos p)))) as Hal.
  cbv zeta in Hal.
  destruct (shl_align p 0 _) as [mz ez] eqn:Hsh. cbn [fst snd] in Hal.
  destruct Hal as [Hez Hmz].
  assert (Hez' : ez = Z.min 0 (fexp prec emax (Z.pos (digits2_pos p)))).
  { unfold shl_align in Hsh.
    destruct (fexp prec emax (Z.pos (digits2_pos p)) - 0) eqn:Hd;
      injection Hsh as _ <-; lia. }
  rewrite fexp_eq in Hez'.
  pose proof (digits2_pos_lower p) as Hlow.
  assert (Hdp : Z.pos (digits2_pos p) <= 53).
  { change (Z.pos (digits2_pos p)) with (Zdigits2 (Z.pos p)).
    apply Zdigits2_le; lia. }
  assert (Hezv : ez = Z.pos (digits2_pos p) - 53) by lia.
  assert (HM : 0 < Z.pos mz) by lia.
  destruct (@binary_round_aux_nearest (Z.pos mz) ez HM)
    as (m2 & Hb & H253 & Hup & Hex & Hnorm & Hres).
  - pose proof (fexp_eq (Zdigits2 (Z.pos mz) + ez)).
    assert (0 < Zdigits2 (Z.pos mz)) by (simpl; lia).
    assert (Zdigits2 (Z.pos mz) <= 53 - ez).
    { apply Zdigits2_le; [|lia]. split; [lia|].
      rewrite Hmz. replace (0 - ez) with (- ez) by lia.
      replace (53 - ez) with (53 + - ez) by lia.
      rewrite Z.pow_add_r by lia.
      assert (0 < 2 ^ (- ez)) by (apply Z.pow_pos_nonneg; lia). nia. }
    lia.
  - assert (Hmzlt : Z.pos mz < 2 ^ 53).
    { rewrite Hmz. replace (0 - ez) with (53 - Z.pos (digits2_pos p)) by lia.
      pose proof (digits2_pos_upper p) as Hupp.
      assert (Hpw : 2 ^ 53 = 2 ^ Z.pos (digits2_pos p) * 2 ^ (53 - Z.pos (digits2_pos p))).
      { rewrite <- Z.pow_add_r by lia. f_equal. lia. }
      rewrite Hpw.
      apply Z.mul_lt_mono_pos_r; [apply Z.pow_pos_nonneg; lia | exact Hupp]. }
    assert (Hd : Zdigits2 (Z.pos mz) <= 53) by (apply Zdigits2_le; lia).
    assert (Hd0 : 0 < Zdigits2 (Z.pos mz)) by (simpl; lia).
    pose proof (fexp_eq (Zdigits2 (Z.pos mz) + ez)) as Hfe.
    assert (He1 : Z.max ez (fexp prec emax (Zdigits2 (Z.pos mz) + ez)) = ez) by lia.
    specialize (Hex He1). subst m2.
    destruct (binary_round_aux prec emax false (Z.pos mz) ez loc_Exact)
      as [[|]|[|]| |[|] m3 e3]; try contradiction; try discriminate.
    rewrite He1 in Hres.
    destruct Hres as [[-> Hm3] | (_ & H2 & _)]; [|lia].
    exists m3, ez. split; [reflexivity|]. split; [lia|].
    rewrite Hm3, Hmz. replace (0 - ez) with (- ez) by lia. reflexivity.
Qed.

Lemma unit_draw_repr r :
  JS.unit_draw r ->
  (exists s, Prim2SF r = S754_zero s)
  \/ (exists mx ex, Prim2SF r = S754_finite false mx ex
                    /\ Z.pos mx < 2 ^ 53 /\ -1074 <= ex <= -53).
Proof.
  intros [H0 H1]. unfold JS.le, JS.lt in *.
  rewrite FloatAxioms.leb_spec in H0. rewrite FloatAxioms.ltb_spec in H1.
  pose proof (Prim2SF_valid r) as V.
  change (Prim2SF 0) with (S754_zero false) in H0.
  change (Prim2SF 1) with (S754_finite false 4503599627370496 (-52)) in H1.
  destruct (Prim2SF r) as [s|s| |s m e]; try discriminate.
  - left. now exists s.
  - destruct s; discriminate.
  - right. destruct s; [discriminate|]. exists m, e. split; [reflexivity|].
    simpl in V. pose proof (JSFacts.bounded_range _ _ V) as [Hm He].
    split; [exact Hm|]. split; [lia|].
    unfold SpecFloat.bounded, canonical_mantissa in V.
    apply andb_true_iff in V. destruct V as [Hc _]. apply Z.eqb_eq in Hc.
    rewrite fexp_eq in Hc.
    unfold SFltb, SFcompare in H1.
    destruct (e ?= -52) eqn:Hcmp; try discriminate.
    + apply Z.compare_eq in Hcmp. exfalso.
      destruct (Pos.compare_cont Eq m 4503599627370496) eqn:Hpc;
        try discriminate.
      assert (Hmlt : (m < 4503599627370496)%positive) by exact Hpc.
      assert (Hd : Z.pos (digits2_pos m) = 53) by (clear - Hc Hcmp; lia).
      pose proof (digits2_pos_lower m) as Hlow. rewrite Hd in Hlow.
      change (2 ^ (53 - 1)) with 4503599627370496 in Hlow.
      apply Pos2Z.pos_lt_pos in Hmlt. clear - Hlow Hmlt. lia.
    + rewrite Z.compare_lt_iff in Hcmp. lia.
Qed.

Lemma Qpow2_neg (e : Z) :
  e <= 0 -> (2 ^ e == / inject_Z (2 ^ (- e)))%Q.
Proof.
  intros He. replace e with (- (- e)) at 1 by lia.
  rewrite Qpower_opp. rewrite Zpower_Qpower by lia. reflexivity.
Qed.

(** The index [Math.floor(r * n)] of a draw [r] of the interval [0, 1),
    for a length [n] below [2 ^ 53]: it is an index of the array, and the
    draws that give the index [j] are those of [j / n, (j + 1) / n), up to
    the rounding of the product. *)
Lemma floor_index_draw (r : float) (n : nat) :
  JS.unit_draw r -> 1 <= Z.of_nat n < 2 ^ 53 ->
  let j := JS.floor_index r n in
  (j < n)%nat
  /\ (inject_Z (Z.of_nat j) * (1 - JS.u) <= JS.to_Q r * inject_Z (Z.of_nat n))%Q
  /\ (JS.to_Q r * inject_Z (Z.of_nat n) < inject_Z (Z.of_nat j + 1))%Q.
Proof.
  intros Hu Hn. cbv zeta.
  destruct (of_nat_repr n Hn) as (my & ey & Hny & Hey & Hmy).
  assert (Hfi : JS.floor_index r n
                = Z.to_nat (JS.SFfloor (SF64mul (Prim2SF r) (S754_finite false my ey)))).
  { unfold JS.floor_index, JS.Math_floor.
    now rewrite FloatAxioms.mul_spec, Hny. }
  rewrite Hfi. clear Hfi. unfold JS.to_Q.
  destruct (unit_draw_repr Hu) as [[s Hr] | (mx & ex & Hr & Hmx & Hex)];
    rewrite Hr.
  - cbn [SF64mul SFmul JS.SFfloor JS.SF2Q].
    change (Z.of_nat (Z.to_nat 0)) with 0. rewrite !Qmult_0_l.
    split; [lia|]. split; [discriminate | reflexivity].
  - destruct (@SFmul_floor mx ex my ey (Z.of_nat n) Hmx ltac:(lia) Hey Hmy Hn)
      as ([Hj0 Hjn] & Hlo & Hhi).
    set (jz := JS.SFfloor (SF64mul (S754_finite false mx ex) (S754_finite false my ey))) in *.
    rewrite Z2Nat.id by exact Hj0.
    split; [lia|]. cbn [JS.SF2Q].
    rewrite Qpow2_neg by lia.
    assert (HX : 0 < 2 ^ (- ex)) by (apply Z.pow_pos_nonneg; lia).
    destruct (2 ^ (- ex)) as [|X|X] eqn:HeqX; try lia.
    change (2 ^ 53) with 9007199254740992 in *.
    clear - Hlo Hhi Hj0 Hn.
    split.
    + unfold Qle, JS.u. cbn [Qnum Qden Qmult Qminus Qplus Qopp Qinv inject_Z].
      nia.
    + unfold Qlt. cbn [Qnum Qden Qmult Qminus Qplus Qopp Qinv inject_Z]. nia.
Qed.

(** The converse: a draw of the interval [j / n, (j + 1) / n), less its
    last part of relative length [2 ^ -53], gives the index [j]. *)
Lemma floor_index_of_interval (r : float) (n j : nat) :
  JS.unit_draw r -> 1 <= Z.of_nat n < 2 ^ 53 ->
  (inject_Z (Z.of_nat j) <= JS.to_Q r * inject_Z (Z.of_nat n))%Q ->
  (JS.to_Q r * inject_Z (Z.of_nat n) < inject_Z (Z.of_nat j + 1) * (1 - JS.u))%Q ->
  JS.floor_index r n = j.
Proof.
  intros Hu Hn Hlo Hhi.
  destruct (floor_index_draw n Hu Hn) as (_ & Hlo' & Hhi').
  set (j' := JS.floor_index r n) in *.
  set (x := (JS.to_Q r * inject_Z (Z.of_nat n))%Q) in *.
  assert (Hpos : (0 < 1 - JS.u)%Q) by reflexivity.
  assert (H1 : (inject_Z (Z.of_nat j') < inject_Z (Z.of_nat j + 1))%Q).
  { apply (proj1 (Qmult_lt_r _ _ (1 - JS.u)%Q Hpos)).
    eapply Qle_lt_trans; [exact Hlo' | exact Hhi]. }
  assert (H2 : (inject_Z (Z.of_nat j) < inject_Z (Z.of_nat j' + 1))%Q)
    by (eapply Qle_lt_trans; [exact Hlo | exact Hhi']).
  rewrite <- Zlt_Qlt in H1, H2. lia.
Qed.

Lemma Qpow2_pos (e : Z) : (0 < 2 ^ e)%Q.
Proof. apply Qpower_0_lt. reflexivity. Qed.

Lemma SF2Q_scaled (m : positive) (e e0 : Z) :
  e0 <= e ->
  (JS.SF2Q (S754_finite false m e) == inject_Z (Z.pos m * 2 ^ (e - e0)) * 2 ^ e0)%Q.
Proof.
  intros He. cbn [JS.SF2Q].
  replace e with ((e - e0) + e0) at 1 by lia.
  rewrite Qpower_plus by discriminate.
  rewrite inject_Z_mult, Zpower_Qpower by lia.
  rewrite Qmult_assoc. reflexivity.
Qed.

(** A number above the subnormal range has a mantissa of 53 bits. *)
Lemma bounded_normal m e :
  SpecFloat.bounded prec emax m e = true -> -1074 < e -> 2 ^ 52 <= Z.pos m.
Proof.
  intros V He. unfold SpecFloat.bounded, canonical_mantissa in V.
  apply andb_true_iff in V. destruct V as [Hc _]. apply Z.eqb_eq in Hc.
  rewrite fexp_eq in Hc.
  assert (Hd : Z.pos (digits2_pos m) = 53) by lia.
  pose proof (digits2_pos_lower m) as Hlow. now rewrite Hd in Hlow.
Qed.

Lemma SF2Q_lt_exp m1 e1 m2 e2 :
  SpecFloat.bounded prec emax m1 e1 = true ->
  SpecFloat.bounded prec emax m2 e2 = true ->
  e1 < e2 ->
  (JS.SF2Q (S754_finite false m1 e1) < JS.SF2Q (S754_finite false m2 e2))%Q.
Proof.
  intros V1 V2 Hlt.
  pose proof (JSFacts.bounded_range _ _ V1) as [Hm1 He1].
  pose proof (@bounded_normal m2 e2 V2 ltac:(lia)) as Hm2.
  rewrite (@SF2Q_scaled m2 e2 e1) by lia. cbn [JS.SF2Q].
  apply Qmult_lt_r; [apply Qpow2_pos|]. rewrite <- Zlt_Qlt.
  assert (2 ^ 1 <= 2 ^ (e2 - e1)) by (apply Z.pow_le_mono_r; lia).
  unfold JS.P53 in Hm1. change (2 ^ 52) with 4503599627370496 in Hm2.
  change (2 ^ 1) with 2 in *. nia.
Qed.

(** The order [<] on the numbers that are not negative is the order of
    their values. *)
Lemma SFltb_value x y :
  valid_binary x = true -> valid_binary y = true ->
  match x with S754_zero _ | S754_finite false _ _ => True | _ => False end ->
  match y with S754_zero _ | S754_finite false _ _ => True | _ => False end ->
  (SFltb x y = true <-> (JS.SF2Q x < JS.SF2Q y)%Q).
Proof.
  intros Vx Vy Hx Hy.
  destruct x as [sx|sx| |[|] m1 e1]; try contradiction;
    destruct y as [sy|sy| |[|] m2 e2]; try contradiction.
  - cbn. split; [discriminate | intros H; discriminate H].
  - assert (Hp : (0 < JS.SF2Q (S754_finite false m2 e2))%Q).
    { cbn [JS.SF2Q]. apply Qmult_lt_0_compat; [reflexivity | apply Qpow2_pos]. }
    cbn [SFltb SFcompare JS.SF2Q] in *. split; [intros _; exact Hp | reflexivity].
  - assert (Hp : (0 < JS.SF2Q (S754_finite false m1 e1))%Q).
    { cbn [JS.SF2Q]. apply Qmult_lt_0_compat; [reflexivity | apply Qpow2_pos]. }
    unfold SFltb, SFcompare. split; [discriminate|].
    intros H. exfalso. change (JS.SF2Q (S754_zero sy)) with 0%Q in H.
    exact (Qlt_irrefl _ (Qlt_trans _ _ _ Hp H)).
  - simpl in Vx, Vy. unfold SFltb, SFcompare.
    destruct (Z.compare_spec e1 e2) as [-> | Hlt | Hgt].
    + cbn [JS.SF2Q].
      change (Pos.compare_cont Eq m1 m2) with (Pos.compare m1 m2).
      rewrite (Qmult_lt_r _ _ _ (Qpow2_pos e2)), <- Zlt_Qlt.
      destruct (Pos.compare_spec m1 m2) as [-> | H | H].
      * split; [discriminate | lia].
      * apply Pos2Z.pos_lt_pos in H. split; [intros _; exact H | reflexivity].
      * apply Pos2Z.pos_lt_pos in H. split; [discriminate | lia].
    + split; [intros _ | reflexivity]. now apply SF2Q_lt_exp.
    + split; [discriminate|]. intros H. exfalso.
      pose proof (@SF2Q_lt_exp m2 e2 m1 e1 Vy Vx Hgt) as H'.
      exact (Qlt_irrefl _ (Qlt_trans _ _ _ H H')).
Qed.

(** [r < 0.3] on a draw: the value of the draw is below the value of the
    literal. *)
Lemma lt_three_tenths r :
  JS.unit_draw r ->
  (JS.lt r JS.three_tenths = true
   <-> (JS.to_Q r < JS.to_Q JS.three_tenths)%Q).
Proof.
  intros Hu. unfold JS.lt, JS.to_Q. rewrite FloatAxioms.ltb_spec.
  apply SFltb_value; try apply Prim2SF_valid.
  - destruct (unit_draw_repr Hu) as [[s ->] | (mx & ex & -> & _)]; exact I.
  - exact I.
Qed.

(** The literal [0.3] is [5404319552844595 / 2 ^ 54]: below three tenths,
    by less than [2 ^ -56]. *)
Lemma three_tenths_value :
  (JS.to_Q JS.three_tenths == 5404319552844595 # 18014398509481984)%Q
  /\ ((3 # 10) - (1 # 72057594037927936) < JS.to_Q JS.three_tenths)%Q
  /\ (JS.to_Q JS.three_tenths < 3 # 10)%Q.
Proof. repeat split. Qed.

End FloorIndex.

(** The rounding at work: the draw [2573485501354569 / 2 ^ 52] times [7] is
    [4 - 2 ^ -52], which is rounded to [4]. *)
Example floor_index_rounds :
  JS.floor_index 0x1.2492492492492p-1 7 = 4%nat
  /\ (JS.to_Q 0x1.2492492492492p-1 * 7 < 4)%Q.
Proof. split; vm_compute; reflexivity. Qed.

(** *** A draw for every index *)

Section DrawFor.
Local Open Scope Z_scope.

Lemma digits2_pos_unique (p : positive) (d : Z) :
  2 ^ (d - 1) <= Z.pos p < 2 ^ d -> Z.pos (digits2_pos p) = d.
Proof.
  intros [Hlo Hhi].
  pose proof (digits2_pos_lower p) as Hl. pose proof (digits2_pos_upper p) as Hu.
  assert (Hd : 0 < d).
  { destruct (Z_lt_le_dec 0 d) as [|Hle]; [assumption|].
    exfalso. destruct (Z.eq_dec d 0) as [-> | Hne].
    - simpl in Hhi. lia.
    - rewrite (Z.pow_neg_r 2 d) in Hhi by lia. lia. }
  destruct (Z.lt_trichotomy (Z.pos (digits2_pos p)) d) as [Hlt | [Heq | Hgt]];
    [exfalso | exact Heq | exfalso].
  - assert (2 ^ Z.pos (digits2_pos p) <= 2 ^ (d - 1))
      by (apply Z.pow_le_mono_r; lia). lia.
  - assert (2 ^ d <= 2 ^ (Z.pos (digits2_pos p) - 1))
      by (apply Z.pow_le_mono_r; lia). lia.
Qed.

(** The number [c / 2 ^ 53], for [1 <= c < 2 ^ 53], as a binary64 value. *)
Lemma dyadic_repr (c : Z) :
  1 <= c < 2 ^ 53 ->
  let d := Zdigits2 c in
  let x := S754_finite false (Z.to_pos (c * 2 ^ (53 - d))) (d - 106) in
  valid_binary x = true
  /\ 1 <= d <= 53
  /\ Z.pos (Z.to_pos (c * 2 ^ (53 - d))) = c * 2 ^ (53 - d).
Proof.
  intros Hc d x.
  assert (Hd : 1 <= d <= 53).
  { subst d. split.
    - destruct c; simpl; lia.
    - apply Zdigits2_le; lia. }
  assert (Hlow : 2 ^ (d - 1) <= c).
  { subst d. destruct c as [|p|p]; try lia. simpl. apply digits2_pos_lower. }
  assert (Hup : c < 2 ^ d) by (subst d; apply Zdigits2_lt_pow; lia).
  assert (Hp : 0 < 2 ^ (53 - d)) by (apply Z.pow_pos_nonneg; lia).
  assert (Hm : Z.pos (Z.to_pos (c * 2 ^ (53 - d))) = c * 2 ^ (53 - d))
    by (apply Z2Pos.id; nia).
  split; [|split; [exact Hd | exact Hm]].
  subst x. cbn [valid_binary]. unfold SpecFloat.bounded, canonical_mantissa.
  apply andb_true_iff. split.
  - apply Z.eqb_eq. rewrite fexp_eq.
    rewrite (@digits2_pos_unique _ 53).
    + lia.
    + rewrite Hm. split.
      * replace (53 - 1) with ((d - 1) + (53 - d)) by lia.
        rewrite Z.pow_add_r by lia. nia.
      * replace 53 with (d + (53 - d)) at 2 by lia.
        rewrite Z.pow_add_r by lia. nia.
  - apply Z.leb_le. change (emax - prec) with 971. lia.
Qed.


Lemma draw_for_spec (n j : nat) :
  1 <= Z.of_nat n < 2 ^ 52 -> (j < n)%nat ->
  JS.unit_draw (draw_for n j) /\ JS.floor_index (draw_for n j) n = j.
Proof.
  intros Hn Hj.
  set (c := Z.of_nat j * 2 ^ 53 / Z.of_nat n + 1).
  assert (Hq : Z.of_nat j * 2 ^ 53 < c * Z.of_nat n
               /\ c * Z.of_nat n <= Z.of_nat j * 2 ^ 53 + Z.of_nat n).
  { unfold c. pose proof (Z.mul_succ_div_gt (Z.of_nat j * 2 ^ 53) (Z.of_nat n)) as H1.
    pose proof (Z.mul_div_le (Z.of_nat j * 2 ^ 53) (Z.of_nat n)) as H2.
    change (2 ^ 53) with 9007199254740992 in *. lia. }
  assert (Hc : 1 <= c < 2 ^ 53).
  { split.
    - unfold c. assert (0 <= Z.of_nat j * 2 ^ 53 / Z.of_nat n)
        by (apply Z.div_pos; lia). lia.
    - change (2 ^ 52) with 4503599627370496 in *.
      change (2 ^ 53) with 9007199254740992 in *. nia. }
  destruct (dyadic_repr Hc) as (Hvalid & Hd & Hm).
  fold c in Hvalid, Hd, Hm.
  set (d := Zdigits2 c) in *.
  assert (Hrepr : Prim2SF (draw_for n j)
                  = S754_finite false (Z.to_pos (c * 2 ^ (53 - d))) (d - 106)).
  { unfold draw_for. fold c. fold d. now apply Prim2SF_SF2Prim. }
  assert (Hunit : JS.unit_draw (draw_for n j)).
  { split.
    - unfold JS.le. rewrite FloatAxioms.leb_spec, Hrepr. reflexivity.
    - unfold JS.lt. rewrite FloatAxioms.ltb_spec, Hrepr.
      change (Prim2SF 1) with (S754_finite false 4503599627370496 (-52)).
      unfold SFltb, SFcompare.
      replace (d - 106 ?= -52) with Lt; [reflexivity|].
      symmetry. apply Z.compare_lt_iff. lia. }
  split; [exact Hunit|].
  assert (Hval : (JS.to_Q (draw_for n j) == inject_Z c * / inject_Z (2 ^ 53))%Q).
  { unfold JS.to_Q. rewrite Hrepr. cbn [JS.SF2Q]. rewrite Hm.
    rewrite inject_Z_mult, Zpower_Qpower by lia.
    rewrite <- Qmult_assoc, <- Qpower_plus by discriminate.
    replace (53 - d + (d - 106)) with (-53) by lia. reflexivity. }
  assert (Hn53 : 1 <= Z.of_nat n < 2 ^ 53).
  { split; [lia|]. apply Z.lt_trans with (2 ^ 52); [lia | reflexivity]. }
  change (2 ^ 52) with 4503599627370496 in *.
  change (2 ^ 53) with 9007199254740992 in *.
  apply floor_index_of_interval; try assumption; rewrite Hval; clear - Hq Hn Hj.
  - unfold Qle. cbn [Qnum Qden Qmult Qinv inject_Z]. lia.
  - unfold Qlt, JS.u. cbn [Qnum Qden Qmult Qminus Qplus Qopp Qinv inject_Z]. lia.
Qed.

Lemma draws_for_spec i : forall js,
  Z.of_nat i + 1 < 2 ^ 52 -> valid_choices i js ->
  unit_draws (draws_for i js) /\ choices_of i (draws_for i js) = js.
Proof.
  induction i as [|i IH]; intros [|j js] Hi Hv; cbn [valid_choices] in Hv;
    try contradiction.
  - split; [intros k; split; reflexivity | reflexivity].
  - destruct Hv as [Hj Hv].
    destruct (IH js ltac:(lia) Hv) as [Hu Hc].
    destruct (@draw_for_spec (S i + 1) j ltac:(lia) ltac:(lia)) as [Hu0 Hf0].
    split.
    + intros [|k]; cbn [draws_for]; [exact Hu0 | apply Hu].
    + cbn [choices_of draws_for]. rewrite Hf0. f_equal.
      exact Hc.
Qed.

Lemma choices_of_ext i : forall d1 d2,
  (forall k, (k < i)%nat -> d1 k = d2 k) -> choices_of i d1 = choices_of i d2.
Proof.
  induction i as [|i IH]; intros d1 d2 H; cbn [choices_of]; [reflexivity|].
  rewrite (H 0%nat) by lia. f_equal. apply IH. intros k Hk. apply H. lia.
Qed.

Lemma draws_then_spec k d1 d2 i :
  unit_draws d1 -> unit_draws d2 ->
  unit_draws (draws_then k d1 d2)
  /\ choices_of k (draws_then k d1 d2) = choices_of k d1
  /\ choices_of i (drop_draws k (draws_then k d1 d2)) = choices_of i d2.
Proof.
  intros H1 H2. split; [|split].
  - intros n. unfold draws_then. destruct (n <? k)%nat; [apply H1 | apply H2].
  - apply choices_of_ext. intros n Hn. unfold draws_then.
    now replace (n <? k)%nat with true by (symmetry; apply Nat.ltb_lt; lia).
  - apply choices_of_ext. intros n _. unfold drop_draws, draws_then.
    replace (k + n <? k)%nat with false by (symmetry; apply Nat.ltb_ge; lia).
    f_equal. lia.
Qed.

End DrawFor.

(** ** The evaluator *)

Section EvaluatorFacts.
Context {G : Type} {E : RulesEngine G}.

(** C1 (as the code has it). In a checkmate position [evaluatePosition]
    returns +10000 when black, the engine's side, is to move (and so is the
    side that is mated), and -10000 when white, the user's side, is to move:
    the opposite of the sign that the engine's perspective asks for. *)
Theorem evaluatePosition_checkmate (g : G) :
  in_checkmate g = true ->
  evaluatePosition g =
    match game_turn g with Black => 10000%float | White => (-10000)%float end.
Proof.
  intros Hmate. unfold evaluatePosition. rewrite Hmate. reflexivity.
Qed.

(** Any drawn terminal position evaluates to 0. *)
Lemma evaluatePosition_draw (g : G) :
  in_checkmate g = false ->
  in_stalemate g || in_threefold_repetition g
    || insufficient_material g || in_draw g = true ->
  evaluatePosition g = 0%float.
Proof.
  intros Hmate Hdraw. unfold evaluatePosition. rewrite Hmate, Hdraw. reflexivity.
Qed.

(** C5 (amended). In the standard starting position, white to move with
    its twenty legal moves, [evaluatePosition] returns -2: the material,
    piece-square, king-safety and pawn-structure terms of the two sides
    cancel, and the mobility term subtracts 20 * 0.1 for the side to move. *)
Theorem evaluatePosition_start (g : G) :
  game_board g = Positions.startBoard ->
  game_turn g = White ->
  List.length (game_moves g) = 20%nat ->
  in_checkmate g = false ->
  in_stalemate g || in_threefold_repetition g
    || insufficient_material g || in_draw g = false ->
  evaluatePosition g = (-2)%float.
Proof.
  intros Hboard Hturn Hmoves Hmate Hdraw.
  unfold evaluatePosition.
  rewrite Hmate, Hdraw, Hboard, Hturn, Hmoves.
  vm_compute. reflexivity.
Qed.

End EvaluatorFacts.

(** White is mated in [foolsMate]: the engine has won, and the evaluation
    is -10000. *)
Lemma evaluatePosition_checkmate_witness :
  in_checkmate Positions.foolsMate = true /\
  game_turn Positions.foolsMate = White /\
  evaluatePosition Positions.foolsMate = (-10000)%float.
Proof.
  split; [reflexivity|]. split; [reflexivity|].
  exact (evaluatePosition_checkmate Positions.foolsMate eq_refl).
Defined.

Lemma evaluatePosition_start_witness :
  evaluatePosition Positions.startPosition = (-2)%float.
Proof.
  apply (evaluatePosition_start Positions.startPosition); reflexivity.
Defined.

(** C5, as stated, fails: the starting position does not evaluate to 0. *)
Lemma evaluatePosition_start_not_zero :
  evaluatePosition Positions.startPosition <> 0%float.
Proof.
  intros H. apply (f_equal (fun x => (x =? 0)%float)) in H.
  vm_compute in H. discriminate H.
Qed.

(** ** Reasoning about the monad *)

Notation "x <- c ;; k" := (bind c (fun x => k))
  (at level 61, c at next level, right associativity).
Notation "c ;;; k" := (bind c (fun _ => k))
  (at level 61, right associativity).

Section MonadFacts.
Context {G : Type} {E : RulesEngine G}.

Lemma bind_Return {A B} (c : @M G A) (k : A -> @M G B) s b s2 :
  bind c k s = Return b s2 ->
  exists a s1, c s = Return a s1 /\ k a s1 = Return b s2.
Proof.
  unfold bind. destruct (c s) as [a s1 | s1 | ]; try discriminate.
  intros H. now exists a, s1.
Qed.

Lemma bind_Throw {A B} (c : @M G A) (k : A -> @M G B) s s2 :
  bind c k s = Throw s2 ->
  c s = Throw s2 \/ exists a s1, c s = Return a s1 /\ k a s1 = Throw s2.
Proof.
  unfold bind. destruct (c s) as [a s1 | s1 | ]; try discriminate.
  - intros H. right. now exists a, s1.
  - intros H. injection H as ->. now left.
Qed.

Lemma bind_OutOfFuel {A B} (c : @M G A) (k : A -> @M G B) s :
  bind c k s = OutOfFuel ->
  c s = OutOfFuel \/ exists a s1, c s = Return a s1 /\ k a s1 = OutOfFuel.
Proof.
  unfold bind. destruct (c s) as [a s1 | s1 | ]; try discriminate.
  - intros H. right. now exists a, s1.
  - intros _. now left.
Qed.

Lemma terminates_ret {A} (a : A) : terminates (ret (G := G) a).
Proof. intros s. discriminate. Qed.

Lemma terminates_bind {A B} (c : @M G A) (k : A -> @M G B) :
  terminates c -> (forall a, terminates (k a)) -> terminates (bind c k).
Proof.
  intros Hc Hk s H. apply bind_OutOfFuel in H.
  destruct H as [H | (a & s1 & _ & H)]; [now apply (Hc s) | now apply (Hk a s1)].
Qed.

Lemma terminates_call {A} (f : G -> A) : terminates (call f).
Proof. intros s. unfold call. destruct (engine_fails (game s)); discriminate. Qed.

Lemma terminates_move_ m : terminates (move_ m).
Proof.
  intros s. unfold move_. destruct (engine_fails (game s)); [discriminate|].
  destruct (game_move m (game s)); discriminate.
Qed.

Lemma terminates_undo_ : terminates undo_.
Proof. intros s. unfold undo_. destruct (engine_fails (game s)); discriminate. Qed.

Lemma terminates_Math_random : terminates (Math_random (G := G)).
Proof. intros s. discriminate. Qed.

Lemma terminates_countNode : terminates (countNode (G := G)).
Proof.
  intros s. unfold countNode, yield, ret.
  destruct (_ =? 0)%Z; discriminate.
Qed.

Lemma terminates_for_of {A S} (body : A -> S -> @M G (Flow * S)) xs :
  (forall x v, terminates (body x v)) -> forall v, terminates (for_of xs body v).
Proof.
  intros Hb. induction xs as [|x xs IH]; intros v; simpl.
  - apply terminates_ret.
  - apply terminates_bind; [apply Hb|].
    intros [[|] v']; [apply IH | apply terminates_ret].
Qed.

Lemma terminates_shuffleFrom {A} i (array : list A) :
  terminates (shuffleFrom (G := G) i array).
Proof.
  revert array. induction i as [|i IH]; intros array; simpl.
  - apply terminates_ret.
  - apply terminates_bind; [apply terminates_Math_random|]. intros rnd. apply IH.
Qed.

Lemma terminates_orderMoves moves : terminates (orderMoves (G := G) moves).
Proof.
  unfold orderMoves, shuffleArray.
  apply terminates_bind; [apply terminates_shuffleFrom|]. intros c.
  apply terminates_bind; [apply terminates_shuffleFrom|]. intros o.
  apply terminates_ret.
Qed.

End MonadFacts.

Create HintDb terminates.

#[global] Hint Resolve terminates_ret terminates_call terminates_move_
  terminates_undo_ terminates_Math_random terminates_countNode
  terminates_orderMoves : terminates.

(** ** Termination of the search *)

Section Termination.
Context {G : Type} {E : RulesEngine G}.

Lemma terminates_maxStep rec beta move vars :
  (forall a b', terminates (rec a b')) ->
  terminates (maxStep (G := G) rec beta move vars).
Proof.
  intros Hrec. unfold maxStep. destruct vars as [maxEval alpha].
  apply terminates_bind; [auto with terminates|]. intros [|]; [|auto with terminates].
  apply terminates_bind; [apply Hrec|]. intros ev.
  apply terminates_bind; [auto with terminates|]. intros _.
  destruct (JS.le _ _); auto with terminates.
Qed.

Lemma terminates_minStep rec alpha move vars :
  (forall a b', terminates (rec a b')) ->
  terminates (minStep (G := G) rec alpha move vars).
Proof.
  intros Hrec. unfold minStep. destruct vars as [minEval beta].
  apply terminates_bind; [auto with terminates|]. intros [|]; [|auto with terminates].
  apply terminates_bind; [apply Hrec|]. intros ev.
  apply terminates_bind; [auto with terminates|]. intros _.
  destruct (JS.le _ _); auto with terminates.
Qed.

Lemma minimax_fuel_enough (fuel : nat) :
  forall depth alpha beta isMaximizing,
    (0 <= depth)%Z -> (Z.to_nat depth < fuel)%nat ->
    terminates (minimax fuel depth alpha beta isMaximizing).
Proof.
  induction fuel as [|fuel IH]; intros depth alpha beta isMaximizing Hd Hf; [lia|].
  simpl.
  apply terminates_bind; [auto with terminates|]. intros _.
  destruct (Z.eqb_spec depth 0) as [Hz | Hnz].
  - (* depth = 0: the base case fires *)
    change (terminates (call (A := float) evaluatePosition)).
    auto with terminates.
  - assert (Hrec : forall mx a b',
               terminates (minimax fuel (depth - 1) a b' mx)).
    { intros mx a b'. apply IH; lia. }
    apply terminates_bind; [auto with terminates|].
    intros [|]; [auto with terminates|].
    apply terminates_bind; [auto with terminates|]. intros moves.
    destruct (List.length moves =? 0)%nat; [auto with terminates|].
    destruct isMaximizing.
    + apply terminates_bind; [|auto with terminates].
      apply terminates_for_of. intros x v. now apply terminates_maxStep.
    + apply terminates_bind; [|auto with terminates].
      apply terminates_for_of. intros x v. now apply terminates_minStep.
Qed.

Lemma terminates_rootStep fuel depth beta move vars :
  (1 <= depth)%Z -> (Z.to_nat depth <= fuel)%nat ->
  terminates (rootStep fuel depth beta move vars).
Proof.
  intros Hd Hf. unfold rootStep.
  apply terminates_bind; [auto with terminates|]. intros _.
  apply terminates_bind; [apply minimax_fuel_enough; lia|]. intros v.
  apply terminates_bind; [auto with terminates|]. intros _.
  destruct (JS.ge _ _); auto with terminates.
Qed.

Lemma findBestMove_fuel_enough fuel depth :
  (1 <= depth)%Z -> (Z.to_nat depth <= fuel)%nat ->
  terminates (findBestMove fuel depth).
Proof.
  intros Hd Hf. unfold findBestMove, rootLoop.
  apply terminates_bind; [auto with terminates|]. intros moves.
  destruct (List.length moves =? 0)%nat; [auto with terminates|].
  apply terminates_bind; [auto with terminates|]. intros ordered.
  apply terminates_bind; [|auto with terminates].
  apply terminates_for_of. intros x v. now apply terminates_rootStep.
Qed.

(** C9. [minimax] returns or throws for every depth >= 0 once the fuel
    exceeds the depth: each nested call runs at [depth - 1] and the base
    case fires at depth 0, so the nesting is bounded by [depth] alone,
    whatever the engine answers; and so does [findBestMove(d)] for
    [d >= 1] with fuel [d]. *)
Theorem search_terminates :
  (forall fuel depth alpha beta isMaximizing s,
      (0 <= depth)%Z -> (Z.to_nat depth < fuel)%nat ->
      minimax fuel depth alpha beta isMaximizing s <> OutOfFuel) /\
  (forall fuel depth s,
      (1 <= depth)%Z -> (Z.to_nat depth <= fuel)%nat ->
      findBestMove fuel depth s <> OutOfFuel).
Proof.
  split.
  - intros fuel depth alpha beta isMaximizing s Hd Hf.
    now apply minimax_fuel_enough.
  - intros fuel depth s Hd Hf. now apply findBestMove_fuel_enough.
Qed.

End Termination.

(** ** The move orderer *)

Section ShuffleFacts.
Context {G : Type} {E : RulesEngine G}.

Lemma set_at_length {A} (l : list A) i x : List.length (set_at l i x) = List.length l.
Proof.
  revert i. induction l as [|a l IH]; intros [|i]; simpl; auto.
Qed.

Lemma set_at_middle {A} (l1 l2 : list A) x y :
  set_at (l1 ++ x :: l2) (List.length l1) y = l1 ++ y :: l2.
Proof.
  induction l1 as [|a l1 IH]; simpl; [reflexivity|]. now rewrite IH.
Qed.

Lemma set_at_middle2 {A} (l1 l2 l3 : list A) a x y :
  set_at (l1 ++ a :: l2 ++ x :: l3) (List.length l1 + S (List.length l2)) y
  = l1 ++ a :: l2 ++ y :: l3.
Proof.
  change (l1 ++ a :: l2 ++ x :: l3) with (l1 ++ (a :: l2) ++ x :: l3).
  rewrite app_assoc.
  replace (List.length l1 + S (List.length l2))%nat
    with (List.length (l1 ++ a :: l2)) by (rewrite length_app; simpl; lia).
  rewrite set_at_middle. rewrite <- app_assoc. reflexivity.
Qed.

Lemma nth_error_middle {A} (l1 l2 : list A) x :
  nth_error (l1 ++ x :: l2) (List.length l1) = Some x.
Proof.
  rewrite nth_error_app2 by lia.
  now replace (List.length l1 - List.length l1)%nat with 0%nat by lia.
Qed.

Lemma nth_error_middle2 {A} (l1 l2 l3 : list A) a x :
  nth_error (l1 ++ a :: l2 ++ x :: l3) (List.length l1 + S (List.length l2))
  = Some x.
Proof.
  change (l1 ++ a :: l2 ++ x :: l3) with (l1 ++ (a :: l2) ++ x :: l3).
  rewrite app_assoc.
  replace (List.length l1 + S (List.length l2))%nat
    with (List.length (l1 ++ a :: l2)) by (rewrite length_app; simpl; lia).
  apply nth_error_middle.
Qed.

(** Two positions [i < j] of a list split it in three. *)
Lemma nth_error_split2 {A} (l : list A) i j ai aj :
  (i < j)%nat -> nth_error l i = Some ai -> nth_error l j = Some aj ->
  exists l1 l2 l3,
    l = l1 ++ ai :: l2 ++ aj :: l3 /\
    List.length l1 = i /\ (List.length l1 + S (List.length l2))%nat = j.
Proof.
  intros Hlt Hi Hj.
  apply nth_error_split in Hi. destruct Hi as (l1 & r1 & -> & <-).
  rewrite nth_error_app2 in Hj by lia.
  destruct (j - List.length l1)%nat as [|d] eqn:Hd; [lia|]. simpl in Hj.
  apply nth_error_split in Hj. destruct Hj as (l2 & l3 & -> & Hl2).
  exists l1, l2, l3. repeat split. lia.
Qed.

(** Swapping the element at [j] with a later one. *)
Lemma swap_later {A} (l1 l2 l3 : list A) z x :
  swap (l1 ++ z :: l2 ++ x :: l3) (List.length l1 + S (List.length l2))
    (List.length l1)
  = l1 ++ x :: l2 ++ z :: l3.
Proof.
  unfold swap. rewrite nth_error_middle2, nth_error_middle.
  rewrite set_at_middle2, set_at_middle. reflexivity.
Qed.

Lemma swap_same {A} (l : list A) i : swap l i i = l.
Proof.
  unfold swap. destruct (nth_error l i) as [a|] eqn:Hi; [|reflexivity].
  apply nth_error_split in Hi. destruct Hi as (l1 & l2 & -> & <-).
  now rewrite !set_at_middle.
Qed.

Lemma swap_length {A} (l : list A) i j : List.length (swap l i j) = List.length l.
Proof.
  unfold swap. destruct (nth_error l i), (nth_error l j); auto.
  now rewrite !set_at_length.
Qed.

Lemma Permutation_swap_ends {A} (a c : A) l2 l3 :
  Permutation (a :: l2 ++ c :: l3) (c :: l2 ++ a :: l3).
Proof.
  etransitivity; [apply perm_skip; symmetry; apply Permutation_middle|].
  etransitivity; [apply perm_swap|].
  apply perm_skip. apply Permutation_middle.
Qed.

Lemma swap_Permutation {A} (l : list A) i j : Permutation l (swap l i j).
Proof.
  destruct (lt_eq_lt_dec i j) as [[Hlt | ->] | Hgt].
  - unfold swap at 1.
    destruct (nth_error l i) as [ai|] eqn:Hi; [|reflexivity].
    destruct (nth_error l j) as [aj|] eqn:Hj; [|reflexivity].
    destruct (nth_error_split2 l Hlt Hi Hj) as (l1 & l2 & l3 & -> & <- & <-).
    rewrite set_at_middle, set_at_middle2.
    apply Permutation_app_head, Permutation_swap_ends.
  - now rewrite swap_same.
  - unfold swap at 1.
    destruct (nth_error l i) as [ai|] eqn:Hi; [|reflexivity].
    destruct (nth_error l j) as [aj|] eqn:Hj; [|reflexivity].
    destruct (nth_error_split2 l Hgt Hj Hi) as (l1 & l2 & l3 & -> & <- & <-).
    rewrite set_at_middle2, set_at_middle.
    apply Permutation_app_head, Permutation_swap_ends.
Qed.

Lemma shuffleBy_Permutation {A} i (l : list A) js :
  Permutation l (shuffleBy i l js).
Proof.
  revert l js. induction i as [|i IH]; intros l [|j js]; simpl; try reflexivity.
  etransitivity; [apply swap_Permutation | apply IH].
Qed.

Lemma set_at_app_l {A} (l1 l2 : list A) i x :
  (i < List.length l1)%nat -> set_at (l1 ++ l2) i x = set_at l1 i x ++ l2.
Proof.
  revert i. induction l1 as [|a l1 IH]; intros [|i] H; simpl in *; try lia.
  - reflexivity.
  - rewrite IH by lia. reflexivity.
Qed.

Lemma swap_app_l {A} (l suf : list A) i j :
  (i < List.length l)%nat -> (j < List.length l)%nat ->
  swap (l ++ suf) i j = swap l i j ++ suf.
Proof.
  intros Hi Hj. unfold swap.
  rewrite !nth_error_app1 by assumption.
  destruct (nth_error l i) as [ai|]; [|reflexivity].
  destruct (nth_error l j) as [aj|]; [|reflexivity].
  rewrite set_at_app_l by assumption.
  rewrite set_at_app_l by (rewrite set_at_length; assumption).
  reflexivity.
Qed.

(** The steps from index [i] leave the elements after [i] where they are. *)
Lemma shuffleBy_app_l {A} i (l suf : list A) js :
  (i < List.length l)%nat -> valid_choices i js ->
  shuffleBy i (l ++ suf) js = shuffleBy i l js ++ suf.
Proof.
  revert l js. induction i as [|i IH]; intros l [|j js] Hi Hv; simpl in *;
    try tauto.
  destruct Hv as [Hj Hv].
  rewrite swap_app_l by lia. apply IH; [rewrite swap_length; lia | assumption].
Qed.

(** The step at the last index [n] with choice [j] puts the element at [j]
    last. *)
Lemma swap_last {A} (l : list A) n j :
  List.length l = S n -> (j <= n)%nat ->
  exists front y,
    swap l n j = front ++ [y] /\ nth_error l j = Some y /\
    List.length front = n.
Proof.
  intros Hlen Hj.
  destruct (nth_error l j) as [y|] eqn:Hy;
    [| apply nth_error_None in Hy; lia].
  destruct (nth_error l n) as [x|] eqn:Hx;
    [| apply nth_error_None in Hx; lia].
  destruct (Nat.eq_dec j n) as [-> | Hne].
  - rewrite swap_same.
    apply nth_error_split in Hy. destruct Hy as (l1 & l2 & -> & Hl1).
    rewrite length_app in Hlen. simpl in Hlen.
    destruct l2 as [|? ?]; [| simpl in Hlen; lia].
    exists l1, y. auto.
  - assert (Hlt : (j < n)%nat) by lia.
    destruct (nth_error_split2 l Hlt Hy Hx) as (l1 & l2 & l3 & -> & <- & <-).
    rewrite !length_app in Hlen. simpl in Hlen. rewrite length_app in Hlen.
    simpl in Hlen. destruct l3 as [|? ?]; [| simpl in Hlen; lia].
    rewrite swap_later. exists (l1 ++ x :: l2), y.
    rewrite <- app_assoc. simpl. repeat split.
    rewrite length_app. simpl. lia.
Qed.

(** The Fisher-Yates bijection: on an array without repetition, each order
    of the elements is produced by exactly one sequence of choices. *)
Lemma shuffleBy_bijective {A} i :
  forall (l target : list A),
    List.length l = S i -> NoDup l -> Permutation l target ->
    exists js,
      (valid_choices i js /\ shuffleBy i l js = target) /\
      forall js', valid_choices i js' -> shuffleBy i l js' = target -> js' = js.
Proof.
  induction i as [|i IH]; intros l target Hlen Hnd Hperm.
  - exists []. destruct l as [|x [|? ?]]; try discriminate.
    apply Permutation_length_1_inv in Hperm. subst target.
    repeat split. intros [|? ?] Hv _; [reflexivity | destruct Hv].
  - (* the last element of the target tells the first choice *)
    assert (Htl : List.length target = S (S i))
      by (rewrite <- Hlen; symmetry; now apply Permutation_length).
    destruct (exists_last (l := target)) as (target' & y & ->);
      [intros ->; discriminate|].
    rewrite length_app in Htl. simpl in Htl.
    assert (Hin : In y l).
    { eapply Permutation_in; [symmetry; exact Hperm|].
      apply in_or_app. right. now left. }
    apply In_nth_error in Hin. destruct Hin as (j & Hj).
    assert (Hjle : (j <= S i)%nat).
    { assert (j < List.length l)%nat by (apply nth_error_Some; congruence). lia. }
    destruct (swap_last l Hlen Hjle) as (front & y' & Hswap & Hy' & Hfront).
    assert (y' = y) by congruence. subst y'.
    assert (Hpf : Permutation (front ++ [y]) l).
    { rewrite <- Hswap. symmetry. apply swap_Permutation. }
    assert (Hndf : NoDup front).
    { eapply NoDup_app_remove_r. eapply Permutation_NoDup; [symmetry; exact Hpf|].
      exact Hnd. }
    assert (Hpt : Permutation front target').
    { eapply Permutation_app_inv_r. etransitivity; [exact Hpf | exact Hperm]. }
    destruct (IH front target' Hfront Hndf Hpt) as (js & [Hv Hs] & Huniq).
    exists (j :: js). split; [split|].
    + simpl. auto.
    + simpl. rewrite Hswap, shuffleBy_app_l by (auto; lia). now rewrite Hs.
    + intros [|j0 js0] Hv0 Hs0; [destruct Hv0|].
      simpl in Hv0, Hs0. destruct Hv0 as [Hj0 Hv0].
      destruct (swap_last l Hlen Hj0) as (front0 & y0 & Hswap0 & Hy0 & Hfront0).
      rewrite Hswap0, shuffleBy_app_l in Hs0 by (auto; lia).
      apply app_inj_tail in Hs0. destruct Hs0 as [Hs0 ->].
      assert (j0 = j).
      { apply (proj1 (NoDup_nth_error l) Hnd).
        - apply nth_error_Some. congruence.
        - congruence. }
      subst j0. assert (front0 = front).
      { rewrite Hswap in Hswap0. now apply app_inj_tail in Hswap0. }
      subst front0. f_equal. now apply Huniq.
Qed.

(** [shuffleArray] always returns; it consumes draws, and touches neither
    the position nor the node counter. *)
Lemma shuffleFrom_run {A} i (l : list A) (s : @QuickChess G) :
  shuffleFrom i l s =
  Return (shuffleBy i l (choices_of i (random s)))
    (mkQuickChess (game s) (nodeCount s) (drop_draws i (random s))).
Proof.
  revert l s. induction i as [|i IH]; intros l s; simpl.
  - unfold ret. destruct s; reflexivity.
  - unfold bind, Math_random. rewrite IH. simpl.
    unfold drop_draws. reflexivity.
Qed.

Lemma orderMoves_run (moves : list Move) (s : @QuickChess G) :
  orderMoves moves s =
  Return (orderMovesPure moves (random s))
    (mkQuickChess (game s) (nodeCount s)
       (drop_draws (List.length (filter (fun m => negb (is_capture m)) moves) - 1)
          (drop_draws (List.length (filter is_capture moves) - 1) (random s)))).
Proof.
  unfold orderMoves, orderMovesPure, shuffleArray, bind.
  rewrite shuffleFrom_run. rewrite shuffleFrom_run. reflexivity.
Qed.

(** The moves of [filter] and of its complement make up the list. *)
Lemma partition_Permutation {A} (f : A -> bool) (l : list A) :
  Permutation l (filter f l ++ filter (fun x => negb (f x)) l).
Proof.
  induction l as [|a l IH]; simpl; [constructor|].
  destruct (f a); simpl.
  - now constructor.
  - etransitivity; [apply perm_skip, IH|]. apply Permutation_middle.
Qed.

Lemma orderMoves_Permutation (moves : list Move) (s : @QuickChess G) ordered s' :
  orderMoves moves s = Return ordered s' -> Permutation moves ordered.
Proof.
  rewrite orderMoves_run. intros H. injection H as <- _.
  etransitivity; [apply (partition_Permutation is_capture)|].
  apply Permutation_app; apply shuffleBy_Permutation.
Qed.

End ShuffleFacts.

(** *** The draws and the indices *)

Section Draws.

(** A draw of [0, 1) gives an index inside the array. *)
Lemma floor_index_lt (rnd : float) (n : nat) :
  JS.unit_draw rnd -> (1 <= Z.of_nat n < 2 ^ 53)%Z ->
  (JS.floor_index rnd n < n)%nat.
Proof. intros Hu Hn. exact (proj1 (floor_index_draw n Hu Hn)). Qed.

Lemma unit_draws_drop k draws : unit_draws draws -> unit_draws (drop_draws k draws).
Proof. intros H i. apply H. Qed.

Lemma choices_of_valid i draws :
  unit_draws draws -> (Z.of_nat i + 1 < 2 ^ 53)%Z ->
  valid_choices i (choices_of i draws).
Proof.
  revert draws. induction i as [|i IH]; intros draws Hu Hi;
    cbn [choices_of valid_choices]; [exact I|].
  split.
  - pose proof (@floor_index_lt (draws 0%nat) (S i + 1) (Hu 0%nat)) as H.
    assert (JS.floor_index (draws 0%nat) (S i + 1) < S i + 1)%nat
      by (apply H; lia).
    lia.
  - apply IH; [intros k; apply Hu | lia].
Qed.

(** The choice of step [k]: the index that the draw [k] gives among the
    [i - k + 1] elements still to be placed. *)
Lemma choices_of_nth i : forall draws k,
  (k < i)%nat ->
  nth_error (choices_of i draws) k
  = Some (JS.floor_index (draws k) (i - k + 1)).
Proof.
  induction i as [|i IH]; intros draws k Hk; [lia|].
  destruct k as [|k]; cbn [choices_of nth_error].
  - repeat f_equal.
  - rewrite IH by lia. reflexivity.
Qed.

End Draws.

Section OrderMoves.
Context {G : Type} {E : RulesEngine G}.

Lemma shuffleArray_bijective {A} (l target : list A) :
  NoDup l -> Permutation l target ->
  exists js,
    (valid_choices (List.length l - 1) js
     /\ shuffleBy (List.length l - 1) l js = target) /\
    forall js', valid_choices (List.length l - 1) js' ->
                shuffleBy (List.length l - 1) l js' = target -> js' = js.
Proof.
  intros Hnd Hperm. destruct l as [|a l].
  - apply Permutation_nil in Hperm. subst target. exists []. simpl.
    repeat split. intros [|? ?] Hv _; [reflexivity | destruct Hv].
  - apply shuffleBy_bijective; auto. simpl. lia.
Qed.

Lemma Forall_Permutation_filter {A} (f : A -> bool) (l l' : list A) :
  Permutation (filter f l) l' -> Forall (fun x => f x = true) l'.
Proof.
  intros Hp. apply Forall_forall. intros x Hx.
  apply (Permutation_in _ (Permutation_sym Hp)) in Hx.
  now apply filter_In in Hx.
Qed.

(** Every order of the two groups comes out of [orderMoves] for some draws
    of [0, 1). *)
Lemma orderMoves_reaches (moves : list Move) (g : G) (count : Z) orderC orderO :
  (Z.of_nat (List.length moves) < 2 ^ 52)%Z -> NoDup moves ->
  Permutation (filter is_capture moves) orderC ->
  Permutation (filter (fun m => negb (is_capture m)) moves) orderO ->
  exists draws s',
    unit_draws draws
    /\ orderMoves moves (mkQuickChess g count draws)
       = Return (orderC ++ orderO) s'.
Proof.
  intros Hlen Hnd HC HO.
  set (captures := filter is_capture moves) in *.
  set (others := filter (fun m => negb (is_capture m)) moves) in *.
  pose proof (@filter_length_le Move is_capture moves) as Hlc.
  pose proof (@filter_length_le Move (fun m => negb (is_capture m)) moves) as Hlo.
  fold captures in Hlc. fold others in Hlo.
  destruct (@shuffleArray_bijective Move captures orderC
              (NoDup_filter _ Hnd) HC) as (jc & [Hvc Hsc] & _).
  destruct (@shuffleArray_bijective Move others orderO
              (NoDup_filter _ Hnd) HO) as (jo & [Hvo Hso] & _).
  destruct (@draws_for_spec (List.length captures - 1) jc ltac:(lia) Hvc)
    as [Huc Hcc].
  destruct (@draws_for_spec (List.length others - 1) jo ltac:(lia) Hvo)
    as [Huo Hco].
  set (nc := (List.length captures - 1)%nat) in *.
  set (no := (List.length others - 1)%nat) in *.
  destruct (@draws_then_spec nc (draws_for nc jc) (draws_for no jo) no Huc Huo)
    as (Hu & H1 & H2).
  exists (draws_then nc (draws_for nc jc) (draws_for no jo)).
  eexists. split; [exact Hu|].
  rewrite orderMoves_run. unfold orderMovesPure. cbn [random].
  fold captures others. fold nc no.
  rewrite H1, H2, Hcc, Hco, Hsc, Hso. reflexivity.
Qed.

(** C7. [orderMoves(moves)] returns a permutation of [moves]: the captures,
    shuffled, followed by the other moves, shuffled; the position and the
    node counter are untouched. Each of the two shuffles is uniform, up to
    the rounding of binary64: the order it produces is a function of the
    indices that its steps draw; step [k] draws the index
    [Math.floor(r * n)] from the draw [r] number [k] and the number [n] of
    elements still to be placed; for a draw of [0, 1) this index [j] is
    inside [0 .. n - 1] and [j * (1 - 2 ^ -53) <= r * n < j + 1], and every
    draw with [j <= r * n < (j + 1) * (1 - 2 ^ -53)] gives the index [j]:
    each index is hit by an interval of draws of length [1 / n], up to a
    relative [2 ^ -53]; and when the moves are pairwise distinct, every
    order of the group is produced by exactly one sequence of indices, and
    every order of the two groups is returned for some draws of [0, 1). *)
Theorem orderMoves_spec (moves : list Move) (s : @QuickChess G) :
  let captures := filter is_capture moves in
  let others := filter (fun m => negb (is_capture m)) moves in
  let nc := (List.length captures - 1)%nat in
  let no := (List.length others - 1)%nat in
  let jc := choices_of nc (random s) in
  let jo := choices_of no (drop_draws nc (random s)) in
  let shuffledCaptures := shuffleBy nc captures jc in
  let shuffledOthers := shuffleBy no others jo in
  (exists s',
      orderMoves moves s = Return (shuffledCaptures ++ shuffledOthers) s'
      /\ game s' = game s /\ nodeCount s' = nodeCount s)
  /\ Permutation moves (shuffledCaptures ++ shuffledOthers)
  /\ Permutation captures shuffledCaptures
  /\ Permutation others shuffledOthers
  /\ Forall (fun m => is_capture m = true) shuffledCaptures
  /\ Forall (fun m => is_capture m = false) shuffledOthers
  /\ (forall k, (k < nc)%nat ->
        nth_error jc k
        = Some (JS.floor_index (random s k) (nc - k + 1)))
  /\ (forall k, (k < no)%nat ->
        nth_error jo k
        = Some (JS.floor_index (random s (nc + k)%nat) (no - k + 1)))
  /\ (forall rnd n,
        JS.unit_draw rnd -> (1 <= Z.of_nat n < 2 ^ 53)%Z ->
        let j := JS.floor_index rnd n in
        (j < n)%nat
        /\ (inject_Z (Z.of_nat j) * (1 - JS.u)
            <= JS.to_Q rnd * inject_Z (Z.of_nat n))%Q
        /\ (JS.to_Q rnd * inject_Z (Z.of_nat n)
            < inject_Z (Z.of_nat j + 1))%Q)
  /\ (forall rnd n j,
        JS.unit_draw rnd -> (1 <= Z.of_nat n < 2 ^ 53)%Z ->
        (inject_Z (Z.of_nat j) <= JS.to_Q rnd * inject_Z (Z.of_nat n))%Q ->
        (JS.to_Q rnd * inject_Z (Z.of_nat n)
         < inject_Z (Z.of_nat j + 1) * (1 - JS.u))%Q ->
        JS.floor_index rnd n = j)
  /\ (unit_draws (random s) ->
      (Z.of_nat (List.length moves) < 2 ^ 53)%Z ->
      valid_choices nc jc /\ valid_choices no jo)
  /\ (NoDup moves ->
      forall orderC orderO,
        Permutation captures orderC -> Permutation others orderO ->
        (exists js,
            (valid_choices nc js /\ shuffleBy nc captures js = orderC) /\
            forall js', valid_choices nc js' ->
                        shuffleBy nc captures js' = orderC -> js' = js)
        /\
        (exists js,
            (valid_choices no js /\ shuffleBy no others js = orderO) /\
            forall js', valid_choices no js' ->
                        shuffleBy no others js' = orderO -> js' = js))
  /\ ((Z.of_nat (List.length moves) < 2 ^ 52)%Z -> NoDup moves ->
      forall orderC orderO,
        Permutation captures orderC -> Permutation others orderO ->
        exists draws s',
          unit_draws draws
          /\ orderMoves moves (mkQuickChess (game s) (nodeCount s) draws)
             = Return (orderC ++ orderO) s').
Proof.
  intros captures others nc no jc jo shuffledCaptures shuffledOthers.
  assert (Hpc : Permutation captures shuffledCaptures)
    by apply shuffleBy_Permutation.
  assert (Hpo : Permutation others shuffledOthers)
    by apply shuffleBy_Permutation.
  repeat match goal with |- _ /\ _ => split end.
  - eexists. split; [apply orderMoves_run|]. split; reflexivity.
  - etransitivity; [apply (partition_Permutation is_capture)|].
    now apply Permutation_app.
  - exact Hpc.
  - exact Hpo.
  - exact (Forall_Permutation_filter _ _ Hpc).
  - apply Forall_forall. intros m Hm.
    pose proof (Forall_Permutation_filter _ _ Hpo) as Hall.
    rewrite Forall_forall in Hall. specialize (Hall m Hm).
    now apply negb_true_iff in Hall.
  - intros k Hk. apply choices_of_nth. exact Hk.
  - intros k Hk. unfold jo. rewrite choices_of_nth by exact Hk. reflexivity.
  - intros rnd n Hu Hn. exact (floor_index_draw n Hu Hn).
  - intros rnd n j Hu Hn. now apply floor_index_of_interval.
  - intros Hu Hlen.
    pose proof (@filter_length_le Move is_capture moves) as Hlc.
    pose proof (@filter_length_le Move (fun m => negb (is_capture m)) moves) as Hlo.
    fold captures in Hlc. fold others in Hlo.
    split; apply choices_of_valid;
      try (apply unit_draws_drop); try exact Hu; unfold nc, no; lia.
  - intros Hnd orderC orderO HC HO.
    split; apply shuffleArray_bijective; auto; now apply NoDup_filter.
  - intros Hlen Hnd orderC orderO HC HO. now apply orderMoves_reaches.
Qed.

End OrderMoves.

(** ** The difficulty policy *)

Section Policy.
Context {G : Type} {E : RulesEngine G}.

Lemma nth_error_In_index {A} (l : list A) i :
  (i < List.length l)%nat -> exists x, nth_error l i = Some x /\ In x l.
Proof.
  intros Hi. destruct (nth_error l i) as [x|] eqn:Hx.
  - exists x. split; [reflexivity|]. eapply nth_error_In; eassumption.
  - apply nth_error_None in Hx. lia.
Qed.

Lemma getEasyMove_run (moves : list Move) (s : @QuickChess G) :
  let captures := filter is_capture moves in
  let rnd0 := random s 0%nat in
  let rnd1 := random s 1%nat in
  let chosen :=
    if (0 <? List.length captures)%nat then
      if JS.lt rnd0 JS.three_tenths
      then nth_error captures (JS.floor_index rnd1 (List.length captures))
      else nth_error moves (JS.floor_index rnd1 (List.length moves))
    else nth_error moves (JS.floor_index rnd0 (List.length moves)) in
  exists s', getEasyMove moves s = Return chosen s'
             /\ game s' = game s /\ nodeCount s' = nodeCount s.
Proof.
  intros captures rnd0 rnd1 chosen.
  unfold getEasyMove, randomElement, bind, Math_random, ret, below_0_3.
  fold captures. subst chosen. simpl.
  destruct (0 <? List.length captures)%nat.
  - fold rnd0 rnd1. destruct (JS.lt rnd0 JS.three_tenths);
      eexists; repeat split.
  - fold rnd0. eexists; repeat split.
Qed.

(** Every legal move comes out of [getEasyMove] for some draws of [0, 1),
    and every capture also after a first draw below [0.3]. *)
Lemma getEasyMove_reaches (moves : list Move) (g : G) (count : Z) (m : Move) :
  (Z.of_nat (List.length moves) < 2 ^ 52)%Z -> In m moves ->
  (exists draws s',
      unit_draws draws
      /\ getEasyMove moves (mkQuickChess g count draws) = Return (Some m) s')
  /\ (is_capture m = true ->
      exists draws s',
        unit_draws draws /\ JS.lt (draws 0%nat) JS.three_tenths = true
        /\ getEasyMove moves (mkQuickChess g count draws) = Return (Some m) s').
Proof.
  intros Hlen Hin.
  pose proof (@filter_length_le Move is_capture moves) as Hlc.
  split.
  - destruct (In_nth_error _ _ Hin) as (j & Hj).
    assert (Hjlt : (j < List.length moves)%nat)
      by (apply nth_error_Some; congruence).
    destruct (@draw_for_spec (List.length moves) j ltac:(lia) Hjlt) as [Hu Hf].
    set (r := draw_for (List.length moves) j) in *.
    set (draws := fun k : nat => match k with O => 0.5%float | S _ => r end).
    destruct (0 <? List.length (filter is_capture moves))%nat eqn:Hc.
    + exists draws.
      destruct (getEasyMove_run moves (mkQuickChess g count draws))
        as (s' & Hrun & _).
      cbn [random] in Hrun. rewrite Hc in Hrun.
      change (JS.lt (draws 0%nat) JS.three_tenths) with false in Hrun.
      change (draws 1%nat) with r in Hrun. rewrite Hf, Hj in Hrun.
      exists s'. split; [|exact Hrun].
      intros [|k]; [split; reflexivity | exact Hu].
    + exists (fun _ => r).
      destruct (getEasyMove_run moves (mkQuickChess g count (fun _ => r)))
        as (s' & Hrun & _).
      cbn [random] in Hrun. rewrite Hc, Hf, Hj in Hrun.
      exists s'. split; [|exact Hrun]. intros k. exact Hu.
  - intros Hcap.
    assert (Hinc : In m (filter is_capture moves))
      by (apply filter_In; split; assumption).
    destruct (In_nth_error _ _ Hinc) as (j & Hj).
    assert (Hjlt : (j < List.length (filter is_capture moves))%nat)
      by (apply nth_error_Some; congruence).
    destruct (@draw_for_spec (List.length (filter is_capture moves)) j
                ltac:(lia) Hjlt) as [Hu Hf].
    set (r := draw_for (List.length (filter is_capture moves)) j) in *.
    set (draws := fun k : nat => match k with O => 0.25%float | S _ => r end).
    exists draws.
    destruct (getEasyMove_run moves (mkQuickChess g count draws))
      as (s' & Hrun & _).
    cbn [random] in Hrun.
    replace (0 <? List.length (filter is_capture moves))%nat with true in Hrun
      by (symmetry; apply Nat.ltb_lt; lia).
    change (JS.lt (draws 0%nat) JS.three_tenths) with true in Hrun.
    change (draws 1%nat) with r in Hrun. rewrite Hf, Hj in Hrun.
    exists s'. split; [|split; [reflexivity | exact Hrun]].
    intros [|k]; [split; reflexivity | exact Hu].
Qed.

(** C6. The policy maps medium to [findBestMove(2)], hard to
    [findBestMove(3)], grandmaster to [findBestMove(4)], and easy to
    [getEasyMove], which runs no search. With [rnd0] and [rnd1] the next two
    draws of [Math.random()]: when a capture exists and [rnd0 < 0.3],
    [getEasyMove] returns the capture at index
    [Math.floor(rnd1 * captures.length)]; otherwise it returns the move at
    index [Math.floor(rnd * moves.length)] of the full list, [rnd] being the
    next draw. The draws below [0.3] are those whose value is below the
    binary64 literal, which is less than [2 ^ -56] below three tenths: an
    interval of draws of length 0.3. The index is uniform, up to the
    rounding of binary64: for a draw [r] of [0, 1) and a length [n], the
    index [j] is inside the list and [j * (1 - 2 ^ -53) <= r * n < j + 1],
    and every draw with [j <= r * n < (j + 1) * (1 - 2 ^ -53)] gives [j].
    With draws of [0, 1) and a non-empty list the result is a legal move, a
    capture in the first case; every legal move is returned for some draws
    of [0, 1), and every capture also after a first draw below [0.3]. The
    position is untouched. *)
Theorem difficulty_policy :
  (forall fuel possibleMoves,
      selectMove fuel easy possibleMoves = getEasyMove possibleMoves
      /\ selectMove fuel medium possibleMoves = findBestMove fuel 2
      /\ selectMove fuel hard possibleMoves = findBestMove fuel 3
      /\ selectMove fuel grandmaster possibleMoves = findBestMove fuel 4)
  /\ (forall (moves : list Move) (s : @QuickChess G),
         let captures := filter is_capture moves in
         let rnd0 := random s 0%nat in
         let rnd1 := random s 1%nat in
         let chosen :=
           if (0 <? List.length captures)%nat then
             if JS.lt rnd0 JS.three_tenths
             then nth_error captures (JS.floor_index rnd1 (List.length captures))
             else nth_error moves (JS.floor_index rnd1 (List.length moves))
           else nth_error moves (JS.floor_index rnd0 (List.length moves)) in
         (exists s', getEasyMove moves s = Return chosen s'
                     /\ game s' = game s /\ nodeCount s' = nodeCount s)
         /\ (unit_draws (random s) -> moves <> [] ->
             (Z.of_nat (List.length moves) < 2 ^ 53)%Z ->
             exists m, chosen = Some m /\ In m moves
                       /\ (captures <> [] ->
                           (JS.to_Q rnd0 < JS.to_Q JS.three_tenths)%Q ->
                           is_capture m = true)))
  /\ (forall rnd,
         JS.unit_draw rnd ->
         (JS.lt rnd JS.three_tenths = true
          <-> (JS.to_Q rnd < JS.to_Q JS.three_tenths)%Q))
  /\ ((JS.to_Q JS.three_tenths == 5404319552844595 # 18014398509481984)%Q
      /\ ((3 # 10) - (1 # 72057594037927936) < JS.to_Q JS.three_tenths)%Q
      /\ (JS.to_Q JS.three_tenths < 3 # 10)%Q)
  /\ (forall rnd n,
         JS.unit_draw rnd -> (1 <= Z.of_nat n < 2 ^ 53)%Z ->
         let j := JS.floor_index rnd n in
         (j < n)%nat
         /\ (inject_Z (Z.of_nat j) * (1 - JS.u)
             <= JS.to_Q rnd * inject_Z (Z.of_nat n))%Q
         /\ (JS.to_Q rnd * inject_Z (Z.of_nat n)
             < inject_Z (Z.of_nat j + 1))%Q)
  /\ (forall rnd n j,
         JS.unit_draw rnd -> (1 <= Z.of_nat n < 2 ^ 53)%Z ->
         (inject_Z (Z.of_nat j) <= JS.to_Q rnd * inject_Z (Z.of_nat n))%Q ->
         (JS.to_Q rnd * inject_Z (Z.of_nat n)
          < inject_Z (Z.of_nat j + 1) * (1 - JS.u))%Q ->
         JS.floor_index rnd n = j)
  /\ (forall (moves : list Move) (g : G) (count : Z) (m : Move),
         (Z.of_nat (List.length moves) < 2 ^ 52)%Z -> In m moves ->
         (exists draws s',
             unit_draws draws
             /\ getEasyMove moves (mkQuickChess g count draws)
                = Return (Some m) s')
         /\ (is_capture m = true ->
             exists draws s',
               unit_draws draws
               /\ JS.lt (draws 0%nat) JS.three_tenths = true
               /\ getEasyMove moves (mkQuickChess g count draws)
                  = Return (Some m) s')).
Proof.
  split; [|split; [|split; [|split; [|split; [|split]]]]].
  - intros fuel possibleMoves. repeat split.
  - intros moves s captures rnd0 rnd1 chosen. split.
    + apply getEasyMove_run.
    + intros Hu Hne Hlen.
      assert (Hlm : (0 < List.length moves)%nat)
        by (destruct moves; [congruence | simpl; lia]).
      pose proof (@filter_length_le Move is_capture moves) as Hlc.
      fold captures in Hlc. subst chosen.
      destruct (Nat.ltb_spec 0 (List.length captures)) as [Hc | Hc].
      * destruct (JS.lt rnd0 JS.three_tenths) eqn:Hb.
        -- destruct (nth_error_In_index captures
                       (@floor_index_lt rnd1 (List.length captures)
                          (Hu 1%nat) ltac:(lia)))
             as (m & Hm & Hin).
           exists m. split; [exact Hm|]. apply filter_In in Hin.
           destruct Hin as [Hin Hcap]. auto.
        -- destruct (nth_error_In_index moves
                       (@floor_index_lt rnd1 (List.length moves)
                          (Hu 1%nat) ltac:(lia)))
             as (m & Hm & Hin).
           exists m. split; [exact Hm|]. split; [exact Hin|].
           intros _ Hlt. apply (lt_three_tenths (Hu 0%nat)) in Hlt.
           fold rnd0 in Hlt. congruence.
      * destruct (nth_error_In_index moves
                    (@floor_index_lt rnd0 (List.length moves)
                       (Hu 0%nat) ltac:(lia)))
          as (m & Hm & Hin).
        exists m. split; [exact Hm|]. split; [exact Hin|].
        intros Hcne. destruct captures; [congruence | simpl in Hc; lia].
  - intros rnd Hu. now apply lt_three_tenths.
  - exact three_tenths_value.
  - intros rnd n Hu Hn. exact (floor_index_draw n Hu Hn).
  - intros rnd n j Hu Hn. now apply floor_index_of_interval.
  - intros moves g count m. apply getEasyMove_reaches.
Qed.

End Policy.

(** ** The search and the position *)

Section SearchRuns.
Context {G : Type} {E : RulesEngine G}.

Lemma call_Return {A} (f : G -> A) (s : @QuickChess G) a s' :
  call f s = Return a s' ->
  a = f (game s) /\ s' = s /\ engine_fails (game s) = false.
Proof.
  unfold call. destruct (engine_fails (game s)); [discriminate|].
  intros H. injection H as <- <-. auto.
Qed.

Lemma call_Throw {A} (f : G -> A) (s : @QuickChess G) s' :
  call f s = Throw s' -> s' = s /\ engine_fails (game s) = true.
Proof.
  unfold call. destruct (engine_fails (game s)); [|discriminate].
  intros H. injection H as <-. auto.
Qed.

Lemma move_Return m (s : @QuickChess G) res s' :
  move_ m s = Return res s' ->
  engine_fails (game s) = false /\
  match game_move m (game s) with
  | Some g' => res = true /\ s' = mkQuickChess g' (nodeCount s) (random s)
  | None => res = false /\ s' = s
  end.
Proof.
  unfold move_. destruct (engine_fails (game s)); [discriminate|].
  destruct (game_move m (game s)); intros H; injection H as <- <-; auto.
Qed.

Lemma move_Throw m (s : @QuickChess G) s' :
  move_ m s = Throw s' -> s' = s /\ engine_fails (game s) = true.
Proof.
  unfold move_. destruct (engine_fails (game s)).
  - intros H. injection H as <-. auto.
  - destruct (game_move m (game s)); discriminate.
Qed.

Lemma undo_Return (s : @QuickChess G) u s' :
  undo_ s = Return u s' ->
  s' = mkQuickChess (game_undo (game s)) (nodeCount s) (random s).
Proof.
  unfold undo_. destruct (engine_fails (game s)); [discriminate|].
  intros H. now injection H as _ <-.
Qed.

Lemma undo_Throw (s : @QuickChess G) s' :
  undo_ s = Throw s' -> s' = s /\ engine_fails (game s) = true.
Proof.
  unfold undo_. destruct (engine_fails (game s)); [|discriminate].
  intros H. injection H as <-. auto.
Qed.

Lemma countNode_run (s : @QuickChess G) :
  countNode s = Return tt (mkQuickChess (game s) (nodeCount s + 1) (random s)).
Proof.
  unfold countNode, yield, ret. simpl. now destruct (_ =? 0)%Z.
Qed.

End SearchRuns.

Section SearchInversion.
Context {G : Type} {E : RulesEngine G}.
Hypothesis Hundo : undo_restores.

Lemma for_of_returns {A S} (g : G) (xs : list A)
  (body : A -> S -> @M G (Flow * S)) (bodyP : A -> S -> Flow * S) :
  (forall x v, In x xs -> returns_at g (body x v) (bodyP x v)) ->
  forall v, returns_at g (for_of xs body v) (for_pure xs bodyP v).
Proof.
  induction xs as [|x xs IH]; intros Hbody v s r s' Hg Hrun; simpl in *.
  - injection Hrun as <- <-. auto.
  - apply bind_Return in Hrun. destruct Hrun as ([fl v1] & s1 & Hb & Hk).
    destruct (Hbody x v (or_introl eq_refl) s _ _ Hg Hb) as (Hr & Hg1 & Hd1).
    rewrite <- Hr. destruct fl.
    + rewrite <- Hd1. apply (IH (fun y w Hy => Hbody y w (or_intror Hy)) v1 s1);
        assumption.
    + injection Hk as <- <-. auto.
Qed.

(** One applied move, a call in the position it leads to, and the undo. *)
Lemma applied_returns {A} (g g' : G) (m : Move) (c : @M G A) (v : A)
  (s : @QuickChess G) a s2 u s3 :
  game_move m g = Some g' ->
  returns_at g' c v ->
  game s = g ->
  c (mkQuickChess g' (nodeCount s) (random s)) = Return a s2 ->
  undo_ s2 = Return u s3 ->
  a = v /\ game s3 = g /\ random s3 = random s.
Proof.
  intros Hm Hc Hg Hrun Hu.
  destruct (Hc (mkQuickChess g' (nodeCount s) (random s)) a s2 eq_refl Hrun)
    as (-> & Hg2 & Hd2).
  apply undo_Return in Hu. subst s3. simpl. rewrite Hg2.
  split; [reflexivity|]. split; [now apply (Hundo _ _ Hm) | exact Hd2].
Qed.

Lemma maxStep_returns (g : G) rec recP beta move vars :
  (forall g' a b', returns_at g' (rec a b') (recP a b' g')) ->
  returns_at g (maxStep rec beta move vars) (maxStepPure recP beta g move vars).
Proof.
  intros Hrec s r s' Hg Hrun. unfold maxStep, maxStepPure in *.
  destruct vars as [maxEval alpha].
  apply bind_Return in Hrun. destruct Hrun as (res & s1 & Hm & Hk).
  apply move_Return in Hm. destruct Hm as [_ Hm]. rewrite Hg in Hm.
  destruct (game_move move g) as [g'|] eqn:Hgm.
  - destruct Hm as [-> ->].
    apply bind_Return in Hk. destruct Hk as (ev & s2 & Hr & Hk).
    apply bind_Return in Hk. destruct Hk as (u & s3 & Hu & Hk).
    destruct (@applied_returns _ g g' move _ _ s _ _ _ _ Hgm (Hrec g' alpha beta) Hg Hr Hu)
      as (-> & Hg3 & Hd3).
    destruct (JS.le _ _); injection Hk as <- <-; auto.
  - destruct Hm as [-> ->]. injection Hk as <- <-. auto.
Qed.

Lemma minStep_returns (g : G) rec recP alpha move vars :
  (forall g' a b', returns_at g' (rec a b') (recP a b' g')) ->
  returns_at g (minStep rec alpha move vars) (minStepPure recP alpha g move vars).
Proof.
  intros Hrec s r s' Hg Hrun. unfold minStep, minStepPure in *.
  destruct vars as [minEval beta].
  apply bind_Return in Hrun. destruct Hrun as (res & s1 & Hm & Hk).
  apply move_Return in Hm. destruct Hm as [_ Hm]. rewrite Hg in Hm.
  destruct (game_move move g) as [g'|] eqn:Hgm.
  - destruct Hm as [-> ->].
    apply bind_Return in Hk. destruct Hk as (ev & s2 & Hr & Hk).
    apply bind_Return in Hk. destruct Hk as (u & s3 & Hu & Hk).
    destruct (@applied_returns _ g g' move _ _ s _ _ _ _ Hgm (Hrec g' alpha beta) Hg Hr Hu)
      as (-> & Hg3 & Hd3).
    destruct (JS.le _ _); injection Hk as <- <-; auto.
  - destruct Hm as [-> ->]. injection Hk as <- <-. auto.
Qed.

Lemma call_returns {A} (g : G) (f : G -> A) : returns_at g (call f) (f g).
Proof.
  intros s a s' Hg Hrun. apply call_Return in Hrun.
  destruct Hrun as (-> & -> & _). subst g. auto.
Qed.

(** [minimax] computes [alphabeta] and gives the position back. *)
Lemma minimax_returns (fuel : nat) :
  forall depth alpha beta isMaximizing g,
    (0 <= depth)%Z ->
    returns_at g (minimax fuel depth alpha beta isMaximizing)
      (alphabeta (Z.to_nat depth) alpha beta isMaximizing g).
Proof.
  induction fuel as [|fuel IH]; intros depth alpha beta isMaximizing g Hd;
    intros s r s' Hg Hrun; [discriminate|].
  simpl in Hrun.
  apply bind_Return in Hrun. destruct Hrun as (u & s1 & Hc & Hk).
  rewrite countNode_run in Hc. injection Hc as _ <-.
  assert (Hg1 : game (mkQuickChess (game s) (nodeCount s + 1) (random s)) = g)
    by exact Hg.
  set (s1 := mkQuickChess (game s) (nodeCount s + 1) (random s)) in *.
  assert (Hd1 : random s1 = random s) by reflexivity.
  rewrite <- Hd1.
  destruct (Z.eqb_spec depth 0) as [-> | Hnz].
  - change (call evaluatePosition s1 = Return r s') in Hk.
    exact (@call_returns _ _ evaluatePosition _ _ _ Hg1 Hk).
  - replace (Z.to_nat depth) with (S (Z.to_nat (depth - 1))) by lia.
    simpl alphabeta.
    apply bind_Return in Hk. destruct Hk as (terminal & s2 & Ht & Hk).
    destruct (@call_returns _ _ game_over _ _ _ Hg1 Ht) as (-> & Hg2 & Hd2).
    rewrite <- Hd2.
    destruct (game_over g).
    { exact (@call_returns _ _ evaluatePosition _ _ _ Hg2 Hk). }
    apply bind_Return in Hk. destruct Hk as (moves & s3 & Hm & Hk).
    destruct (@call_returns _ _ game_moves _ _ _ Hg2 Hm) as (-> & Hg3 & Hd3).
    rewrite <- Hd3.
    destruct (List.length (game_moves g) =? 0)%nat.
    { exact (@call_returns _ _ evaluatePosition _ _ _ Hg3 Hk). }
    assert (Hrec : forall mx g' a b',
               returns_at g' (minimax fuel (depth - 1) a b' mx)
                 (alphabeta (Z.to_nat (depth - 1)) a b' mx g')).
    { intros mx g' a b'. apply IH. lia. }
    destruct isMaximizing.
    + apply bind_Return in Hk. destruct Hk as (res & s4 & Hl & Hk).
      injection Hk as <- <-.
      destruct (@for_of_returns _ _ g _ _
                  (maxStepPure
                     (fun a b' g' =>
                        alphabeta (Z.to_nat (depth - 1)) a b' false g')
                     beta g)
                  (fun x v _ => @maxStep_returns g _ _ beta x v
                                  (fun g' => Hrec false g'))
                  _ _ _ _ Hg3 Hl) as (-> & Hg4 & Hd4).
      auto.
    + apply bind_Return in Hk. destruct Hk as (res & s4 & Hl & Hk).
      injection Hk as <- <-.
      destruct (@for_of_returns _ _ g _ _
                  (minStepPure
                     (fun a b' g' =>
                        alphabeta (Z.to_nat (depth - 1)) a b' true g')
                     alpha g)
                  (fun x v _ => @minStep_returns g _ _ alpha x v
                                  (fun g' => Hrec true g'))
                  _ _ _ _ Hg3 Hl) as (-> & Hg4 & Hd4).
      auto.
Qed.

End SearchInversion.

Section SearchFrame.
Context {G : Type} {E : RulesEngine G}.
Hypothesis Hundo : undo_restores.

Lemma for_of_restores {A S} (g : G) (xs : list A)
  (body : A -> S -> @M G (Flow * S)) :
  (forall x v, In x xs -> restores_at g (body x v)) ->
  forall v, restores_at g (for_of xs body v).
Proof.
  induction xs as [|x xs IH]; intros Hbody v s r s' Hg Hrun; simpl in *.
  - now injection Hrun as _ <-.
  - apply bind_Return in Hrun. destruct Hrun as ([fl v1] & s1 & Hb & Hk).
    pose proof (Hbody x v (or_introl eq_refl) s _ _ Hg Hb) as Hg1.
    destruct fl.
    + exact (IH (fun y w Hy => Hbody y w (or_intror Hy)) v1 s1 _ _ Hg1 Hk).
    + now injection Hk as _ <-.
Qed.

Lemma for_of_throws {A S} (g : G) (xs : list A)
  (body : A -> S -> @M G (Flow * S)) (P : @QuickChess G -> Prop) :
  (forall x v, In x xs -> restores_at g (body x v)) ->
  (forall x v, In x xs -> throws_into g (body x v) P) ->
  forall v, throws_into g (for_of xs body v) P.
Proof.
  induction xs as [|x xs IH]; intros Hret Hthr v s s' Hg Hrun; simpl in *.
  - discriminate.
  - apply bind_Throw in Hrun.
    destruct Hrun as [Hb | ([fl v1] & s1 & Hb & Hk)].
    + exact (Hthr x v (or_introl eq_refl) s s' Hg Hb).
    + pose proof (Hret x v (or_introl eq_refl) s _ _ Hg Hb) as Hg1.
      destruct fl; [|discriminate].
      exact (IH (fun y w Hy => Hret y w (or_intror Hy))
                (fun y w Hy => Hthr y w (or_intror Hy)) v1 s1 s' Hg1 Hk).
Qed.

Lemma step_restores (g : G) (rec : float -> float -> @M G float)
  (move : Move) (a0 b0 : float)
  (k : float -> @M G (Flow * (float * float))) r0 :
  (forall g' a b', restores_at g' (rec a b')) ->
  (forall ev s r s', k ev s = Return r s' -> s' = s) ->
  restores_at g (moveResult <- move_ move ;;
                 if moveResult
                 then (eval_score <- rec a0 b0 ;; undo_ ;;; k eval_score)
                 else ret r0).
Proof.
  intros Hrec Hk s r s' Hg Hrun.
  apply bind_Return in Hrun. destruct Hrun as (res & s1 & Hm & Hrun).
  apply move_Return in Hm. destruct Hm as [_ Hm]. rewrite Hg in Hm.
  destruct (game_move move g) as [g'|] eqn:Hgm.
  - destruct Hm as [-> ->].
    apply bind_Return in Hrun. destruct Hrun as (ev & s2 & Hr & Hrun).
    apply bind_Return in Hrun. destruct Hrun as (u & s3 & Hu & Hrun).
    apply Hk in Hrun. subst s'. apply undo_Return in Hu. subst s3. simpl.
    rewrite (Hrec g' a0 b0 (mkQuickChess g' (nodeCount s) (random s)) _ _
               eq_refl Hr).
    now apply (Hundo _ _ Hgm).
  - destruct Hm as [-> ->]. now injection Hrun as _ <-.
Qed.

Lemma step_throws (g : G) (rec : float -> float -> @M G float)
  (move : Move) (a0 b0 : float)
  (k : float -> @M G (Flow * (float * float))) r0 :
  (forall g' a b', restores_at g' (rec a b')) ->
  (forall g' a b',
      throws_into g' (rec a b') (fun s' => exists path, stuck_at g' s' path)) ->
  (forall ev s s', k ev s <> Throw s') ->
  throws_into g (moveResult <- move_ move ;;
                 if moveResult
                 then (eval_score <- rec a0 b0 ;; undo_ ;;; k eval_score)
                 else ret r0)
    (fun s' => exists path, stuck_at g s' path).
Proof.
  intros Hres Hthr Hk s s' Hg Hrun.
  apply bind_Throw in Hrun. destruct Hrun as [Hm | (res & s1 & Hm & Hrun)].
  - apply move_Throw in Hm. destruct Hm as [-> Hf].
    exists []. split; [simpl; now rewrite Hg | exact Hf].
  - apply move_Return in Hm. destruct Hm as [_ Hm]. rewrite Hg in Hm.
    destruct (game_move move g) as [g'|] eqn:Hgm.
    + destruct Hm as [-> ->].
      apply bind_Throw in Hrun. destruct Hrun as [Hr | (ev & s2 & Hr & Hrun)].
      * destruct (Hthr g' a0 b0 (mkQuickChess g' (nodeCount s) (random s)) _
                    eq_refl Hr) as (path & Hp & Hf).
        exists (move :: path). split; [simpl; now rewrite Hgm | exact Hf].
      * pose proof (Hres g' a0 b0 (mkQuickChess g' (nodeCount s) (random s)) _ _
                      eq_refl Hr) as Hg2.
        apply bind_Throw in Hrun. destruct Hrun as [Hu | (u & s3 & Hu & Hrun)].
        -- apply undo_Throw in Hu. destruct Hu as [-> Hf].
           exists [move]. split; [simpl; now rewrite Hgm, Hg2 | exact Hf].
        -- now apply Hk in Hrun.
    + destruct Hm as [-> ->]. discriminate.
Qed.

Lemma maxStep_unfold rec beta move maxEval alpha :
  maxStep (G := G) rec beta move (maxEval, alpha) =
  (moveResult <- move_ move ;;
   if moveResult
   then (eval_score <- rec alpha beta ;; undo_ ;;;
         (fun ev =>
            if JS.le beta (JS.Math_max alpha ev)
            then ret (Break, (JS.Math_max maxEval ev, JS.Math_max alpha ev))
            else ret (Continue, (JS.Math_max maxEval ev, JS.Math_max alpha ev)))
           eval_score)
   else ret (Continue, (maxEval, alpha))).
Proof. reflexivity. Qed.

Lemma minStep_unfold rec alpha move minEval beta :
  minStep (G := G) rec alpha move (minEval, beta) =
  (moveResult <- move_ move ;;
   if moveResult
   then (eval_score <- rec alpha beta ;; undo_ ;;;
         (fun ev =>
            if JS.le (JS.Math_min beta ev) alpha
            then ret (Break, (JS.Math_min minEval ev, JS.Math_min beta ev))
            else ret (Continue, (JS.Math_min minEval ev, JS.Math_min beta ev)))
           eval_score)
   else ret (Continue, (minEval, beta))).
Proof. reflexivity. Qed.

Lemma tail_returns {S} (c : bool) (x y : S) (s : @QuickChess G) r s' :
  (if c then ret x else ret y) s = Return r s' -> s' = s.
Proof. destruct c; intros H; now injection H as _ <-. Qed.

Lemma tail_no_throw {S} (c : bool) (x y : S) (s s' : @QuickChess G) :
  (if c then ret x else ret y) s <> Throw s'.
Proof. destruct c; discriminate. Qed.

Lemma maxStep_restores g rec beta move vars :
  (forall g' a b', restores_at g' (rec a b')) ->
  restores_at g (maxStep rec beta move vars).
Proof.
  intros Hrec. destruct vars as [maxEval alpha]. rewrite maxStep_unfold.
  apply step_restores; [exact Hrec|]. intros ev s r s'. apply tail_returns.
Qed.

Lemma minStep_restores g rec alpha move vars :
  (forall g' a b', restores_at g' (rec a b')) ->
  restores_at g (minStep rec alpha move vars).
Proof.
  intros Hrec. destruct vars as [minEval beta]. rewrite minStep_unfold.
  apply step_restores; [exact Hrec|]. intros ev s r s'. apply tail_returns.
Qed.

Lemma maxStep_throws g rec beta move vars :
  (forall g' a b', restores_at g' (rec a b')) ->
  (forall g' a b',
      throws_into g' (rec a b') (fun s' => exists path, stuck_at g' s' path)) ->
  throws_into g (maxStep rec beta move vars)
    (fun s' => exists path, stuck_at g s' path).
Proof.
  intros Hres Hthr. destruct vars as [maxEval alpha]. rewrite maxStep_unfold.
  apply step_throws; [exact Hres | exact Hthr|].
  intros ev s s'. apply tail_no_throw.
Qed.

Lemma minStep_throws g rec alpha move vars :
  (forall g' a b', restores_at g' (rec a b')) ->
  (forall g' a b',
      throws_into g' (rec a b') (fun s' => exists path, stuck_at g' s' path)) ->
  throws_into g (minStep rec alpha move vars)
    (fun s' => exists path, stuck_at g s' path).
Proof.
  intros Hres Hthr. destruct vars as [minEval beta]. rewrite minStep_unfold.
  apply step_throws; [exact Hres | exact Hthr|].
  intros ev s s'. apply tail_no_throw.
Qed.

(** [minimax] gives the position back when it returns, at any depth. *)
Lemma minimax_restores (fuel : nat) :
  forall depth alpha beta isMaximizing g,
    restores_at g (minimax fuel depth alpha beta isMaximizing).
Proof.
  induction fuel as [|fuel IH]; intros depth alpha beta isMaximizing g;
    intros s r s' Hg Hrun; [discriminate|].
  simpl in Hrun.
  apply bind_Return in Hrun. destruct Hrun as (u & s1 & Hc & Hk).
  rewrite countNode_run in Hc. injection Hc as _ <-.
  set (s1 := mkQuickChess (game s) (nodeCount s + 1) (random s)) in *.
  assert (Hg1 : game s1 = g) by exact Hg.
  assert (Hcall : forall A (f : G -> A) (sa : @QuickChess G) a sb,
             game sa = g -> call f sa = Return a sb -> game sb = g).
  { intros A f sa a sb Hsa Hr. apply call_Return in Hr.
    now destruct Hr as (_ & -> & _). }
  apply bind_Return in Hk. destruct Hk as (terminal & s2 & Ht & Hk).
  assert (Hg2 : game s2 = g).
  { destruct (depth =? 0)%Z; [now injection Ht as _ <- | eapply Hcall; eauto]. }
  destruct terminal; [eapply Hcall; eauto|].
  apply bind_Return in Hk. destruct Hk as (moves & s3 & Hm & Hk).
  pose proof (Hcall _ _ _ _ _ Hg2 Hm) as Hg3.
  destruct (List.length moves =? 0)%nat; [eapply Hcall; eauto|].
  destruct isMaximizing;
    apply bind_Return in Hk; destruct Hk as (res & s4 & Hl & Hk);
    injection Hk as _ <-.
  - eapply for_of_restores; [|exact Hg3|exact Hl].
    intros x v _. apply maxStep_restores. intros g' a b'. apply IH.
  - eapply for_of_restores; [|exact Hg3|exact Hl].
    intros x v _. apply minStep_restores. intros g' a b'. apply IH.
Qed.

(** When [minimax] throws, the moves on the way to the failing call are
    still applied. *)
Lemma minimax_throws (fuel : nat) :
  forall depth alpha beta isMaximizing g,
    throws_into g (minimax fuel depth alpha beta isMaximizing)
      (fun s' => exists path, stuck_at g s' path).
Proof.
  induction fuel as [|fuel IH]; intros depth alpha beta isMaximizing g;
    intros s s' Hg Hrun; [discriminate|].
  simpl in Hrun.
  assert (Hcall : forall A (f : G -> A) (sa sb : @QuickChess G),
             game sa = g -> call f sa = Throw sb ->
             exists path, stuck_at g sb path).
  { intros A f sa sb Hsa Hr. apply call_Throw in Hr. destruct Hr as [-> Hf].
    exists []. split; [simpl; now rewrite Hsa | exact Hf]. }
  assert (Hcallr : forall A (f : G -> A) (sa : @QuickChess G) a sb,
             game sa = g -> call f sa = Return a sb -> game sb = g).
  { intros A f sa a sb Hsa Hr. apply call_Return in Hr.
    now destruct Hr as (_ & -> & _). }
  apply bind_Throw in Hrun. destruct Hrun as [Hc | (u & s1 & Hc & Hk)];
    [rewrite countNode_run in Hc; discriminate|].
  rewrite countNode_run in Hc. injection Hc as _ <-.
  set (s1 := mkQuickChess (game s) (nodeCount s + 1) (random s)) in *.
  assert (Hg1 : game s1 = g) by exact Hg.
  apply bind_Throw in Hk. destruct Hk as [Ht | (terminal & s2 & Ht & Hk)].
  { destruct (depth =? 0)%Z; [discriminate | eapply Hcall; eauto]. }
  assert (Hg2 : game s2 = g).
  { destruct (depth =? 0)%Z; [now injection Ht as _ <- | eapply Hcallr; eauto]. }
  destruct terminal; [eapply Hcall; eauto|].
  apply bind_Throw in Hk. destruct Hk as [Hm | (moves & s3 & Hm & Hk)];
    [eapply Hcall; eauto|].
  pose proof (Hcallr _ _ _ _ _ Hg2 Hm) as Hg3.
  destruct (List.length moves =? 0)%nat; [eapply Hcall; eauto|].
  destruct isMaximizing;
    (apply bind_Throw in Hk; destruct Hk as [Hl | (res & s4 & Hl & Hk)];
     [|discriminate]).
  - refine (@for_of_throws _ _ g moves _
              (fun s' => exists path, stuck_at g s' path) _ _ _ s3 s' Hg3 Hl).
    + intros x v _. apply maxStep_restores. intros g' a b'.
      apply minimax_restores.
    + intros x v _. apply maxStep_throws.
      * intros g' a b'. apply minimax_restores.
      * intros g' a b'. apply IH.
  - refine (@for_of_throws _ _ g moves _
              (fun s' => exists path, stuck_at g s' path) _ _ _ s3 s' Hg3 Hl).
    + intros x v _. apply minStep_restores. intros g' a b'.
      apply minimax_restores.
    + intros x v _. apply minStep_throws.
      * intros g' a b'. apply minimax_restores.
      * intros g' a b'. apply IH.
Qed.

(** *** The loop of [findBestMove] *)

Lemma rootStep_restores g fuel depth beta move vars :
  game_move move g <> None ->
  restores_at g (rootStep fuel depth beta move vars).
Proof.
  intros Hlegal s r s' Hg Hrun. unfold rootStep in Hrun.
  apply bind_Return in Hrun. destruct Hrun as (res & s1 & Hm & Hrun).
  apply move_Return in Hm. destruct Hm as [_ Hm]. rewrite Hg in Hm.
  destruct (game_move move g) as [g'|] eqn:Hgm; [|congruence].
  destruct Hm as [-> ->].
  apply bind_Return in Hrun. destruct Hrun as (v & s2 & Hr & Hrun).
  apply bind_Return in Hrun. destruct Hrun as (u & s3 & Hu & Hrun).
  apply tail_returns in Hrun. subst s'. apply undo_Return in Hu. subst s3.
  simpl.
  rewrite (@minimax_restores fuel (depth - 1) (- beta) (- alpha vars) false g'
             (mkQuickChess g' (nodeCount s) (random s)) _ _ eq_refl Hr).
  now apply (Hundo _ _ Hgm).
Qed.

Lemma rootStep_throws g fuel depth beta move vars :
  engine_fails g = false ->
  game_move move g <> None ->
  throws_into g (rootStep fuel depth beta move vars)
    (fun s' => exists path, path <> [] /\ stuck_at g s' path).
Proof.
  intros Hok Hlegal s s' Hg Hrun. unfold rootStep in Hrun.
  apply bind_Throw in Hrun. destruct Hrun as [Hm | (res & s1 & Hm & Hrun)].
  { apply move_Throw in Hm. destruct Hm as [_ Hf]. congruence. }
  apply move_Return in Hm. destruct Hm as [_ Hm]. rewrite Hg in Hm.
  destruct (game_move move g) as [g'|] eqn:Hgm; [|congruence].
  destruct Hm as [-> ->].
  apply bind_Throw in Hrun. destruct Hrun as [Hr | (v & s2 & Hr & Hrun)].
  - destruct (@minimax_throws fuel (depth - 1) (- beta) (- alpha vars) false g'
                (mkQuickChess g' (nodeCount s) (random s)) _ eq_refl Hr)
      as (path & Hp & Hf).
    exists (move :: path). split; [discriminate|].
    split; [simpl; now rewrite Hgm | exact Hf].
  - pose proof (@minimax_restores fuel (depth - 1) (- beta) (- alpha vars) false
                  g' (mkQuickChess g' (nodeCount s) (random s)) _ _ eq_refl Hr)
      as Hg2.
    apply bind_Throw in Hrun. destruct Hrun as [Hu | (u & s3 & Hu & Hrun)].
    + apply undo_Throw in Hu. destruct Hu as [-> Hf].
      exists [move]. split; [discriminate|].
      split; [simpl; now rewrite Hgm, Hg2 | exact Hf].
    + now apply tail_no_throw in Hrun.
Qed.

Lemma orderMoves_In (moves : list Move) (s : @QuickChess G) ordered s' :
  orderMoves moves s = Return ordered s' ->
  ordered = orderMovesPure moves (random s) /\ game s' = game s
  /\ forall m, In m ordered -> In m moves.
Proof.
  intros Hrun. pose proof (orderMoves_Permutation _ _ Hrun) as Hperm.
  rewrite orderMoves_run in Hrun. injection Hrun as <- <-.
  repeat split. intros m Hm.
  eapply Permutation_in; [symmetry; exact Hperm | exact Hm].
Qed.

Hypothesis Hlegal : legal_moves_apply.

Lemma findBestMove_restores fuel depth g :
  restores_at g (findBestMove fuel depth).
Proof.
  intros s mv s' Hg Hrun. unfold findBestMove in Hrun.
  apply bind_Return in Hrun. destruct Hrun as (moves & s1 & Hm & Hrun).
  apply call_Return in Hm. destruct Hm as (-> & -> & _).
  destruct (List.length (game_moves (game s)) =? 0)%nat.
  { now injection Hrun as _ <-. }
  apply bind_Return in Hrun. destruct Hrun as (ordered & s2 & Ho & Hrun).
  apply orderMoves_In in Ho. destruct Ho as (_ & Hg2 & Hin).
  apply bind_Return in Hrun. destruct Hrun as (res & s3 & Hl & Hrun).
  injection Hrun as _ <-.
  rewrite Hg in Hg2, Hin.
  refine (@for_of_restores _ _ g ordered _ _ _ s2 _ _ Hg2 Hl).
  intros x v Hx. apply rootStep_restores. apply Hlegal. auto.
Qed.

Lemma findBestMove_throws fuel depth g :
  engine_fails g = false ->
  throws_into g (findBestMove fuel depth)
    (fun s' => exists path, path <> [] /\ stuck_at g s' path).
Proof.
  intros Hok s s' Hg Hrun. unfold findBestMove in Hrun.
  apply bind_Throw in Hrun. destruct Hrun as [Hm | (moves & s1 & Hm & Hrun)].
  { apply call_Throw in Hm. destruct Hm as [_ Hf]. congruence. }
  apply call_Return in Hm. destruct Hm as (-> & -> & _).
  destruct (List.length (game_moves (game s)) =? 0)%nat; [discriminate|].
  apply bind_Throw in Hrun. destruct Hrun as [Ho | (ordered & s2 & Ho & Hrun)].
  { rewrite orderMoves_run in Ho. discriminate. }
  apply orderMoves_In in Ho. destruct Ho as (_ & Hg2 & Hin).
  apply bind_Throw in Hrun. destruct Hrun as [Hl | (res & s3 & Hl & Hrun)];
    [|discriminate].
  rewrite Hg in Hg2, Hin.
  refine (@for_of_throws _ _ g ordered _
            (fun s' => exists path, path <> [] /\ stuck_at g s' path)
            _ _ _ s2 s' Hg2 Hl).
  - intros x v Hx. apply rootStep_restores. apply Hlegal. auto.
  - intros x v Hx. apply rootStep_throws; [exact Hok|]. apply Hlegal. auto.
Qed.

End SearchFrame.

(** ** The contract of the miniature engine *)

Module MiniatureFacts.
Import Miniature.

Lemma sameMove_refl (m : Move) : sameMove m m = true.
Proof.
  unfold sameMove. rewrite !String.eqb_refl. simpl.
  destruct (promotion m) as [t|]; [now destruct t | reflexivity].
Qed.

Lemma undo_restores_engine fails : @undo_restores Game (engine fails).
Proof.
  intros g m g' Hm. unfold game_move, game_undo, engine in *.
  match type of Hm with
  | context [find ?f ?l] => destruct (find f l) as [e|]
  end; [|discriminate Hm].
  injection Hm as <-. simpl. now destruct g.
Qed.

Lemma legal_moves_apply_engine fails : @legal_moves_apply Game (engine fails).
Proof.
  intros g m Hin Hnone. unfold game_move, game_moves, engine in *.
  apply in_map_iff in Hin. destruct Hin as (e & <- & He).
  match type of Hnone with
  | context [find ?f ?l] => destruct (find f l) as [e'|] eqn:Hf
  end; [discriminate Hnone|].
  pose proof (find_none _ _ Hf e He) as Hno. simpl in Hno.
  now rewrite sameMove_refl in Hno.
Qed.

Lemma never_fails_sound : @never_fails Game sound.
Proof. intros g. reflexivity. Qed.

(** The king's step, listed first, is accepted in every position. *)
Lemma first_move_applies fails (g : Game) :
  exists m rest g',
    game_moves (RulesEngine := engine fails) g = m :: rest
    /\ game_move (RulesEngine := engine fails) m g = Some g'.
Proof.
  unfold game_moves, game_move, engine, movesOf.
  destruct (side (current g)); cbv zeta; cbn [map find fst];
    do 3 eexists; (split; [reflexivity|]);
    rewrite sameMove_refl; reflexivity.
Qed.

(** The depth is what bounds the search: below depth 0 the base case
    never fires, and on an engine whose game never ends [minimax]
    exhausts any fuel. *)
Lemma minimax_negative_depth (fuel : nat) :
  forall depth alpha beta isMaximizing (s : @QuickChess Game),
    (depth < 0)%Z ->
    minimax (E := sound) fuel depth alpha beta isMaximizing s = OutOfFuel.
Proof.
  induction fuel as [|fuel IH]; intros depth alpha beta isMaximizing s Hd;
    [reflexivity|].
  cbn [minimax]. unfold bind at 1. rewrite countNode_run.
  destruct (Z.eqb_spec depth 0) as [Hz | _]; [lia|].
  unfold bind at 1. unfold call at 1. cbn [engine_fails sound engine game].
  cbn [game_over sound engine].
  unfold bind at 1. unfold call at 1. cbn [engine_fails sound engine game].
  destruct (first_move_applies (fun _ => false) (game s))
    as (m & rest & g' & Hmoves & Hmove).
  change (game_moves (RulesEngine := sound) (game s)) with
    (game_moves (RulesEngine := engine (fun _ => false)) (game s)).
  rewrite Hmoves. cbn [List.length Nat.eqb].
  assert (Hstep : forall (rec : float -> float -> @M Game float) v,
             (forall a b' s1, rec a b' s1 = OutOfFuel) ->
             forall (step : (float -> float -> @M Game float) -> float ->
                            Move -> float * float ->
                            @M Game (Flow * (float * float))) bound,
               (step = maxStep (E := sound) \/ step = minStep (E := sound)) ->
               for_of (m :: rest) (step rec bound) v
                 (mkQuickChess (game s) (nodeCount s + 1) (random s))
               = OutOfFuel).
  { intros rec [x y] Hrec step bound Hwhich. cbn [for_of]. unfold bind at 1.
    assert (Hbody : step rec bound m (x, y)
                      (mkQuickChess (game s) (nodeCount s + 1) (random s))
                    = OutOfFuel).
    { destruct Hwhich as [-> | ->]; [unfold maxStep | unfold minStep];
        unfold bind at 1; unfold move_;
        cbn [engine_fails sound engine game];
        change (game_move (RulesEngine := sound) m (game s)) with
          (game_move (RulesEngine := engine (fun _ => false)) m (game s));
        rewrite Hmove; unfold bind at 1; now rewrite Hrec. }
    now rewrite Hbody. }
  destruct isMaximizing; unfold bind at 1.
  - rewrite (Hstep _ _ (fun a b' s1 => IH (depth - 1)%Z a b' false s1 ltac:(lia))
               maxStep beta (or_introl eq_refl)).
    reflexivity.
  - rewrite (Hstep _ _ (fun a b' s1 => IH (depth - 1)%Z a b' true s1 ltac:(lia))
               minStep alpha (or_intror eq_refl)).
    reflexivity.
Qed.

End MiniatureFacts.

(** ** The position after the search *)

Section Frame.
Context {G : Type} {E : RulesEngine G}.
Hypothesis Hundo : undo_restores.
Hypothesis Hlegal : legal_moves_apply.

(** C8. A call of [findBestMove] that returns leaves the position of the
    rules engine as it found it, at any depth and whether or not a [break]
    left a loop early; and so does every call of [minimax] inside it:
    each frame takes back the moves it applied before it returns. *)
Theorem findBestMove_position_unchanged :
  (forall fuel depth s mv s',
      findBestMove fuel depth s = Return mv s' -> game s' = game s)
  /\ (forall fuel depth alpha beta isMaximizing s v s',
         minimax fuel depth alpha beta isMaximizing s = Return v s' ->
         game s' = game s).
Proof.
  split.
  - intros fuel depth s mv s' Hrun.
    exact (@findBestMove_restores G E Hundo Hlegal fuel depth (game s)
             s mv s' eq_refl Hrun).
  - intros fuel depth alpha beta isMaximizing s v s' Hrun.
    exact (@minimax_restores G E Hundo fuel depth alpha beta isMaximizing
             (game s) s v s' eq_refl Hrun).
Qed.

(** C2 (amended). The core has no handler: when an exception of the rules
    engine propagates out of [findBestMove] during the search, no [undo]
    runs on the way out. The position that surfaces with the exception is
    the one of the failing call: the moves on the path from the root to
    that call, the root move at least, are still applied. *)
Theorem findBestMove_throw_keeps_moves fuel depth s s' :
  engine_fails (game s) = false ->
  findBestMove fuel depth s = Throw s' ->
  exists path,
    path <> [] /\ play path (game s) = Some (game s')
    /\ engine_fails (game s') = true /\ game s' <> game s.
Proof.
  intros Hok Hrun.
  destruct (@findBestMove_throws G E Hundo Hlegal fuel depth (game s) Hok
              s s' eq_refl Hrun) as (path & Hne & Hplay & Hf).
  exists path. repeat split; try assumption. congruence.
Qed.

End Frame.

Lemma findBestMove_position_unchanged_witness :
  exists mv s',
    findBestMove (E := Miniature.sound) 2 2 (Miniature.state Miniature.start)
    = Return mv s'
    /\ game s' = Miniature.start.
Proof.
  destruct (findBestMove (E := Miniature.sound) 2 2
              (Miniature.state Miniature.start)) as [mv s' | s' | ] eqn:Hrun;
    [| vm_compute in Hrun; discriminate Hrun
     | vm_compute in Hrun; discriminate Hrun].
  exists mv, s'. split; [reflexivity|].
  exact (proj1 (@findBestMove_position_unchanged _ Miniature.sound
                  (@MiniatureFacts.undo_restores_engine _)
                  (@MiniatureFacts.legal_moves_apply_engine _))
           2%nat 2%Z _ mv s' Hrun).
Defined.

Lemma findBestMove_throw_keeps_moves_witness :
  exists s' path,
    findBestMove (E := Miniature.faulty) 2 2 (Miniature.state Miniature.start)
    = Throw s'
    /\ path <> []
    /\ play (E := Miniature.faulty) path Miniature.start = Some (game s').
Proof.
  destruct (findBestMove (E := Miniature.faulty) 2 2
              (Miniature.state Miniature.start)) as [mv s' | s' | ] eqn:Hrun;
    [ vm_compute in Hrun; discriminate Hrun
    | | vm_compute in Hrun; discriminate Hrun].
  destruct (@findBestMove_throw_keeps_moves _ Miniature.faulty
              (@MiniatureFacts.undo_restores_engine _)
              (@MiniatureFacts.legal_moves_apply_engine _)
              2%nat 2%Z (Miniature.state Miniature.start) s' eq_refl Hrun)
    as (path & Hne & Hplay & _).
  exists s', path. auto.
Defined.

(** C2, as stated, fails: the engine fails after the capture on d4, the
    exception propagates out of [findBestMove], and the position that
    surfaces still has the capture applied. *)
Lemma findBestMove_throw_not_restored :
  exists s',
    findBestMove (E := Miniature.faulty) 2 2 (Miniature.state Miniature.start)
    = Throw s'
    /\ game s' <> game (Miniature.state Miniature.start).
Proof.
  eexists. split; [vm_compute; reflexivity|].
  simpl. discriminate.
Qed.

(** ** Alpha-beta pruning against the full-width search *)

Create HintDb num.

#[global] Hint Resolve JSFacts.num_infinity JSFacts.num_neg_infinity
  JSFacts.num_opp JSFacts.num_Math_max JSFacts.num_Math_min : num.

(** Comparisons and selections of numbers become comparisons of keys. *)
Ltac keys :=
  repeat first
    [ rewrite JSFacts.key_Math_max by auto with num
    | rewrite JSFacts.key_Math_min by auto with num
    | rewrite JSFacts.key_opp
    | rewrite JSFacts.key_infinity
    | rewrite JSFacts.key_neg_infinity ].

Ltac keys_in H :=
  repeat first
    [ rewrite JSFacts.key_Math_max in H by auto with num
    | rewrite JSFacts.key_Math_min in H by auto with num
    | rewrite JSFacts.key_opp in H
    | rewrite JSFacts.key_infinity in H
    | rewrite JSFacts.key_neg_infinity in H ].

Section AlphaBeta.
Context {G : Type} {E : RulesEngine G}.
Hypothesis Hnum : forall g, JS.num (evaluatePosition g).

Local Open Scope Z_scope.
Local Abbreviation key := JS.key.
Local Abbreviation num := JS.num.

Lemma le_key (x y : float) :
  num x -> num y -> (JS.le x y = true <-> key x <= key y).
Proof.
  intros Hx Hy. unfold JS.le. rewrite JSFacts.leb_key by assumption.
  apply Z.leb_le.
Qed.

Lemma le_key_false (x y : float) :
  num x -> num y -> (JS.le x y = false <-> key y < key x).
Proof.
  intros Hx Hy. unfold JS.le. rewrite JSFacts.leb_key by assumption.
  apply Z.leb_gt.
Qed.

(** *** The full-width search *)

Lemma maxFull_num (rec : G -> float) g xs acc :
  (forall g', num (rec g')) -> num acc ->
  num (fold_left (maxStepFull rec g) xs acc).
Proof.
  intros Hrec. revert acc. induction xs as [|x xs IH]; intros acc Ha; simpl;
    [assumption|].
  apply IH. unfold maxStepFull. destruct (game_move x g); auto with num.
Qed.

Lemma minFull_num (rec : G -> float) g xs acc :
  (forall g', num (rec g')) -> num acc ->
  num (fold_left (minStepFull rec g) xs acc).
Proof.
  intros Hrec. revert acc. induction xs as [|x xs IH]; intros acc Ha; simpl;
    [assumption|].
  apply IH. unfold minStepFull. destruct (game_move x g); auto with num.
Qed.

Lemma fullWidth_num depth : forall isMaximizing g, num (fullWidth depth isMaximizing g).
Proof.
  induction depth as [|depth IH]; intros isMaximizing g; simpl; [apply Hnum|].
  destruct (game_over g); [apply Hnum|].
  destruct (List.length (game_moves g) =? 0)%nat; [apply Hnum|].
  destruct isMaximizing.
  - apply maxFull_num; auto with num.
  - apply minFull_num; auto with num.
Qed.

(** The running maximum only grows, the running minimum only shrinks. *)
Lemma maxFull_grows (rec : G -> float) g xs acc :
  (forall g', num (rec g')) -> num acc ->
  key acc <= key (fold_left (maxStepFull rec g) xs acc).
Proof.
  intros Hrec. revert acc. induction xs as [|x xs IH]; intros acc Ha; simpl;
    [lia|].
  assert (Hs : num (maxStepFull rec g acc x) /\
               key acc <= key (maxStepFull rec g acc x)).
  { unfold maxStepFull. destruct (game_move x g) as [g'|].
    - split; [auto with num|]. keys. lia.
    - split; [assumption | lia]. }
  destruct Hs as [Hn Hle]. specialize (IH _ Hn). lia.
Qed.

Lemma minFull_shrinks (rec : G -> float) g xs acc :
  (forall g', num (rec g')) -> num acc ->
  key (fold_left (minStepFull rec g) xs acc) <= key acc.
Proof.
  intros Hrec. revert acc. induction xs as [|x xs IH]; intros acc Ha; simpl;
    [lia|].
  assert (Hs : num (minStepFull rec g acc x) /\
               key (minStepFull rec g acc x) <= key acc).
  { unfold minStepFull. destruct (game_move x g) as [g'|].
    - split; [auto with num|]. keys. lia.
    - split; [assumption | lia]. }
  destruct Hs as [Hn Hle]. specialize (IH _ Hn). lia.
Qed.

(** *** The loops of [minimax] against the full-width loops *)

Lemma maxLoop_agrees (rec : float -> float -> G -> float) (full : G -> float)
  (beta alpha0 : float) (g : G) :
  num beta -> num alpha0 ->
  (forall g', num (full g')) ->
  (forall a g', num a -> key a < key beta ->
                num (rec a beta g') /\ agrees a beta (rec a beta g') (full g')) ->
  forall xs maxEval alpha maxFull,
    num maxEval -> num alpha -> num maxFull ->
    key alpha < key beta ->
    key alpha = Z.max (key alpha0) (key maxFull) ->
    (key maxFull <= key alpha0 -> key maxEval <= key alpha0) ->
    (key alpha0 < key maxFull -> key maxEval = key maxFull) ->
    let pruned :=
      fst (snd (for_pure xs (maxStepPure rec beta g) (maxEval, alpha))) in
    num pruned /\
    agrees alpha0 beta pruned (fold_left (maxStepFull full g) xs maxFull).
Proof.
  intros Hb Ha0 Hfull Hrec.
  induction xs as [|x xs IH];
    intros maxEval alpha maxFull Hm Ha HM Hlt Hal Hlow Hin; simpl.
  - split; [assumption|]. unfold agrees. lia.
  - unfold maxStepPure at 1, maxStepFull at 2.
    destruct (game_move x g) as [g'|]; [|now apply IH].
    destruct (Hrec alpha g' Ha Hlt) as (He & Hlo & Hmid & Hhi).
    pose proof (Hfull g') as Ht.
    destruct (JS.le beta (JS.Math_max alpha (rec alpha beta g'))) eqn:Hcut.
    + (* the break: the child, and so the node, is at or above beta *)
      apply le_key in Hcut; auto with num. keys_in Hcut. simpl.
      split; [auto with num|].
      pose proof (@maxFull_grows full g xs
                    (JS.Math_max maxFull (full g')) Hfull
                    ltac:(auto with num)) as Hgrow.
      keys_in Hgrow. unfold agrees. keys. lia.
    + apply le_key_false in Hcut; auto with num. keys_in Hcut.
      apply IH; auto with num; keys; lia.
Qed.

Lemma minLoop_agrees (rec : float -> float -> G -> float) (full : G -> float)
  (alpha beta0 : float) (g : G) :
  num alpha -> num beta0 ->
  (forall g', num (full g')) ->
  (forall b' g', num b' -> key alpha < key b' ->
                 num (rec alpha b' g') /\
                 agrees alpha b' (rec alpha b' g') (full g')) ->
  forall xs minEval beta minFull,
    num minEval -> num beta -> num minFull ->
    key alpha < key beta ->
    key beta = Z.min (key beta0) (key minFull) ->
    (key beta0 <= key minFull -> key beta0 <= key minEval) ->
    (key minFull < key beta0 -> key minEval = key minFull) ->
    let pruned :=
      fst (snd (for_pure xs (minStepPure rec alpha g) (minEval, beta))) in
    num pruned /\
    agrees alpha beta0 pruned (fold_left (minStepFull full g) xs minFull).
Proof.
  intros Ha Hb0 Hfull Hrec.
  induction xs as [|x xs IH];
    intros minEval beta minFull Hm Hb HM Hlt Hbe Hhigh Hin; simpl.
  - split; [assumption|]. unfold agrees. lia.
  - unfold minStepPure at 1, minStepFull at 2.
    destruct (game_move x g) as [g'|]; [|now apply IH].
    destruct (Hrec beta g' Hb Hlt) as (He & Hlo & Hmid & Hhi).
    pose proof (Hfull g') as Ht.
    destruct (JS.le (JS.Math_min beta (rec alpha beta g')) alpha) eqn:Hcut.
    + apply le_key in Hcut; auto with num. keys_in Hcut. simpl.
      split; [auto with num|].
      pose proof (@minFull_shrinks full g xs
                    (JS.Math_min minFull (full g')) Hfull
                    ltac:(auto with num)) as Hshrink.
      keys_in Hshrink. unfold agrees. keys. lia.
    + apply le_key_false in Hcut; auto with num. keys_in Hcut.
      apply IH; auto with num; keys; lia.
Qed.

(** Alpha-beta pruning, node by node: searched in a window
    [alpha < beta], a node has a value on the same side of the window as
    its full-width value, and the same value inside the window. *)
Lemma alphabeta_agrees depth :
  forall alpha beta isMaximizing g,
    num alpha -> num beta -> key alpha < key beta ->
    num (alphabeta depth alpha beta isMaximizing g) /\
    agrees alpha beta (alphabeta depth alpha beta isMaximizing g)
      (fullWidth depth isMaximizing g).
Proof.
  induction depth as [|depth IH]; intros alpha beta isMaximizing g Ha Hb Hlt.
  - simpl. split; [apply Hnum | unfold agrees; lia].
  - simpl.
    destruct (game_over g); [split; [apply Hnum | unfold agrees; lia]|].
    destruct (List.length (game_moves g) =? 0)%nat;
      [split; [apply Hnum | unfold agrees; lia]|].
    pose proof (JSFacts.key_range alpha) as Hra.
    pose proof (JSFacts.key_range beta) as Hrb.
    destruct isMaximizing.
    + assert (Hrec : forall a g', num a -> key a < key beta ->
                 num (alphabeta depth a beta false g') /\
                 agrees a beta (alphabeta depth a beta false g')
                   (fullWidth depth false g'))
        by (intros a g' Hna Hla; now apply IH).
      apply (@maxLoop_agrees
               (fun a b' g' => alphabeta depth a b' false g')
               (fullWidth depth false) beta alpha g Hb Ha
               (fullWidth_num depth false) Hrec
               (game_moves g) neg_infinity alpha neg_infinity);
        auto with num; keys; lia.
    + assert (Hrec : forall b' g', num b' -> key alpha < key b' ->
                 num (alphabeta depth alpha b' true g') /\
                 agrees alpha b' (alphabeta depth alpha b' true g')
                   (fullWidth depth true g'))
        by (intros b' g' Hnb Hlb; now apply IH).
      apply (@minLoop_agrees
               (fun a b' g' => alphabeta depth a b' true g')
               (fullWidth depth true) alpha beta g Ha Hb
               (fullWidth_num depth true) Hrec
               (game_moves g) infinity beta infinity);
        auto with num; keys; lia.
Qed.

End AlphaBeta.

(** ** The values of the search are finite *)

Section FiniteValues.
Context {G : Type} {E : RulesEngine G}.
Hypothesis Hlegal : legal_moves_apply.

Local Open Scope Z_scope.
Local Abbreviation key := JS.key.
Local Abbreviation num := JS.num.

Lemma evaluatePosition_finite g : JS.finite (evaluatePosition g).
Proof.
  split; [apply JSFacts.finite_num | apply JSFacts.finite_key];
    apply evaluatePosition_is_finite.
Qed.

Lemma evaluatePosition_num g : num (evaluatePosition g).
Proof. apply evaluatePosition_finite. Qed.

Lemma gt_key (x y : float) :
  num x -> num y -> JS.gt x y = (key y <? key x).
Proof. intros Hx Hy. unfold JS.gt. now apply JSFacts.ltb_key. Qed.

Lemma ge_key (x y : float) :
  num x -> num y -> JS.ge x y = (key y <=? key x).
Proof. intros Hx Hy. unfold JS.ge. now apply JSFacts.leb_key. Qed.

Lemma maxLoop_finite (rec : float -> float -> G -> float) (beta : float) g :
  (forall a b' g', JS.finite (rec a b' g')) ->
  forall xs maxEval alpha,
    (forall x, In x xs -> game_move x g <> None) ->
    num maxEval -> key maxEval < JS.KINF ->
    (xs <> [] \/ - JS.KINF < key maxEval) ->
    JS.finite (fst (snd (for_pure xs (maxStepPure rec beta g) (maxEval, alpha)))).
Proof.
  intros Hrec. induction xs as [|x xs IH];
    intros maxEval alpha Hall Hm Hlt Hne; simpl.
  - split; [assumption|]. destruct Hne as [Hne | Hgt]; [congruence | lia].
  - unfold maxStepPure at 1.
    destruct (game_move x g) as [g'|] eqn:Hgm;
      [| exfalso; apply (Hall x); [now left | exact Hgm]].
    destruct (Hrec alpha beta g') as [He Hke].
    assert (Hnew : JS.finite (JS.Math_max maxEval (rec alpha beta g'))).
    { split; [auto with num|]. keys. lia. }
    destruct (JS.le _ _); simpl; [exact Hnew|].
    destruct Hnew as [Hn Hk].
    apply IH; auto with num; try lia. intros y Hy. apply Hall. now right.
Qed.

Lemma minLoop_finite (rec : float -> float -> G -> float) (alpha : float) g :
  (forall a b' g', JS.finite (rec a b' g')) ->
  forall xs minEval beta,
    (forall x, In x xs -> game_move x g <> None) ->
    num minEval -> - JS.KINF < key minEval ->
    (xs <> [] \/ key minEval < JS.KINF) ->
    JS.finite (fst (snd (for_pure xs (minStepPure rec alpha g) (minEval, beta)))).
Proof.
  intros Hrec. induction xs as [|x xs IH];
    intros minEval beta Hall Hm Hlt Hne; simpl.
  - split; [assumption|]. destruct Hne as [Hne | Hgt]; [congruence | lia].
  - unfold minStepPure at 1.
    destruct (game_move x g) as [g'|] eqn:Hgm;
      [| exfalso; apply (Hall x); [now left | exact Hgm]].
    destruct (Hrec alpha beta g') as [He Hke].
    assert (Hnew : JS.finite (JS.Math_min minEval (rec alpha beta g'))).
    { split; [auto with num|]. keys. lia. }
    destruct (JS.le _ _); simpl; [exact Hnew|].
    destruct Hnew as [Hn Hk].
    apply IH; auto with num; try lia. intros y Hy. apply Hall. now right.
Qed.

(** Every value that [minimax] returns is finite. *)
Lemma alphabeta_finite depth :
  forall alpha beta isMaximizing g,
    JS.finite (alphabeta depth alpha beta isMaximizing g).
Proof.
  induction depth as [|depth IH]; intros alpha beta isMaximizing g; simpl.
  - apply evaluatePosition_finite.
  - destruct (game_over g); [apply evaluatePosition_finite|].
    destruct (Nat.eqb_spec (List.length (game_moves g)) 0) as [|Hlen];
      [apply evaluatePosition_finite|].
    assert (Hne : game_moves g <> []) by (intros H; now rewrite H in Hlen).
    assert (Hall : forall x, In x (game_moves g) -> game_move x g <> None)
      by (intros x Hx; now apply Hlegal).
    destruct isMaximizing.
    + apply (@maxLoop_finite
               (fun a b' g' => alphabeta depth a b' false g') beta g
               (fun a b' g' => IH a b' false g')
               (game_moves g) neg_infinity alpha Hall);
        auto with num.
      keys. unfold JS.KINF, JS.P53. lia.
    + apply (@minLoop_finite
               (fun a b' g' => alphabeta depth a b' true g') alpha g
               (fun a b' g' => IH a b' true g')
               (game_moves g) infinity beta Hall);
        auto with num.
      keys. unfold JS.KINF, JS.P53. lia.
Qed.

(** *** The root loop *)

Lemma rootStep_agrees depth g x P F :
  game_move x g <> None ->
  rootAgree P F ->
  (bestMove P = None -> key (bestValue P) = - JS.KINF) ->
  exists P',
    rootStepPure depth infinity g x P = (Continue, P')
    /\ rootAgree P' (rootStepFull depth g F x)
    /\ bestMove P' <> None
    /\ (bestMove P' = Some x \/ bestMove P' = bestMove P).
Proof.
  intros Hx (HbvP & HalP & HbvF & HalF & Hbm & Hbv & Hal & Hab & Hlt) Hnone.
  unfold rootStepPure, rootStepFull.
  destruct (game_move x g) as [g'|]; [clear Hx | congruence].
  set (e := alphabeta (depth - 1) (- infinity) (- alpha P) false g').
  set (t := fullWidth (depth - 1) false g').
  assert (Hwin : key (- infinity)%float < key (- alpha P)%float)
    by (keys; lia).
  destruct (@alphabeta_agrees G E evaluatePosition_num (depth - 1)%nat
              (- infinity)%float (- alpha P)%float false g'
              ltac:(auto with num) ltac:(auto with num) Hwin)
    as (He & Hlo & Hmid & Hhi).
  fold e t in He, Hlo, Hmid, Hhi. keys_in Hlo. keys_in Hmid. keys_in Hhi.
  destruct (alphabeta_finite (depth - 1) (- infinity) (- alpha P) false g')
    as [_ Hke]. fold e in Hke.
  pose proof (@fullWidth_num G E evaluatePosition_num (depth - 1)%nat false g')
    as Ht. fold t in Ht.
  pose proof (JSFacts.key_range t) as Hrt.
  assert (HvP : num (- e)%float) by auto with num.
  assert (HvF : num (- t)%float) by auto with num.
  rewrite (gt_key HvP HbvP), (gt_key HvF HbvF). keys.
  destruct (Z.ltb_spec (key (bestValue P)) (- key e)) as [HupP | HupP];
    destruct (Z.ltb_spec (key (bestValue F)) (- key t)) as [HupF | HupF];
    try (exfalso; lia); cbn [bestMove bestValue alpha].
  - (* both loops take the move *)
    rewrite ge_key by auto with num. keys.
    destruct (Z.leb_spec JS.KINF (Z.max (key (alpha P)) (- key e)));
      [exfalso; lia|].
    eexists. split; [reflexivity|]. cbn [bestMove bestValue alpha].
    split; [|split; [discriminate | now left]].
    unfold rootAgree. cbn [bestMove bestValue alpha].
    repeat split; auto with num; keys; lia.
  - (* neither does *)
    rewrite ge_key by auto with num. keys.
    destruct (Z.leb_spec JS.KINF (Z.max (key (alpha P)) (- key e)));
      [exfalso; lia|].
    eexists. split; [reflexivity|]. cbn [bestMove bestValue alpha].
    split; [|split; [|now right]].
    + unfold rootAgree. cbn [bestMove bestValue alpha].
      repeat split; auto with num; keys; lia.
    + intros Hn. specialize (Hnone Hn). lia.
Qed.

Lemma rootLoop_agrees depth g :
  forall xs P F,
    (forall x, In x xs -> game_move x g <> None) ->
    rootAgree P F ->
    (bestMove P = None -> key (bestValue P) = - JS.KINF) ->
    exists P',
      for_pure xs (rootStepPure depth infinity g) P = (Continue, P')
      /\ rootAgree P' (fold_left (rootStepFull depth g) xs F)
      /\ (xs <> [] -> bestMove P' <> None)
      /\ (forall m, bestMove P' = Some m -> In m xs \/ bestMove P = Some m).
Proof.
  induction xs as [|x xs IH]; intros P F Hall Hagree Hnone; simpl.
  - exists P. split; [reflexivity|]. split; [exact Hagree|].
    split; [congruence | auto].
  - destruct (@rootStep_agrees depth g x P F (Hall x (or_introl eq_refl))
                Hagree Hnone) as (P1 & Hstep & Hagree1 & Hsome & Hwhich).
    rewrite Hstep.
    destruct (IH P1 (rootStepFull depth g F x)
                (fun y Hy => Hall y (or_intror Hy)) Hagree1
                (fun Hn => False_ind _ (Hsome Hn)))
      as (P' & Hloop & Hagree' & Hne & Hin).
    exists P'. split; [exact Hloop|]. split; [exact Hagree'|]. split.
    + intros _. destruct xs as [|y ys].
      * simpl in Hloop. injection Hloop as <-. exact Hsome.
      * apply Hne. discriminate.
    + intros m Hm. destruct (Hin m Hm) as [Hxs | H1]; [left; now right|].
      destruct Hwhich as [Hw | Hw].
      * left. left. congruence.
      * right. congruence.
Qed.

End FiniteValues.

(** ** [findBestMove] as a function of the position *)

Section RootRuns.
Context {G : Type} {E : RulesEngine G}.
Hypothesis Hundo : undo_restores.

Lemma rootStep_returns g fuel depth beta move vars :
  (1 <= depth)%Z ->
  game_move move g <> None ->
  returns_at g (rootStep fuel depth beta move vars)
    (rootStepPure (Z.to_nat depth) beta g move vars).
Proof.
  intros Hd Hlegal s r s' Hg Hrun. unfold rootStep in Hrun.
  unfold rootStepPure.
  apply bind_Return in Hrun. destruct Hrun as (res & s1 & Hm & Hrun).
  apply move_Return in Hm. destruct Hm as [_ Hm]. rewrite Hg in Hm.
  destruct (game_move move g) as [g'|] eqn:Hgm; [|congruence].
  destruct Hm as [-> ->].
  apply bind_Return in Hrun. destruct Hrun as (v & s2 & Hr & Hrun).
  apply bind_Return in Hrun. destruct Hrun as (u & s3 & Hu & Hrun).
  destruct (@applied_returns G E Hundo _ g g' move _ _ s v s2 u s3 Hgm
              (@minimax_returns G E Hundo fuel (depth - 1) (- beta)
                 (- alpha vars) false g' ltac:(lia)) Hg Hr Hu)
    as (-> & Hg3 & Hd3).
  replace (Z.to_nat depth - 1)%nat with (Z.to_nat (depth - 1)) by lia.
  destruct (JS.ge _ _); injection Hrun as <- <-; auto.
Qed.

Lemma rootLoop_returns g fuel depth ordered :
  (1 <= depth)%Z ->
  (forall x, In x ordered -> game_move x g <> None) ->
  returns_at g (rootLoop fuel depth ordered)
    (rootLoopPure (Z.to_nat depth) g ordered).
Proof.
  intros Hd Hall. unfold rootLoop, rootLoopPure.
  apply for_of_returns. intros x v Hx. apply rootStep_returns; auto.
Qed.

Hypothesis Hlegal : legal_moves_apply.

(** [findBestMove] computes [findBestMovePure]. *)
Lemma findBestMove_returns fuel depth s mv s' :
  (1 <= depth)%Z ->
  findBestMove fuel depth s = Return mv s' ->
  mv = findBestMovePure (Z.to_nat depth) (game s) (random s).
Proof.
  intros Hd Hrun. unfold findBestMove in Hrun. unfold findBestMovePure.
  apply bind_Return in Hrun. destruct Hrun as (moves & s1 & Hm & Hrun).
  apply call_Return in Hm. destruct Hm as (-> & -> & _).
  destruct (List.length (game_moves (game s)) =? 0)%nat.
  { now injection Hrun as <- _. }
  apply bind_Return in Hrun. destruct Hrun as (ordered & s2 & Ho & Hrun).
  apply orderMoves_In in Ho. destruct Ho as (-> & Hg2 & Hin).
  apply bind_Return in Hrun. destruct Hrun as (res & s3 & Hl & Hrun).
  injection Hrun as <- _.
  destruct (@rootLoop_returns (game s) fuel depth _ Hd
              (fun x Hx => Hlegal _ _ (Hin x Hx)) s2 res s3 Hg2 Hl)
    as (-> & _ & _).
  reflexivity.
Qed.

(** With an engine that never fails and enough fuel, the root loop and
    [findBestMove] return. *)
Hypothesis Hnever : never_fails.

Lemma rootLoop_runs g fuel depth ordered s :
  (1 <= depth)%Z -> (Z.to_nat depth <= fuel)%nat ->
  (forall x, In x ordered -> game_move x g <> None) ->
  game s = g ->
  exists s',
    rootLoop fuel depth ordered s
    = Return (rootLoopPure (Z.to_nat depth) g ordered) s'
    /\ game s' = g.
Proof.
  intros Hd Hf Hall Hg.
  destruct (rootLoop fuel depth ordered s) as [r s' | s' | ] eqn:Hrun.
  - destruct (@rootLoop_returns g fuel depth ordered Hd Hall s r s' Hg Hrun)
      as (-> & Hg' & _).
    exists s'. auto.
  - exfalso. unfold rootLoop in Hrun.
    destruct (@for_of_throws G _ _ g ordered _
                (fun s' => exists path, path <> [] /\ stuck_at g s' path)
                (fun x v Hx => @rootStep_restores G E Hundo g fuel depth
                                 infinity x v (Hall x Hx))
                (fun x v Hx => @rootStep_throws G E Hundo g fuel depth
                                 infinity x v (Hnever g) (Hall x Hx))
                _ s s' Hg Hrun) as (path & _ & _ & Hfail).
    rewrite Hnever in Hfail. discriminate.
  - exfalso. revert Hrun. unfold rootLoop.
    apply terminates_for_of. intros x v. now apply terminates_rootStep.
Qed.

Lemma findBestMove_runs fuel depth s :
  (1 <= depth)%Z -> (Z.to_nat depth <= fuel)%nat ->
  exists s',
    findBestMove fuel depth s
    = Return (findBestMovePure (Z.to_nat depth) (game s) (random s)) s'
    /\ game s' = game s.
Proof.
  intros Hd Hf.
  destruct (findBestMove fuel depth s) as [mv s' | s' | ] eqn:Hrun.
  - rewrite (findBestMove_returns _ _ Hd Hrun).
    exists s'. split; [reflexivity|].
    exact (@findBestMove_restores G E Hundo Hlegal fuel depth (game s)
             s mv s' eq_refl Hrun).
  - exfalso.
    destruct (@findBestMove_throws G E Hundo Hlegal fuel depth (game s)
                (Hnever _) s s' eq_refl Hrun) as (path & _ & _ & Hfail).
    rewrite Hnever in Hfail. discriminate.
  - exfalso. revert Hrun. now apply findBestMove_fuel_enough.
Qed.

End RootRuns.

(** ** The move that [findBestMove] returns *)

Section RootFacts.
Context {G : Type} {E : RulesEngine G}.

Lemma orderMovesPure_Permutation (moves : list Move) draws :
  Permutation moves (orderMovesPure moves draws).
Proof.
  unfold orderMovesPure.
  etransitivity; [apply (partition_Permutation is_capture)|].
  apply Permutation_app; apply shuffleBy_Permutation.
Qed.

Lemma rootAgree_initial :
  rootAgree (mkRootVars None neg_infinity neg_infinity)
    (mkRootVars None neg_infinity neg_infinity).
Proof.
  unfold rootAgree. cbn [bestMove bestValue alpha].
  repeat split; auto with num.
Qed.

(** The pruned root loop against the root loop without pruning, from the
    initial loop variables. *)
Lemma rootLoopPure_agrees depth g ordered :
  legal_moves_apply ->
  (forall m, In m ordered -> In m (game_moves g)) ->
  exists vars,
    rootLoopPure depth g ordered = (Continue, vars)
    /\ rootAgree vars (rootLoopFull depth g ordered)
    /\ (ordered <> [] -> bestMove vars <> None)
    /\ (forall m, bestMove vars = Some m -> In m ordered).
Proof.
  intros Hlegal Hin.
  destruct (@rootLoop_agrees G E Hlegal depth g ordered
              (mkRootVars None neg_infinity neg_infinity)
              (mkRootVars None neg_infinity neg_infinity)
              (fun x Hx => Hlegal _ _ (Hin x Hx))
              rootAgree_initial (fun _ => JSFacts.key_neg_infinity))
    as (vars & Hloop & Hagree & Hne & Hwhich).
  exists vars. split; [exact Hloop|]. split; [exact Hagree|].
  split; [exact Hne|].
  intros m Hm. destruct (Hwhich m Hm) as [H | H]; [exact H | discriminate H].
Qed.

(** What one turn of the root loop leaves in [alpha], and how it ends. *)
Lemma rootStep_flow fuel depth move vars (s : @QuickChess G) fl vars' s' :
  rootStep fuel depth infinity move vars s = Return (fl, vars') s' ->
  exists v s1 s2,
    minimax fuel (depth - 1) (- infinity) (- alpha vars) false s1 = Return v s2
    /\ alpha vars' = JS.Math_max (alpha vars) (- v)
    /\ JS.ge (alpha vars') infinity
       = match fl with Break => true | Continue => false end.
Proof.
  intros Hrun. unfold rootStep in Hrun.
  apply bind_Return in Hrun. destruct Hrun as (res & s1 & _ & Hrun).
  apply bind_Return in Hrun. destruct Hrun as (v & s2 & Hr & Hrun).
  apply bind_Return in Hrun. destruct Hrun as (u & s3 & _ & Hrun).
  exists v, s1, s2. split; [exact Hr|].
  match type of Hrun with
  | (if JS.ge ?a _ then _ else _) _ = _ => destruct (JS.ge a infinity) eqn:Hge
  end; injection Hrun as <- <- _; cbn [alpha] in *;
    (split; [|exact Hge]);
    destruct (JS.gt (- v) (bestValue vars)); reflexivity.
Qed.

(** The root loop is left by its [break] only with [alpha] at
    [Infinity], after a root move whose value is [Infinity]. *)
Lemma rootLoop_Break fuel depth :
  forall xs vars (s : @QuickChess G) vars' s',
    JS.ge (alpha vars) infinity = false ->
    for_of xs (rootStep fuel depth infinity) vars s = Return (Break, vars') s' ->
    alpha vars' = infinity
    /\ exists move a0 v s1 s2,
        In move xs
        /\ minimax fuel (depth - 1) (- infinity) (- a0) false s1 = Return v s2
        /\ (- v)%float = infinity.
Proof.
  induction xs as [|x xs IH]; intros vars s vars' s' Hlow Hrun; simpl in Hrun.
  - discriminate.
  - apply bind_Return in Hrun. destruct Hrun as ([fl vars1] & s1 & Hstep & Hk).
    destruct (@rootStep_flow _ _ _ _ _ _ _ _ Hstep) as (v & sa & sb & Hr & Hal & Hge).
    destruct fl.
    + destruct (IH vars1 s1 vars' s' Hge Hk)
        as (Hinf & move & a0 & v' & sa' & sb' & Hin & Hr' & Hv').
      split; [exact Hinf|]. exists move, a0, v', sa', sb'.
      split; [now right | auto].
    + injection Hk as <- <-.
      pose proof (JSFacts.ge_infinity Hge) as Hinf.
      split; [exact Hinf|].
      exists x, (alpha vars), v, sa, sb. split; [now left|].
      split; [exact Hr|].
      rewrite Hinf in Hal. symmetry in Hal.
      apply JSFacts.Math_max_infinity in Hal. destruct Hal as [Ha | Hv];
        [|exact Hv].
      rewrite Ha in Hlow. discriminate Hlow.
Qed.

End RootFacts.

(** C3. With the rules engine keeping its contract (a listed move is
    accepted, [undo] restores the position, no call fails),
    [findBestMove(depth)] for [depth >= 1] returns: [null] exactly when
    the position has no legal move, and otherwise one of the legal moves
    of the position. *)
Theorem findBestMove_legal_move {G : Type} {E : RulesEngine G} :
  undo_restores -> legal_moves_apply -> never_fails ->
  forall fuel depth (s : @QuickChess G),
    (1 <= depth)%Z -> (Z.to_nat depth <= fuel)%nat ->
    exists mv s',
      findBestMove fuel depth s = Return mv s'
      /\ (mv = None <-> game_moves (game s) = [])
      /\ (forall m, mv = Some m -> In m (game_moves (game s))).
Proof.
  intros Hundo Hlegal Hnever fuel depth s Hd Hf.
  destruct (@findBestMove_runs G E Hundo Hlegal Hnever fuel depth s Hd Hf)
    as (s' & Hrun & _).
  exists (findBestMovePure (Z.to_nat depth) (game s) (random s)), s'.
  split; [exact Hrun|]. unfold findBestMovePure.
  destruct (Nat.eqb_spec (List.length (game_moves (game s))) 0) as [Hz | Hnz].
  - apply length_zero_iff_nil in Hz. rewrite Hz.
    split; [tauto | discriminate].
  - pose proof (orderMovesPure_Permutation (game_moves (game s)) (random s))
      as Hperm.
    destruct (@rootLoopPure_agrees G E (Z.to_nat depth) (game s)
                (orderMovesPure (game_moves (game s)) (random s))
                Hlegal
                (fun m Hm => Permutation_in m (Permutation_sym Hperm) Hm))
      as (vars & Hloop & _ & Hne & Hwhich).
    rewrite Hloop. cbn [snd].
    assert (Hmoves : game_moves (game s) <> [])
      by (intros H; rewrite H in Hnz; now apply Hnz).
    split; [split|].
    + intros Hnone. exfalso. apply Hne; [|exact Hnone].
      intros Hnil. rewrite Hnil in Hperm.
      apply Permutation_sym, Permutation_nil in Hperm. contradiction.
    + intros Hnil. contradiction.
    + intros m Hm. apply (Permutation_in m (Permutation_sym Hperm)).
      now apply Hwhich.
Qed.

(** C10. In [findBestMove] the bound [beta] is [Infinity] throughout, so
    the root loop is left by its [break] only with [alpha] at [Infinity],
    after a root move whose value is [Infinity]; and with the engine
    keeping its contract the [break] is never taken (the evaluator
    returns finite numbers only): the loop runs over every ordered
    move. *)
Theorem root_break_unreachable {G : Type} {E : RulesEngine G} :
  (forall fuel depth ordered (s : @QuickChess G) vars s',
      rootLoop fuel depth ordered s = Return (Break, vars) s' ->
      alpha vars = infinity
      /\ exists move a0 v s1 s2,
          In move ordered
          /\ minimax fuel (depth - 1) (- infinity) (- a0) false s1 = Return v s2
          /\ (- v)%float = infinity)
  /\ (undo_restores -> legal_moves_apply -> never_fails ->
      forall fuel depth ordered (s : @QuickChess G),
        (1 <= depth)%Z -> (Z.to_nat depth <= fuel)%nat ->
        (forall m, In m ordered -> In m (game_moves (game s))) ->
        exists vars s',
          rootLoop fuel depth ordered s = Return (Continue, vars) s').
Proof.
  split.
  - intros fuel depth ordered s vars s' Hrun.
    exact (@rootLoop_Break G E fuel depth ordered
             (mkRootVars None neg_infinity neg_infinity) s vars s' eq_refl Hrun).
  - intros Hundo Hlegal Hnever fuel depth ordered s Hd Hf Hin.
    destruct (@rootLoop_runs G E Hundo Hnever (game s) fuel depth ordered s
                Hd Hf (fun x Hx => Hlegal _ _ (Hin x Hx)) eq_refl)
      as (s' & Hrun & _).
    destruct (@rootLoopPure_agrees G E (Z.to_nat depth) (game s) ordered
                Hlegal Hin) as (vars & Hloop & _).
    rewrite Hloop in Hrun. now exists vars, s'.
Qed.

(** C4. With the engine keeping its contract, the search with the
    alpha-beta [break]s chooses what the exhaustive search chooses: [findBestMove] returns the move of
    [findBestMoveExhaustive]; on any list of legal root moves the pruned
    root loop ends with the best move and, numerically, the best value
    of the root loop over the full-width values; and a call of [minimax]
    in a window [alpha < beta] returns a value on the same side of the
    window as the full-width value of its node, the same value inside
    the window. Pruning changes the nodes visited, not the value of the
    move chosen. *)
Theorem alpha_beta_equivalence {G : Type} {E : RulesEngine G} :
  undo_restores -> legal_moves_apply -> never_fails ->
  forall fuel depth (s : @QuickChess G),
    (1 <= depth)%Z -> (Z.to_nat depth <= fuel)%nat ->
    (exists s',
        findBestMove fuel depth s
        = Return (findBestMoveExhaustive (Z.to_nat depth) (game s) (random s)) s')
    /\ (forall ordered,
           (forall m, In m ordered -> In m (game_moves (game s))) ->
           exists fl vars s',
             rootLoop fuel depth ordered s = Return (fl, vars) s'
             /\ bestMove vars
                = bestMove (rootLoopFull (Z.to_nat depth) (game s) ordered)
             /\ JS.same (bestValue vars)
                  (bestValue (rootLoopFull (Z.to_nat depth) (game s) ordered)))
    /\ (forall alpha beta isMaximizing,
           JS.num alpha -> JS.num beta -> JS.gt beta alpha = true ->
           exists v s',
             minimax (S fuel) depth alpha beta isMaximizing s = Return v s'
             /\ agrees alpha beta v
                  (fullWidth (Z.to_nat depth) isMaximizing (game s))).
Proof.
  intros Hundo Hlegal Hnever fuel depth s Hd Hf.
  assert (Hroot : forall ordered,
             (forall m, In m ordered -> In m (game_moves (game s))) ->
             exists vars s',
               rootLoop fuel depth ordered s = Return (Continue, vars) s'
               /\ rootLoopPure (Z.to_nat depth) (game s) ordered
                  = (Continue, vars)
               /\ rootAgree vars
                    (rootLoopFull (Z.to_nat depth) (game s) ordered)).
  { intros ordered Hin.
    destruct (@rootLoop_runs G E Hundo Hnever (game s) fuel depth ordered s
                Hd Hf (fun x Hx => Hlegal _ _ (Hin x Hx)) eq_refl)
      as (s' & Hrun & _).
    destruct (@rootLoopPure_agrees G E (Z.to_nat depth) (game s) ordered
                Hlegal Hin) as (vars & Hloop & Hagree & _).
    exists vars, s'. rewrite <- Hloop. auto. }
  split; [|split].
  - destruct (@findBestMove_runs G E Hundo Hlegal Hnever fuel depth s Hd Hf)
      as (s' & Hrun & _).
    exists s'. rewrite Hrun. f_equal.
    unfold findBestMovePure, findBestMoveExhaustive.
    destruct (List.length (game_moves (game s)) =? 0)%nat; [reflexivity|].
    pose proof (orderMovesPure_Permutation (game_moves (game s)) (random s))
      as Hperm.
    destruct (Hroot (orderMovesPure (game_moves (game s)) (random s))
                (fun m Hm => Permutation_in m (Permutation_sym Hperm) Hm))
      as (vars & _ & _ & Hloop & Hagree).
    rewrite Hloop. cbn [snd]. apply Hagree.
  - intros ordered Hin.
    destruct (Hroot ordered Hin) as (vars & s' & Hrun & _ & Hagree).
    exists Continue, vars, s'. split; [exact Hrun|].
    destruct Hagree as (HbvP & _ & HbvF & _ & Hbm & Hbv & _).
    split; [exact Hbm | now apply JSFacts.same_key].
  - intros alpha beta isMaximizing Ha Hb Hwin.
    rewrite (gt_key Hb Ha) in Hwin. apply Z.ltb_lt in Hwin.
    destruct (@alphabeta_agrees G E (@evaluatePosition_num G E)
                (Z.to_nat depth) alpha beta isMaximizing (game s) Ha Hb Hwin)
      as (_ & Hagree).
    destruct (minimax (S fuel) depth alpha beta isMaximizing s)
      as [v s' | s' | ] eqn:Hrun.
    + destruct (@minimax_returns G E Hundo (S fuel) depth alpha beta
                  isMaximizing (game s) ltac:(lia) s v s' eq_refl Hrun)
        as (-> & _).
      exists (alphabeta (Z.to_nat depth) alpha beta isMaximizing (game s)), s'.
      split; [reflexivity | exact Hagree].
    + exfalso.
      destruct (@minimax_throws G E Hundo (S fuel) depth alpha beta
                  isMaximizing (game s) s s' eq_refl Hrun)
        as (path & _ & Hfail).
      rewrite Hnever in Hfail. discriminate.
    + exfalso. revert Hrun. apply minimax_fuel_enough; lia.
Qed.

(** ** The theorems at concrete inputs *)

Section Witnesses.
Import Miniature.

Let moves0 : list Move := game_moves (RulesEngine := sound) start.
Let s0 : @QuickChess Game := state start.

Lemma unit_draws_half : unit_draws (fun _ => 0.5%float).
Proof. intros k. split; reflexivity. Qed.

Lemma NoDup_moves0 : NoDup moves0.
Proof.
  repeat constructor; simpl; intuition discriminate.
Qed.

Lemma search_terminates_witness :
  minimax (E := sound) 3 2 neg_infinity infinity true s0 <> OutOfFuel
  /\ findBestMove (E := sound) 2 2 s0 <> OutOfFuel.
Proof.
  split.
  - apply (proj1 (@search_terminates Game sound)); [lia | simpl; lia].
  - apply (proj2 (@search_terminates Game sound)); [lia | simpl; lia].
Defined.

Lemma orderMoves_spec_witness :
  unit_draws (random s0) /\ NoDup moves0
  /\ (Z.of_nat (List.length moves0) < 2 ^ 52)%Z
  /\ choices_of 1 (random s0) = [1%nat]
  /\ valid_choices 1 (choices_of 1 (random s0))
  /\ (JS.to_Q 0.5 * inject_Z 2 < inject_Z 2)%Q
  /\ (exists js,
         valid_choices 1 js
         /\ shuffleBy 1 (filter (fun m => negb (is_capture m)) moves0) js
            = rev (filter (fun m => negb (is_capture m)) moves0))
  /\ exists draws s',
      unit_draws draws
      /\ orderMoves moves0 (mkQuickChess (game s0) (nodeCount s0) draws)
         = Return (filter is_capture moves0
                   ++ rev (filter (fun m => negb (is_capture m)) moves0)) s'.
Proof.
  destruct (@orderMoves_spec Game moves0 s0)
    as (_ & _ & _ & _ & _ & _ & _ & Hnth & Hdraw & _ & Hvalid & Hbij & Hreach).
  assert (Hlen : (Z.of_nat (List.length moves0) < 2 ^ 52)%Z) by reflexivity.
  assert (Hlen' : (Z.of_nat (List.length moves0) < 2 ^ 53)%Z) by reflexivity.
  split; [exact unit_draws_half|]. split; [exact NoDup_moves0|].
  split; [exact Hlen|].
  split; [reflexivity|].
  split; [exact (proj2 (Hvalid unit_draws_half Hlen'))|].
  split; [|split].
  - exact (proj2 (proj2 (Hdraw 0.5%float 2%nat (unit_draws_half 0%nat)
                           ltac:(split; [lia | reflexivity])))).
  - destruct (Hbij NoDup_moves0
                (filter is_capture moves0)
                (rev (filter (fun m => negb (is_capture m)) moves0))
                (Permutation_refl _) (Permutation_rev _))
      as (_ & js & Hjs & _).
    exists js. exact Hjs.
  - exact (Hreach Hlen NoDup_moves0
             (filter is_capture moves0)
             (rev (filter (fun m => negb (is_capture m)) moves0))
             (Permutation_refl _) (Permutation_rev _)).
Defined.

(** The draws that are all 1/4: the first one is below [0.3]. *)
Let quarter : @QuickChess Game := mkQuickChess start 0 (fun _ => 0.25%float).

Lemma unit_draws_quarter : unit_draws (random quarter).
Proof. intros k. split; reflexivity. Qed.

Lemma difficulty_policy_witness :
  filter is_capture moves0 <> []
  /\ JS.lt (random quarter 0%nat) JS.three_tenths = true
  /\ exists m,
      nth_error (filter is_capture moves0)
        (JS.floor_index 0.25 (List.length (filter is_capture moves0)))
      = Some m
      /\ In m moves0 /\ is_capture m = true.
Proof.
  destruct (@difficulty_policy Game sound) as (_ & Heasy & Hlt & _).
  destruct (Heasy moves0 quarter) as (_ & Hlegal).
  assert (Hcap : filter is_capture moves0 <> []) by discriminate.
  assert (Hb : JS.lt (random quarter 0%nat) JS.three_tenths = true)
    by reflexivity.
  split; [exact Hcap|]. split; [exact Hb|].
  destruct (Hlegal unit_draws_quarter ltac:(discriminate) ltac:(reflexivity))
    as (m & Hm & Hin & Hiscap).
  exists m. split; [exact Hm|]. split; [exact Hin|].
  apply Hiscap; [exact Hcap|].
  apply (Hlt _ (unit_draws_quarter 0%nat)). exact Hb.
Defined.

Lemma findBestMove_legal_move_witness :
  exists mv s',
    findBestMove (E := sound) 2 2 s0 = Return mv s'
    /\ (mv = None <-> game_moves (RulesEngine := sound) (game s0) = [])
    /\ (forall m, mv = Some m
                  -> In m (game_moves (RulesEngine := sound) (game s0))).
Proof.
  apply (@findBestMove_legal_move Game sound
           (@MiniatureFacts.undo_restores_engine _)
           (@MiniatureFacts.legal_moves_apply_engine _)
           MiniatureFacts.never_fails_sound 2%nat 2%Z s0);
    [lia | simpl; lia].
Defined.

Lemma root_break_unreachable_witness :
  exists vars s',
    rootLoop (E := sound) 3 3 moves0 s0 = Return (Continue, vars) s'.
Proof.
  apply (proj2 (@root_break_unreachable Game sound)
           (@MiniatureFacts.undo_restores_engine _)
           (@MiniatureFacts.legal_moves_apply_engine _)
           MiniatureFacts.never_fails_sound 3%nat 3%Z moves0 s0);
    [lia | simpl; lia | intros m Hm; exact Hm].
Defined.

Lemma alpha_beta_equivalence_witness :
  exists s',
    findBestMove (E := sound) 4 4 s0
    = Return (findBestMoveExhaustive (E := sound) 4 start
                (fun _ => 0.5%float)) s'.
Proof.
  apply (proj1 (@alpha_beta_equivalence Game sound
                  (@MiniatureFacts.undo_restores_engine _)
                  (@MiniatureFacts.legal_moves_apply_engine _)
                  MiniatureFacts.never_fails_sound 4%nat 4%Z s0
                  ltac:(lia) ltac:(simpl; lia))).
Defined.

End Witnesses.

(** ** More on the evaluator *)


(** X1. [evaluateKingSafety(color)] is ten times the number of pawns of
    that colour on the three squares of the row in front of the king of
    that colour (the first such king in row-major order): at most 30, and 0
    when the board holds no such king. *)
Theorem evaluateKingSafety_counts_shield (board : Board) (c : Color) :
  evaluateKingSafety board c = JS.of_nat (10 * shieldPawns board c)
  /\ (shieldPawns board c <= 3)%nat
  /\ (findKing board c = None -> evaluateKingSafety board c = 0%float).
Proof.
  unfold evaluateKingSafety, shieldPawns. cbv zeta.
  destruct (findKing board c) as [[row col]|]; [|repeat split; lia].
  set (shieldRow := (row + match c with White => -1 | Black => 1 end)%Z).
  destruct ((0 <=? shieldRow) && (shieldRow <? 8))%Z;
    [|repeat split; try lia; discriminate].
  cbn [fold_left filter].
  destruct ((0 <=? col + -1) && (col + -1 <? 8))%Z;
    destruct ((0 <=? col + 0) && (col + 0 <? 8))%Z;
    destruct ((0 <=? col + 1) && (col + 1 <? 8))%Z;
    cbn [andb];
    destruct (is_piece Pawn c (square board shieldRow (col + -1)));
    destruct (is_piece Pawn c (square board shieldRow (col + 0)));
    destruct (is_piece Pawn c (square board shieldRow (col + 1)));
    (split; [vm_compute; reflexivity | split; [simpl; lia | discriminate]]).
Qed.

Section PawnStructure.

(** Leibniz equality of two numbers, decided. *)
Lemma float_eqb_eq (x y : float) : PrimFloat.Leibniz.eqb x y = true -> x = y.
Proof. apply FloatAxioms.Leibniz.eqb_spec. Qed.

(** Counting by floating-point increments is exact on small counts. *)
Lemma of_nat_succ (n : nat) :
  (n < 64)%nat -> (JS.of_nat n + 1)%float = JS.of_nat (S n).
Proof.
  intros Hn.
  assert (H : forallb (fun n => PrimFloat.Leibniz.eqb (JS.of_nat n + 1)%float
                                  (JS.of_nat (S n)))
                (seq 0 64) = true) by (vm_compute; reflexivity).
  rewrite forallb_forall in H. apply float_eqb_eq, H, in_seq. lia.
Qed.

Lemma count_fold (f : Z -> bool) (l : list Z) (a : nat) :
  (a + List.length l <= 64)%nat ->
  fold_left (fun acc x => if f x then (acc + 1)%float else acc) l (JS.of_nat a)
  = JS.of_nat (a + List.length (filter f l)).
Proof.
  revert a. induction l as [|x l IH]; intros a Ha; cbn [fold_left filter].
  - now rewrite Nat.add_0_r.
  - cbn [List.length] in Ha. destruct (f x).
    + rewrite of_nat_succ by lia. rewrite IH by (cbn [List.length]; lia).
      cbn [List.length]. f_equal. lia.
    + apply IH. lia.
Qed.

Lemma filter_length_le {A} (f : A -> bool) (l : list A) :
  (List.length (filter f l) <= List.length l)%nat.
Proof.
  induction l as [|x l IH]; simpl; [lia|]. destruct (f x); simpl; lia.
Qed.

Lemma pawnsInColumn_le board c col : (pawnsInColumn board c col <= 8)%nat.
Proof. unfold pawnsInColumn. apply (@filter_length_le Z _ range8). Qed.

Lemma columnPenalty_le n b : (n <= 8)%nat -> (columnPenalty n b <= 85)%nat.
Proof.
  intros Hn. unfold columnPenalty.
  destruct (1 <? n)%nat; destruct ((0 <? n)%nat && negb b); lia.
Qed.

(** One column of [evaluatePawnStructure], on exact counts. *)
Lemma column_step (p n : nat) (has : bool) :
  (p <= 600)%nat -> (n <= 8)%nat ->
  (let score := (0 - JS.of_nat p)%float in
   let pawnsInCol := JS.of_nat n in
   let score :=
     if JS.gt pawnsInCol 1 then (score - 10 * (pawnsInCol - 1))%float
     else score in
   if JS.gt pawnsInCol 0 && negb has then (score - 15)%float else score)
  = (0 - JS.of_nat (p + columnPenalty n has))%float.
Proof.
  intros Hp Hn.
  assert (H : forallb (fun p => forallb (fun n => forallb (fun has =>
      PrimFloat.Leibniz.eqb
        (let score := (0 - JS.of_nat p)%float in
         let pawnsInCol := JS.of_nat n in
         let score :=
           if JS.gt pawnsInCol 1 then (score - 10 * (pawnsInCol - 1))%float
           else score in
         if JS.gt pawnsInCol 0 && negb has then (score - 15)%float else score)
        (0 - JS.of_nat (p + columnPenalty n has))%float)
      [true; false]) (seq 0 9)) (seq 0 601) = true)
    by (vm_compute; reflexivity).
  rewrite forallb_forall in H.
  specialize (H p ltac:(apply in_seq; lia)).
  rewrite forallb_forall in H.
  specialize (H n ltac:(apply in_seq; lia)).
  rewrite forallb_forall in H.
  apply float_eqb_eq, H. destruct has; simpl; tauto.
Qed.

Lemma existsb_pawn board c col :
  existsb (fun row => is_piece Pawn c (square board row col)) range8
  = (0 <? pawnsInColumn board c col)%nat.
Proof.
  unfold pawnsInColumn. induction range8 as [|x l IH]; [reflexivity|].
  cbn [existsb filter]. destruct (is_piece Pawn c (square board x col));
    [reflexivity | exact IH].
Qed.

Lemma pawnsInCol_exact board c col :
  fold_left
    (fun pawnsInCol row =>
       if is_piece Pawn c (square board row col)
       then (pawnsInCol + 1)%float else pawnsInCol)
    range8 0%float
  = JS.of_nat (pawnsInColumn board c col).
Proof.
  change 0%float with (JS.of_nat 0).
  rewrite (count_fold (fun row => is_piece Pawn c (square board row col))
             range8 0) by (unfold range8; simpl; lia).
  reflexivity.
Qed.

End PawnStructure.

(** X2. [evaluatePawnStructure(color)] is minus the sum, over the eight
    columns, of 10 for each pawn of that colour after the first in the
    column and 15 when the column holds pawns of that colour and neither
    neighbouring column does: it is never positive and never below -680. *)
Theorem evaluatePawnStructure_penalties (board : Board) (c : Color) :
  evaluatePawnStructure board c = (0 - JS.of_nat (pawnPenalty board c))%float
  /\ (pawnPenalty board c <= 680)%nat
  /\ JS.le (evaluatePawnStructure board c) 0 = true.
Proof.
  assert (Hgen : forall cols p,
             (p + 85 * List.length cols <= 680)%nat ->
             fold_left
               (fun score col =>
                  let pawnsInCol :=
                    fold_left
                      (fun pawnsInCol row =>
                         if is_piece Pawn c (square board row col)
                         then (pawnsInCol + 1)%float else pawnsInCol)
                      range8 0%float in
                  let hasPawnInAdjacentCol :=
                    fold_left
                      (fun has adjacentCol =>
                         if ((0 <=? adjacentCol) && (adjacentCol <? 8))%Z then
                           if existsb (fun row => is_piece Pawn c
                                                    (square board row adjacentCol))
                                range8
                           then true else has
                         else has)
                      [(col - 1)%Z; (col + 1)%Z] false in
                  let score :=
                    if JS.gt pawnsInCol 1
                    then (score - 10 * (pawnsInCol - 1))%float else score in
                  if JS.gt pawnsInCol 0 && negb hasPawnInAdjacentCol
                  then (score - 15)%float else score)
               cols (0 - JS.of_nat p)%float
             = (0 - JS.of_nat
                      (p + list_sum
                             (map (fun col =>
                                     columnPenalty (pawnsInColumn board c col)
                                       (hasNeighbourPawn board c col))
                                cols)))%float
               /\ (p + list_sum
                         (map (fun col =>
                                 columnPenalty (pawnsInColumn board c col)
                                   (hasNeighbourPawn board c col))
                            cols)
                   <= p + 85 * List.length cols)%nat).
  { induction cols as [|col cols IH]; intros p Hp.
    - cbn [fold_left map list_sum fold_right List.length]. split; [|lia].
      now rewrite Nat.add_0_r.
    - change (fold_left ?f (col :: cols) ?a) with (fold_left f cols (f a col)).
      cbn [map list_sum fold_right]. cbn [List.length] in Hp. cbv beta zeta.
      pose proof (pawnsInColumn_le board c col) as Hn.
      pose proof (columnPenalty_le (hasNeighbourPawn board c col) Hn) as Hpen.
      rewrite pawnsInCol_exact.
      assert (Hhas :
                fold_left
                  (fun has adjacentCol =>
                     if ((0 <=? adjacentCol) && (adjacentCol <? 8))%Z then
                       if existsb (fun row => is_piece Pawn c
                                                (square board row adjacentCol))
                            range8
                       then true else has
                     else has)
                  [(col - 1)%Z; (col + 1)%Z] false
                = hasNeighbourPawn board c col).
      { unfold hasNeighbourPawn. cbn [fold_left existsb].
        rewrite !existsb_pawn.
        destruct ((0 <=? col - 1) && (col - 1 <? 8))%Z;
          destruct ((0 <=? col + 1) && (col + 1 <? 8))%Z;
          destruct (0 <? pawnsInColumn board c (col - 1))%nat;
          destruct (0 <? pawnsInColumn board c (col + 1))%nat; reflexivity. }
      rewrite Hhas.
      pose proof (@column_step p (pawnsInColumn board c col)
                    (hasNeighbourPawn board c col) ltac:(lia) Hn) as Hstep.
      cbv zeta in Hstep. rewrite Hstep.
      destruct (IH (p + columnPenalty (pawnsInColumn board c col)
                          (hasNeighbourPawn board c col))%nat)
        as (Heq & Hle); [cbn [List.length]; lia|].
      cbv zeta in Heq. rewrite Heq. unfold list_sum in *.
      split; [f_equal; f_equal; lia|].
      cbn [List.length]. lia. }
  destruct (Hgen range8 0%nat ltac:(unfold range8; simpl; lia)) as (Heq & Hle).
  assert (Hval : evaluatePawnStructure board c
                 = (0 - JS.of_nat (pawnPenalty board c))%float) by exact Heq.
  assert (Hbound : (pawnPenalty board c <= 680)%nat)
    by (unfold pawnPenalty; change (List.length range8) with 8%nat in Hle;
        lia).
  split; [exact Hval|]. split; [exact Hbound|]. rewrite Hval.
  assert (H : forallb (fun p => JS.le (0 - JS.of_nat p) 0) (seq 0 681) = true)
    by (vm_compute; reflexivity).
  rewrite forallb_forall in H. apply H, in_seq. lia.
Qed.

(** X3. On the board ([row] and [col] in 0..7), [getPieceValue] gives a
    white piece on a row the value it gives the black piece of the same
    type on the mirrored row [7 - row]; the value of any piece lies
    between 80 and 20030, so it is a positive finite number. *)
Theorem getPieceValue_mirror (t : PieceType) (row col : Z) :
  In row range8 -> In col range8 ->
  getPieceValue (mkPiece t White) row col
  = getPieceValue (mkPiece t Black) (7 - row) col
  /\ forall c,
      JS.le 80 (getPieceValue (mkPiece t c) row col) = true
      /\ JS.le (getPieceValue (mkPiece t c) row col) 20030 = true.
Proof.
  intros Hrow Hcol. split.
  - unfold getPieceValue. reflexivity.
  - intros c.
    assert (H : forallb (fun p => forallb (fun i => forallb (fun j =>
                   JS.le 80 (getPieceValue p i j)
                   && JS.le (getPieceValue p i j) 20030)
                 range8) range8) pieces12 = true) by (vm_compute; reflexivity).
    rewrite forallb_forall in H.
    specialize (H (mkPiece t c) (In_pieces12 (mkPiece t c))).
    rewrite forallb_forall in H. specialize (H row Hrow).
    rewrite forallb_forall in H. specialize (H col Hcol).
    now apply andb_true_iff in H.
Qed.


(** ** More on the search *)

Section BestMove.
Context {G : Type} {E : RulesEngine G}.
Local Open Scope Z_scope.

Lemma rootLoopFull_best depth g :
  forall xs F,
    JS.num (bestValue F) ->
    (forall m, bestMove F = Some m ->
               exists g', game_move m g = Some g'
                          /\ JS.key (- fullWidth (depth - 1) false g')
                             = JS.key (bestValue F)) ->
    let F' := fold_left (rootStepFull depth g) xs F in
    JS.num (bestValue F')
    /\ JS.key (bestValue F) <= JS.key (bestValue F')
    /\ (forall x g', In x xs -> game_move x g = Some g' ->
                     JS.key (- fullWidth (depth - 1) false g')
                     <= JS.key (bestValue F'))
    /\ (forall m, bestMove F' = Some m ->
                  exists g', game_move m g = Some g'
                             /\ JS.key (- fullWidth (depth - 1) false g')
                                = JS.key (bestValue F')).
Proof.
  induction xs as [|x xs IH]; intros F Hnum Hbest; cbn [fold_left].
  - cbv zeta. repeat split; auto; try lia. intros x g' [].
  - set (F1 := rootStepFull depth g F x).
    assert (H1 : JS.num (bestValue F1)
                 /\ JS.key (bestValue F) <= JS.key (bestValue F1)
                 /\ (forall g', game_move x g = Some g' ->
                                JS.key (- fullWidth (depth - 1) false g')
                                <= JS.key (bestValue F1))
                 /\ (forall m, bestMove F1 = Some m ->
                        exists g', game_move m g = Some g'
                          /\ JS.key (- fullWidth (depth - 1) false g')
                             = JS.key (bestValue F1))).
    { subst F1. unfold rootStepFull.
      destruct (game_move x g) as [g'|] eqn:Hgm.
      - pose proof (@fullWidth_num G E (@evaluatePosition_num G E)
                      (depth - 1)%nat false g') as Hfw.
        assert (Hv : JS.num (- fullWidth (depth - 1) false g'))
          by now apply JSFacts.num_opp.
        cbv zeta. rewrite (gt_key Hv Hnum).
        destruct (Z.ltb_spec (JS.key (bestValue F))
                    (JS.key (- fullWidth (depth - 1) false g')))
          as [Hlt | Hge]; cbn [bestValue bestMove].
        + repeat split; auto; try lia.
          * intros g'' Hg''. injection Hg'' as <-. lia.
          * intros m Hm. injection Hm as <-. now exists g'.
        + repeat split; auto; try lia.
          intros g'' Hg''. injection Hg'' as <-. lia.
      - repeat split; auto; try lia. intros g' Hg'. discriminate. }
    destruct H1 as (Hn1 & Hle1 & Hx1 & Hb1).
    destruct (IH F1 Hn1 Hb1) as (Hn & Hle & Hall & Hb).
    cbv zeta. repeat split; auto; try lia.
    intros y g' [<- | Hy] Hg'.
    + specialize (Hx1 g' Hg'). lia.
    + exact (Hall y g' Hy Hg').
Qed.

Lemma findBestMove_runs_exhaustive :
  undo_restores -> legal_moves_apply -> never_fails ->
  forall fuel depth (s : @QuickChess G),
    (1 <= depth)%Z -> (Z.to_nat depth <= fuel)%nat ->
    exists s',
      findBestMove fuel depth s
      = Return (findBestMoveExhaustive (Z.to_nat depth) (game s) (random s)) s'
      /\ game s' = game s.
Proof.
  intros Hundo Hlegal Hnever fuel depth s Hd Hf.
  destruct (@findBestMove_runs G E Hundo Hlegal Hnever fuel depth s Hd Hf)
    as (s' & Hrun & Hg).
  exists s'. split; [|exact Hg]. rewrite Hrun. f_equal.
  unfold findBestMovePure, findBestMoveExhaustive.
  destruct (List.length (game_moves (game s)) =? 0)%nat; [reflexivity|].
  pose proof (orderMovesPure_Permutation (game_moves (game s)) (random s))
    as Hperm.
  destruct (@rootLoopPure_agrees G E (Z.to_nat depth) (game s)
              (orderMovesPure (game_moves (game s)) (random s)) Hlegal
              (fun m Hm => Permutation_in m (Permutation_sym Hperm) Hm))
    as (vars & Hloop & Hagree & _).
  rewrite Hloop. cbn [snd]. apply Hagree.
Qed.

End BestMove.

(** X5. With a rules engine that keeps its contract, the move that
    [findBestMove(depth)] returns leads to a position whose exhaustive
    minimax value (the next level minimizing, [evaluatePosition] counting
    black, the engine, as positive) is the least among the positions that
    the legal moves lead to: the root negates the value of a minimizing
    child and keeps the move with the largest negation. *)
Theorem findBestMove_least_value {G : Type} {E : RulesEngine G} :
  undo_restores -> legal_moves_apply -> never_fails ->
  forall fuel depth (s : @QuickChess G) mv s',
    (1 <= depth)%Z -> (Z.to_nat depth <= fuel)%nat ->
    findBestMove fuel depth s = Return (Some mv) s' ->
    exists g',
      game_move mv (game s) = Some g'
      /\ forall m g'',
          In m (game_moves (game s)) -> game_move m (game s) = Some g'' ->
          JS.le (fullWidth (Z.to_nat depth - 1) false g')
                (fullWidth (Z.to_nat depth - 1) false g'') = true.
Proof.
  intros Hundo Hlegal Hnever fuel depth s mv s' Hd Hf Hrun.
  destruct (@findBestMove_runs_exhaustive G E Hundo Hlegal Hnever fuel depth s
              Hd Hf) as (s1 & Hrun1 & _).
  rewrite Hrun1 in Hrun. injection Hrun as Hmv _.
  unfold findBestMoveExhaustive in Hmv.
  destruct (List.length (game_moves (game s)) =? 0)%nat; [discriminate|].
  unfold rootLoopFull in Hmv.
  destruct (@rootLoopFull_best G E (Z.to_nat depth) (game s)
              (orderMovesPure (game_moves (game s)) (random s))
              (mkRootVars None neg_infinity neg_infinity)
              JSFacts.num_neg_infinity
              ltac:(intros m Hm; discriminate Hm))
    as (_ & _ & Hall & Hbest).
  destruct (Hbest mv Hmv) as (g' & Hg' & Hkey).
  exists g'. split; [exact Hg'|].
  intros m g'' Hin Hg''.
  pose proof (orderMovesPure_Permutation (game_moves (game s)) (random s))
    as Hperm.
  specialize (Hall m g'' (Permutation_in m Hperm Hin) Hg'').
  rewrite <- Hkey in Hall. rewrite !JSFacts.key_opp in Hall.
  apply le_key; try (apply (@fullWidth_num G E (@evaluatePosition_num G E))).
  lia.
Qed.

Section NodeCount.
Context {G : Type} {E : RulesEngine G}.
Local Open Scope Z_scope.

Lemma searchBound_pos B depth : 1 <= searchBound B depth.
Proof.
  induction depth as [|depth IH]; cbn [searchBound]; [lia|].
  assert (0 <= Z.of_nat B * searchBound B depth) by nia. lia.
Qed.

Lemma counts_weaken {A} lo hi lo' hi' (c : @M G A) :
  lo' <= lo -> hi <= hi' -> counts lo hi c -> counts lo' hi' c.
Proof.
  intros Hlo Hhi Hc s a s' Hrun. specialize (Hc s a s' Hrun). lia.
Qed.

Lemma counts_ret {A} (a : A) : counts 0 0 (ret (G := G) a).
Proof. intros s a' s' Hrun. unfold ret in Hrun. injection Hrun as _ <-. lia. Qed.

Lemma counts_bind {A B} lo1 hi1 lo2 hi2 (c : @M G A) (k : A -> @M G B) :
  counts lo1 hi1 c -> (forall a, counts lo2 hi2 (k a)) ->
  counts (lo1 + lo2) (hi1 + hi2) (bind c k).
Proof.
  intros Hc Hk s b s' Hrun.
  apply bind_Return in Hrun. destruct Hrun as (a & s1 & H1 & H2).
  specialize (Hc s a s1 H1). specialize (Hk a s1 b s' H2). lia.
Qed.

Lemma counts_call {A} (f : G -> A) : counts 0 0 (call f).
Proof.
  intros s a s' Hrun. apply call_Return in Hrun.
  destruct Hrun as (_ & -> & _). lia.
Qed.

Lemma counts_move_ m : counts 0 0 (move_ (G := G) m).
Proof.
  intros s a s' Hrun. apply move_Return in Hrun. destruct Hrun as (_ & Hrun).
  destruct (game_move m (game s)); destruct Hrun as (_ & ->); cbn [nodeCount]; lia.
Qed.

Lemma counts_undo_ : counts 0 0 (undo_ (G := G)).
Proof.
  intros s a s' Hrun. apply undo_Return in Hrun. subst s'. cbn [nodeCount]. lia.
Qed.

Lemma counts_countNode : counts 1 1 (countNode (G := G)).
Proof.
  intros s a s' Hrun. rewrite countNode_run in Hrun.
  injection Hrun as _ <-. cbn [nodeCount]. lia.
Qed.

Lemma counts_for_of {A S} (k : Z) (xs : list A)
  (body : A -> S -> @M G (Flow * S)) :
  0 <= k ->
  (forall x v, In x xs -> counts 0 k (body x v)) ->
  forall v, counts 0 (Z.of_nat (List.length xs) * k) (for_of xs body v).
Proof.
  intros Hk. induction xs as [|x xs IH]; intros Hbody v.
  - simpl. apply counts_ret.
  - cbn [for_of List.length]. rewrite Nat2Z.inj_succ.
    apply counts_weaken with (lo := 0 + 0) (hi := k + Z.of_nat (List.length xs) * k);
      [lia | lia |].
    apply counts_bind; [apply Hbody; now left|].
    intros [[|] v'].
    + apply IH. intros y w Hy. apply Hbody. now right.
    + apply counts_weaken with (lo := 0) (hi := 0);
        [lia | nia | apply counts_ret].
Qed.

Lemma counts_tail {S} (c : bool) (x y : S) :
  counts 0 0 (if c then ret (G := G) x else ret y).
Proof. destruct c; apply counts_ret. Qed.

Lemma counts_maxStep k rec beta move vars :
  0 <= k -> (forall a b', counts 0 k (rec a b')) ->
  counts 0 k (maxStep (G := G) rec beta move vars).
Proof.
  intros Hk Hrec. destruct vars as [maxEval alpha]. rewrite maxStep_unfold.
  apply counts_weaken with (lo := 0 + 0) (hi := 0 + k); [lia | lia |].
  apply counts_bind; [apply counts_move_|].
  intros [|].
  - apply counts_weaken with (lo := 0 + (0 + 0)) (hi := k + (0 + 0));
      [lia | lia |].
    apply counts_bind; [apply Hrec|]. intros ev.
    apply counts_bind; [apply counts_undo_|]. intros _. apply counts_tail.
  - apply counts_weaken with (lo := 0) (hi := 0); [lia | lia | apply counts_ret].
Qed.

Lemma counts_minStep k rec alpha move vars :
  0 <= k -> (forall a b', counts 0 k (rec a b')) ->
  counts 0 k (minStep (G := G) rec alpha move vars).
Proof.
  intros Hk Hrec. destruct vars as [minEval beta]. rewrite minStep_unfold.
  apply counts_weaken with (lo := 0 + 0) (hi := 0 + k); [lia | lia |].
  apply counts_bind; [apply counts_move_|].
  intros [|].
  - apply counts_weaken with (lo := 0 + (0 + 0)) (hi := k + (0 + 0));
      [lia | lia |].
    apply counts_bind; [apply Hrec|]. intros ev.
    apply counts_bind; [apply counts_undo_|]. intros _. apply counts_tail.
  - apply counts_weaken with (lo := 0) (hi := 0); [lia | lia | apply counts_ret].
Qed.

Variable B : nat.
Hypothesis Hwidth : forall g, (List.length (game_moves g) <= B)%nat.

Lemma counts_minimax (fuel : nat) :
  forall depth alpha beta isMaximizing,
    0 <= depth ->
    counts 1 (searchBound B (Z.to_nat depth))
      (minimax fuel depth alpha beta isMaximizing).
Proof.
  induction fuel as [|fuel IH]; intros depth alpha beta isMaximizing Hd.
  - intros s a s' Hrun. discriminate Hrun.
  - pose proof (searchBound_pos B (Z.to_nat depth)) as Hpos.
    cbn [minimax].
    apply counts_weaken
      with (lo := 1 + 0) (hi := 1 + (searchBound B (Z.to_nat depth) - 1));
      [lia | lia |].
    apply counts_bind; [apply counts_countNode|]. intros _.
    assert (Hleaf : counts 0 (searchBound B (Z.to_nat depth) - 1)
                      (call evaluatePosition))
      by (apply counts_weaken with (lo := 0) (hi := 0);
          [lia | lia | apply counts_call]).
    destruct (Z.eqb_spec depth 0) as [Hz | Hnz].
    + intros s a s' Hrun.
      apply bind_Return in Hrun. destruct Hrun as (t & s1 & Hret & Hrun).
      unfold ret in Hret. injection Hret as <- <-.
      exact (Hleaf s a s' Hrun).
    + replace (Z.to_nat depth) with (S (Z.to_nat (depth - 1))) in * by lia.
      cbn [searchBound] in *.
      pose proof (searchBound_pos B (Z.to_nat (depth - 1))) as Hpos1.
      replace (1 + Z.of_nat B * searchBound B (Z.to_nat (depth - 1)) - 1)
        with (Z.of_nat B * searchBound B (Z.to_nat (depth - 1))) in * by lia.
      apply counts_weaken
        with (lo := 0 + 0)
             (hi := 0 + Z.of_nat B * searchBound B (Z.to_nat (depth - 1)));
        [lia | lia |].
      apply counts_bind; [apply counts_call|]. intros [|]; [exact Hleaf|].
      intros s a s' Hrun.
      apply bind_Return in Hrun. destruct Hrun as (moves & s1 & Hm & Hrun).
      apply call_Return in Hm. destruct Hm as (-> & -> & _).
      pose proof (Hwidth (game s)) as Hw.
      assert (Hloop : forall (step : Move -> float * float ->
                                     @M G (Flow * (float * float))) v0,
                 (forall x v, counts 0 (searchBound B (Z.to_nat (depth - 1)))
                                (step x v)) ->
                 counts 0 (Z.of_nat B * searchBound B (Z.to_nat (depth - 1)))
                   (bind (for_of (game_moves (game s)) step v0)
                      (fun r => ret (fst (snd r))))).
      { intros step v0 Hstep.
        apply counts_weaken
          with (lo := 0 + 0)
               (hi := Z.of_nat (List.length (game_moves (game s)))
                      * searchBound B (Z.to_nat (depth - 1)) + 0);
          [lia | nia |].
        apply counts_bind; [|intros r; apply counts_ret].
        apply counts_for_of; [lia|]. intros x v _. apply Hstep. }
      destruct (List.length (game_moves (game s)) =? 0)%nat.
      * exact (Hleaf s a s' Hrun).
      * destruct isMaximizing.
        -- refine (Hloop _ _ _ s a s' Hrun). intros x v.
           apply counts_maxStep; [lia|]. intros a0 b0.
           apply counts_weaken with (lo := 1)
               (hi := searchBound B (Z.to_nat (depth - 1)));
             [lia | lia | apply IH; lia].
        -- refine (Hloop _ _ _ s a s' Hrun). intros x v.
           apply counts_minStep; [lia|]. intros a0 b0.
           apply counts_weaken with (lo := 1)
               (hi := searchBound B (Z.to_nat (depth - 1)));
             [lia | lia | apply IH; lia].
Qed.

Lemma counts_rootStep fuel depth beta move vars :
  1 <= depth ->
  counts 1 (searchBound B (Z.to_nat (depth - 1)))
    (rootStep fuel depth beta move vars).
Proof.
  intros Hd. unfold rootStep.
  apply counts_weaken
    with (lo := 0 + (1 + (0 + 0)))
         (hi := 0 + (searchBound B (Z.to_nat (depth - 1)) + (0 + 0)));
    [lia | lia |].
  apply counts_bind; [apply counts_move_|]. intros _.
  apply counts_bind; [apply counts_minimax; lia|]. intros v.
  apply counts_bind; [apply counts_undo_|]. intros _. apply counts_tail.
Qed.

End NodeCount.

(** X6. The node counter bounds the work of a search: when no position
    offers more than [B] moves, a call [minimax(depth, ...)] with
    [depth >= 0] that returns has counted at least one node and at most
    [1 + B + ... + B ^ depth], and [findBestMove(depth)], [depth >= 1],
    at most [B] times the bound for [depth - 1]. *)
Theorem search_visits_bounded {G : Type} {E : RulesEngine G} (B : nat) :
  (forall g, (List.length (game_moves g) <= B)%nat) ->
  (forall fuel depth alpha beta isMaximizing (s : @QuickChess G) v s',
      (0 <= depth)%Z ->
      minimax fuel depth alpha beta isMaximizing s = Return v s' ->
      (nodeCount s + 1 <= nodeCount s'
       <= nodeCount s + searchBound B (Z.to_nat depth))%Z)
  /\ (forall fuel depth (s : @QuickChess G) mv s',
         (1 <= depth)%Z ->
         findBestMove fuel depth s = Return mv s' ->
         (nodeCount s <= nodeCount s'
          <= nodeCount s
             + Z.of_nat B * searchBound B (Z.to_nat (depth - 1)))%Z).
Proof.
  intros Hwidth. split.
  - intros fuel depth alpha beta isMaximizing s v s' Hd Hrun.
    exact (@counts_minimax G E B Hwidth fuel depth alpha beta isMaximizing Hd
             s v s' Hrun).
  - intros fuel depth s mv s' Hd Hrun.
    pose proof (searchBound_pos B (Z.to_nat (depth - 1))) as Hpos.
    unfold findBestMove in Hrun.
    apply bind_Return in Hrun. destruct Hrun as (moves & s1 & Hm & Hrun).
    apply call_Return in Hm. destruct Hm as (-> & -> & _).
    destruct (List.length (game_moves (game s)) =? 0)%nat.
    + injection Hrun as _ <-. nia.
    + apply bind_Return in Hrun. destruct Hrun as (ordered & s2 & Ho & Hrun).
      pose proof (orderMoves_Permutation _ _ Ho) as Hperm.
      rewrite orderMoves_run in Ho. injection Ho as _ <-.
      apply bind_Return in Hrun. destruct Hrun as (r & s3 & Hloop & Hrun).
      injection Hrun as _ <-.
      unfold rootLoop in Hloop.
      assert (Hstep : forall x v, In x ordered ->
                 counts 0%Z (searchBound B (Z.to_nat (depth - 1)))
                   (rootStep fuel depth infinity x v)).
      { intros x v _.
        apply counts_weaken
          with (lo := 1%Z) (hi := searchBound B (Z.to_nat (depth - 1)));
          [lia | lia | now apply counts_rootStep]. }
      pose proof (@counts_for_of G E Move RootVars
                    (searchBound B (Z.to_nat (depth - 1))) ordered
                    (rootStep fuel depth infinity) ltac:(lia) Hstep
                    _ _ _ _ Hloop) as Hc.
      cbn [nodeCount] in Hc.
      pose proof (Permutation_length Hperm) as Hlen.
      pose proof (Hwidth (game s)) as Hw.
      rewrite <- Hlen in Hc. nia.
Qed.

Section BelowZero.
Context {G : Type} {E : RulesEngine G}.
Hypothesis Hendless : forall g, game_over g = false.
Hypothesis Hfirst :
  forall g, exists m rest, game_moves g = m :: rest /\ game_move m g <> None.
Hypothesis Hnever : never_fails.

Lemma for_of_first_starves {S} (step : Move -> S -> @M G (Flow * S))
  m rest v s :
  step m v s = OutOfFuel -> for_of (m :: rest) step v s = OutOfFuel.
Proof. intros H. cbn [for_of]. unfold bind. now rewrite H. Qed.

Lemma minimax_starves (fuel : nat) :
  forall depth alpha beta isMaximizing (s : @QuickChess G),
    (depth < 0)%Z ->
    minimax fuel depth alpha beta isMaximizing s = OutOfFuel.
Proof.
  induction fuel as [|fuel IH]; intros depth alpha beta isMaximizing s Hd;
    [reflexivity|].
  cbn [minimax]. unfold bind at 1. rewrite countNode_run.
  destruct (Z.eqb_spec depth 0) as [Hz | _]; [lia|].
  unfold bind at 1. unfold call at 1. cbn [game]. rewrite Hnever, Hendless.
  unfold bind at 1. unfold call at 1. cbn [game]. rewrite Hnever.
  destruct (Hfirst (game s)) as (m & rest & Hmoves & Hmove).
  rewrite Hmoves. cbn [List.length Nat.eqb].
  destruct (game_move m (game s)) as [g'|] eqn:Hgm; [|congruence].
  destruct isMaximizing; unfold bind at 1.
  - rewrite for_of_first_starves; [reflexivity|].
    unfold maxStep. unfold bind at 1. unfold move_. cbn [game].
    rewrite Hnever, Hgm. unfold bind at 1. rewrite IH by lia. reflexivity.
  - rewrite for_of_first_starves; [reflexivity|].
    unfold minStep. unfold bind at 1. unfold move_. cbn [game].
    rewrite Hnever, Hgm. unfold bind at 1. rewrite IH by lia. reflexivity.
Qed.

End BelowZero.

(** X7. The test [depth === 0] does not stop a search that starts below
    zero: on a rules engine in which the game is never over and the first
    move on offer is always accepted, [minimax] with a negative depth and
    [findBestMove] with a depth of 0 or less do not return (the model runs
    out of any fuel). *)
Theorem search_below_zero_never_stops {G : Type} {E : RulesEngine G} :
  (forall g, game_over g = false) ->
  (forall g, exists m rest, game_moves g = m :: rest /\ game_move m g <> None) ->
  never_fails ->
  (forall fuel depth alpha beta isMaximizing (s : @QuickChess G),
      (depth < 0)%Z ->
      minimax fuel depth alpha beta isMaximizing s = OutOfFuel)
  /\ (forall fuel depth (s : @QuickChess G),
         (depth <= 0)%Z -> findBestMove fuel depth s = OutOfFuel).
Proof.
  intros Hendless Hfirst Hnever. split.
  - intros fuel. now apply minimax_starves.
  - intros fuel depth s Hd. unfold findBestMove.
    unfold bind at 1. unfold call at 1. rewrite Hnever.
    destruct (Hfirst (game s)) as (m & rest & Hmoves & _).
    rewrite Hmoves. cbn [List.length Nat.eqb].
    unfold bind at 1. rewrite orderMoves_run.
    pose proof (orderMovesPure_Permutation (m :: rest) (random s)) as Hperm.
    destruct (orderMovesPure (m :: rest) (random s)) as [|x xs] eqn:Ho.
    + apply Permutation_sym, Permutation_nil in Hperm. discriminate Hperm.
    + unfold bind at 1. unfold rootLoop.
      rewrite for_of_first_starves; [reflexivity|].
      unfold rootStep. unfold bind at 1.
      destruct (move_ x _) as [res s1 | s1 | ] eqn:Hmv.
      * unfold bind at 1.
        rewrite (@minimax_starves G E Hendless Hfirst Hnever) by lia.
        reflexivity.
      * apply move_Throw in Hmv. destruct Hmv as (_ & Hf).
        rewrite Hnever in Hf. discriminate Hf.
      * reflexivity.
Qed.

(** ** The page: the handlers around the search *)

Local Open Scope string_scope.

Section AppFacts.
Context {G : Type} {E : RulesEngine G} {C : GameControls G}.

(** Unfolding the combinators of the handlers. *)
Ltac ui_unfold :=
  unfold ubind, uret, assign, on_page, lift, call, detached, try_catch,
    setTimeout, getStorageData, setStorageData in *.

Lemma ubind_Done {A B} (c : @UI G A) (k : A -> @UI G B) st b st2 :
  ubind c k st = Done b st2 ->
  exists a st1, c st = Done a st1 /\ k a st1 = Done b st2.
Proof.
  unfold ubind. destruct (c st) as [a st1 | st1 | ]; try discriminate.
  intros H. now exists a, st1.
Qed.

Lemma keeps_bind {A B} P (c : @UI G A) (k : A -> @UI G B) :
  keeps P c -> (forall a, keeps P (k a)) -> keeps P (ubind c k).
Proof.
  intros Hc Hk st HP. unfold ubind. specialize (Hc st HP).
  destruct (c st) as [a st1 | st1 | ]; auto. now apply Hk.
Qed.

Lemma keeps_uret {A} P (a : A) : keeps P (uret (G := G) a).
Proof. intros st HP. exact HP. Qed.

Lemma keeps_if {A} P (b : bool) (c1 c2 : @UI G A) :
  keeps P c1 -> keeps P c2 -> keeps P (if b then c1 else c2).
Proof. now destruct b. Qed.

Lemma keeps_assign P (f : @App G -> @App G) :
  (forall st, P st -> P (f st)) -> keeps P (assign f).
Proof. intros Hf st HP. now apply Hf. Qed.

Lemma keeps_lift {A} P (c : @M G A) :
  (forall st s, P st -> P (set_core s st)) -> keeps P (lift c).
Proof.
  intros Hf st HP. unfold lift.
  destruct (c (core st)) as [a s' | s' | ]; auto.
Qed.

Lemma keeps_detached P (c : @UI G unit) : keeps P c -> keeps P (detached c).
Proof.
  intros Hc st HP. unfold detached. specialize (Hc st HP).
  destruct (c st) as [a st1 | st1 | ]; auto.
Qed.


Lemma keeps_read {A} P (f : @App G -> A) : keeps P (fun st => Done (f st) st).
Proof. intros st HP. exact HP. Qed.

Lemma keeps_setTimeout P t d :
  (forall st, P st ->
     P (mkApp (core st) (difficulty st) (isAiThinking st) (lastMoveSquares st)
          (page st) (storage st) ((t, d) :: timers st))) ->
  keeps P (setTimeout (G := G) t d).
Proof. intros Hf st HP. now apply Hf. Qed.

Lemma establishes_bind {A B} P (c : @UI G A) (k : A -> @UI G B) :
  (forall a, establishes P (k a)) -> establishes P (ubind c k).
Proof.
  intros Hk st. unfold ubind. destruct (c st) as [a st1 | st1 | ]; auto.
  apply Hk.
Qed.

Lemma always_establishes {A} P (c : @UI G A) : always P c -> establishes P c.
Proof.
  intros Hc st. specialize (Hc st). destruct (c st); auto.
Qed.

Lemma always_keeps {A B} P (c : @UI G A) (k : A -> @UI G B) :
  always P c -> (forall a, keeps P (k a)) -> always P (ubind c k).
Proof.
  intros Hc Hk st. unfold ubind. specialize (Hc st).
  destruct (c st) as [a st1 | st1 | ]; auto. now apply Hk.
Qed.

(** The frame of [settled]: the core, the timers, the storage and the
    other fields of the page do not matter. *)
Ltac settled_frame :=
  intros; unfold settled in *; cbn; auto.

Lemma keeps_settled_triggerWinCelebration :
  keeps settled (triggerWinCelebration (G := G)).
Proof.
  unfold triggerWinCelebration.
  apply keeps_bind; [apply keeps_lift; settled_frame | intros pieces].
  apply keeps_bind;
    [unfold on_page; apply keeps_assign; settled_frame | intros _].
  apply keeps_setTimeout; settled_frame.
Qed.

Ltac keeps_settled :=
  repeat match goal with
    | |- keeps _ triggerWinCelebration =>
        apply keeps_settled_triggerWinCelebration
    | |- keeps _ (uret _) => apply keeps_uret
    | |- keeps _ (ubind _ _) => apply keeps_bind; [|intros ?]
    | |- keeps _ (if _ then _ else _) => apply keeps_if
    | |- keeps _ (detached _) => apply keeps_detached
    | |- keeps _ (lift _) => apply keeps_lift; settled_frame
    | |- keeps _ (assign _) => apply keeps_assign; settled_frame
    | |- keeps _ (setTimeout _ _) => apply keeps_setTimeout; settled_frame
    | |- keeps _ (match ?x with _ => _ end) => destruct x
    | |- keeps _ (fun st => Done _ st) => apply keeps_read
    end.

Lemma keeps_settled_updateStatus msg : keeps settled (updateStatus msg).
Proof.
  unfold updateStatus, statusLines, on_page.
  keeps_settled.
Qed.

Lemma keeps_settled_saveGameState : keeps settled saveGameState.
Proof. unfold saveGameState, setStorageData. keeps_settled. Qed.

Lemma always_settled_tail {A} (rest : @UI G A) :
  keeps settled rest ->
  always settled
    (ubind (assign (set_isAiThinking false))
       (fun _ => ubind removeThinkingIndicator (fun _ => rest))).
Proof.
  intros Hrest st. unfold ubind, assign, removeThinkingIndicator, on_page.
  apply Hrest. split; reflexivity.
Qed.

End AppFacts.

(** X8. However the callback of [makeAIMove] ends, by returning or by an
    exception that leaves its [catch] block, [isAiThinking] is [false] and
    the thinking indicator is off. *)
Theorem runAIMove_always_settles {G : Type} {E : RulesEngine G}
    {C : GameControls G} (fuel : nat) (st : @App G) :
  match runAIMove fuel st with
  | Done _ st' | Raised st' =>
      isAiThinking st' = false /\ thinking (page st') = false
  | Starved => True
  end.
Proof.
  assert (Hhandler : always settled
            (ubind (assign (set_isAiThinking false))
               (fun _ => ubind removeThinkingIndicator
                           (fun _ => updateStatus None)))).
  { apply always_settled_tail, keeps_settled_updateStatus. }
  unfold runAIMove, try_catch.
  match goal with
  | |- match (match ?body st with _ => _ end) with _ => _ end =>
      assert (Hdone : establishes settled body)
  end.
  { apply establishes_bind. intros possibleMoves.
    destruct (List.length possibleMoves =? 0)%nat.
    - apply always_establishes, always_settled_tail, keeps_settled_updateStatus.
    - apply establishes_bind. intros d.
      apply establishes_bind. intros selectedMove.
      apply establishes_bind. intros _.
      apply always_establishes, always_settled_tail.
      apply keeps_bind; [apply keeps_settled_updateStatus|].
      intros _. apply keeps_settled_saveGameState. }
  specialize (Hdone st). cbv beta in Hdone.
  match goal with
  | |- match (match ?body with _ => _ end) with _ => _ end =>
      destruct body as [a st' | st' | ]
  end.
  - exact Hdone.
  - exact (Hhandler st').
  - exact I.
Qed.

Section AppRuns.
Context {G : Type} {E : RulesEngine G} {C : GameControls G}.
Hypothesis Hnever : never_fails.

Lemma set_core_same (st : @App G) : set_core (core st) st = st.
Proof. now destruct st. Qed.

Lemma ubind_run {A B} (c : @UI G A) (k : A -> @UI G B) st a st1 :
  c st = Done a st1 -> ubind c k st = k a st1.
Proof. intros H. unfold ubind. now rewrite H. Qed.

Lemma lift_call_run {A} (f : G -> A) (st : @App G) :
  lift (call f) st = Done (f (game (core st))) st.
Proof.
  unfold lift, call. rewrite Hnever. now rewrite set_core_same.
Qed.

Lemma ubind_call_run {A B} (f : G -> A) (h : A -> B) (st : @App G) :
  ubind (lift (call f)) (fun x => uret (h x)) st
  = Done (h (f (game (core st)))) st.
Proof. now rewrite (@ubind_run _ _ _ _ _ _ _ (lift_call_run f st)). Qed.

Lemma showPosition_run (st : @App G) :
  showPosition st
  = Done tt (set_page (set_boardPosition (game_fen (game (core st))) (page st))
               st).
Proof.
  unfold showPosition. rewrite (@ubind_run _ _ _ _ _ _ _ (lift_call_run game_fen st)).
  reflexivity.
Qed.

Lemma saveGameState_run (st : @App G) :
  saveGameState st
  = Done tt (set_storage
               (storage_set "gameState"
                  (StoredState
                     (mkGameState (game_fen (game (core st))) (difficulty st)
                        (lastMoveSquares st) (game_pgn (game (core st)))))
                  (storage st))
               st).
Proof.
  unfold saveGameState, detached.
  rewrite (@ubind_run _ _ _ _ _ _ _ (lift_call_run game_fen st)).
  unfold ubind at 1. unfold ubind at 1.
  rewrite (@ubind_run _ _ _ _ _ _ _ (lift_call_run game_pgn st)).
  reflexivity.
Qed.

Lemma engineToMove_run (st : @App G) :
  engineToMove st
  = Done (negb (game_over (game (core st)))
          && match game_turn (game (core st)) with
             | Black => true
             | White => false
             end)
      st.
Proof.
  unfold engineToMove. rewrite (@ubind_run _ _ _ _ _ _ _ (lift_call_run game_over st)).
  destruct (game_over (game (core st))); [reflexivity|].
  rewrite (@ubind_run _ _ _ _ _ _ _ (lift_call_run game_turn st)). reflexivity.
Qed.

Lemma drawConfetti_run (n : nat) (s : @QuickChess G) :
  exists l r,
    drawConfetti n s = Return l (mkQuickChess (game s) (nodeCount s) r).
Proof.
  revert s. induction n as [|n IH]; intros s; cbn [drawConfetti].
  - exists [], (random s). now destruct s.
  - unfold bind at 1. unfold Math_random at 1.
    destruct (IH (mkQuickChess (game s) (nodeCount s)
                    (fun i => random s (S i)))) as (l & r & Hrun).
    unfold bind at 1. rewrite Hrun. cbn [game nodeCount].
    now exists ((2 + random s 0%nat * 2)%float :: l), r.
Qed.

Lemma triggerWinCelebration_run (st : @App G) :
  exists l r,
    triggerWinCelebration st
    = Done tt
        (mkApp (mkQuickChess (game (core st)) (nodeCount (core st)) r)
           (difficulty st) (isAiThinking st) (lastMoveSquares st)
           (set_celebration true l (page st)) (storage st)
           ((EndCelebration, 4000%Z) :: timers st)).
Proof.
  destruct (drawConfetti_run 10 (core st)) as (l & r & Hrun).
  exists l, r. unfold triggerWinCelebration.
  unfold ubind at 1. unfold lift. rewrite Hrun. reflexivity.
Qed.

Lemma status_only_refl (st : @App G) : status_only st st.
Proof. unfold status_only. repeat split; auto. Qed.

Lemma updateStatus_run msg (st : @App G) :
  exists st', updateStatus msg st = Done tt st' /\ status_only st st'.
Proof.
  unfold updateStatus.
  unfold ubind at 1.
  assert (Hd : forall (b : bool) (st0 : @App G),
             (if b then uret true else lift (call game_over)) st0
             = Done (if b then true else game_over (game (core st0))) st0).
  { intros [|] st0; [reflexivity | apply lift_call_run]. }
  rewrite (@ubind_run _ _ _ _ _ _ _ (Hd (isAiThinking st) st)).
  set (isDisabled := if isAiThinking st then true else game_over (game (core st))).
  assert (Hu : (if isDisabled then uret true
                else ubind (lift (call game_history))
                       (fun h => uret (List.length h =? 0)%nat)) st
               = Done (if isDisabled then true
                       else (List.length (game_history (game (core st))) =? 0)%nat)
                   st).
  { destruct isDisabled; [reflexivity|].
    now rewrite (@ubind_run _ _ _ _ _ _ _ (lift_call_run game_history st)). }
  rewrite (@ubind_run _ _ _ _ _ _ _ Hu).
  set (undo := if isDisabled then true else _).
  unfold ubind at 1. unfold on_page at 1. unfold assign at 1.
  set (st1 := set_page _ st).
  assert (H1 : status_only st st1) by (unfold status_only; repeat split; auto).
  assert (Hstatus : forall (c : @UI G unit),
             (exists st', c st1 = Done tt st' /\ status_only st1 st') ->
             exists st', c st1 = Done tt st' /\ status_only st st').
  { intros c (st' & Hc & Hs). exists st'. split; [exact Hc|].
    unfold status_only in *. cbn in Hs |- *.
    destruct Hs as (? & ? & ? & ? & ? & ? & ? & ? & ? & ? & ? & ? & ?).
    repeat split; auto. }
  assert (Hrest : exists st', statusLines st1 = Done tt st' /\ status_only st1 st').
  { unfold statusLines.
    rewrite (@ubind_run _ _ _ _ _ _ _ (lift_call_run game_over st1)).
    destruct (game_over (game (core st1))).
    - unfold ubind at 1. unfold on_page at 1. unfold assign at 1.
      match goal with |- context [ubind _ _ ?x] => set (st2 := x) end.
      rewrite (@ubind_run _ _ _ _ _ _ _ (lift_call_run in_checkmate st2)).
      destruct (in_checkmate (game (core st2))).
      + rewrite (@ubind_run _ _ _ _ _ _ _ (lift_call_run game_turn st2)).
        destruct (game_turn (game (core st2))).
        * eexists. split; [reflexivity|].
          unfold status_only. cbn. repeat split; auto.
        * unfold ubind at 1. unfold on_page at 1. unfold assign at 1.
          match goal with
          | |- context [triggerWinCelebration ?x] =>
              destruct (triggerWinCelebration_run x) as (l & r & Hrun)
          end.
          rewrite Hrun. eexists. split; [reflexivity|].
          unfold status_only. cbn. repeat split; auto.
      + rewrite (@ubind_run _ _ _ _ _ _ _ (lift_call_run in_stalemate st2)).
        destruct (in_stalemate (game (core st2)));
          [eexists; split; [reflexivity|];
           unfold status_only; cbn; repeat split; auto|].
        rewrite (@ubind_run _ _ _ _ _ _ _ (lift_call_run in_threefold_repetition st2)).
        destruct (in_threefold_repetition (game (core st2)));
          [eexists; split; [reflexivity|];
           unfold status_only; cbn; repeat split; auto|].
        rewrite (@ubind_run _ _ _ _ _ _ _ (lift_call_run insufficient_material st2)).
        destruct (insufficient_material (game (core st2)));
          eexists; (split; [reflexivity|]);
          unfold status_only; cbn; repeat split; auto.
    - unfold ubind at 1. unfold on_page at 1. unfold assign at 1.
      match goal with |- context [ubind _ _ ?x] => set (st2 := x) end.
      rewrite (@ubind_run _ _ _ _ _ _ _ (lift_call_run in_check st2)).
      rewrite (@ubind_run _ _ _ _ _ _ _ (lift_call_run game_turn st2)).
      eexists. split; [reflexivity|].
      unfold status_only. cbn. repeat split; auto. }
  destruct msg as [message|]; [destruct (truthy message)|].
  - apply Hstatus. eexists. split; [reflexivity|].
    unfold status_only. cbn. repeat split; auto.
  - apply Hstatus, Hrest.
  - apply Hstatus, Hrest.
Qed.

End AppRuns.

Section EngineTurn.
Context {G : Type} {E : RulesEngine G} {C : GameControls G}.
Hypothesis Hundo : undo_restores.
Hypothesis Hlegal : legal_moves_apply.
Hypothesis Hnever : never_fails.

Lemma getEasyMove_legal (moves : list Move) (s : @QuickChess G) :
  unit_draws (random s) -> moves <> [] ->
  (Z.of_nat (List.length moves) < 2 ^ 53)%Z ->
  exists m s',
    getEasyMove moves s = Return (Some m) s' /\ In m moves /\ game s' = game s.
Proof.
  intros Hu Hne Hlen.
  assert (Hlm : (0 < List.length moves)%nat)
    by (destruct moves; [congruence | simpl; lia]).
  pose proof (@filter_length_le Move is_capture moves) as Hlc.
  destruct (getEasyMove_run moves s) as (s' & Hrun & Hg & _).
  cbv zeta in Hrun.
  assert (Hpick : forall (l : list Move) k,
             (0 < List.length l)%nat -> (List.length l <= List.length moves)%nat ->
             exists m, nth_error l (JS.floor_index (random s k) (List.length l))
                       = Some m /\ In m l).
  { intros l k H0 Hle. apply nth_error_In_index.
    apply floor_index_lt; [apply Hu | lia]. }
  destruct (Nat.ltb_spec 0 (List.length (filter is_capture moves))) as [Hc | Hc];
    [destruct (JS.lt (random s 0%nat) JS.three_tenths)|].
  - destruct (Hpick (filter is_capture moves) 1%nat Hc Hlc) as (m & Hm & Hin).
    rewrite Hm in Hrun. exists m, s'. split; [exact Hrun|].
    apply filter_In in Hin. split; [tauto | exact Hg].
  - destruct (Hpick moves 1%nat Hlm (le_n _)) as (m & Hm & Hin).
    rewrite Hm in Hrun. exists m, s'. auto.
  - destruct (Hpick moves 0%nat Hlm (le_n _)) as (m & Hm & Hin).
    rewrite Hm in Hrun. exists m, s'. auto.
Qed.

Lemma findBestMove_some_legal fuel depth (s : @QuickChess G) :
  (1 <= depth)%Z -> (Z.to_nat depth <= fuel)%nat ->
  game_moves (game s) <> [] ->
  exists m s',
    findBestMove fuel depth s = Return (Some m) s'
    /\ In m (game_moves (game s)) /\ game s' = game s.
Proof.
  intros Hd Hf Hne.
  destruct (@findBestMove_runs G E Hundo Hlegal Hnever fuel depth s Hd Hf)
    as (s' & Hrun & Hg).
  unfold findBestMovePure in Hrun.
  destruct (List.length (game_moves (game s)) =? 0)%nat eqn:Hlen.
  { apply Nat.eqb_eq, length_zero_iff_nil in Hlen. contradiction. }
  pose proof (orderMovesPure_Permutation (game_moves (game s)) (random s))
    as Hperm.
  destruct (@rootLoopPure_agrees G E (Z.to_nat depth) (game s)
              (orderMovesPure (game_moves (game s)) (random s)) Hlegal
              (fun m Hm => Permutation_in m (Permutation_sym Hperm) Hm))
    as (vars & Hloop & _ & Hsome & Hwhich).
  rewrite Hloop in Hrun. cbn [snd] in Hrun.
  destruct (bestMove vars) as [m|] eqn:Hbm.
  - exists m, s'. split; [exact Hrun|]. split; [|exact Hg].
    apply (Permutation_in m (Permutation_sym Hperm)). now apply Hwhich.
  - exfalso. apply Hsome; [|reflexivity].
    intros Hnil. rewrite Hnil in Hperm.
    apply Permutation_sym, Permutation_nil in Hperm. contradiction.
Qed.

Lemma selectMove_some_legal fuel level (s : @QuickChess G) :
  (4 <= fuel)%nat -> unit_draws (random s) -> game_moves (game s) <> [] ->
  (Z.of_nat (List.length (game_moves (game s))) < 2 ^ 53)%Z ->
  exists m s',
    selectMove fuel level (game_moves (game s)) s = Return (Some m) s'
    /\ In m (game_moves (game s)) /\ game s' = game s.
Proof.
  intros Hf Hu Hne Hlen. destruct level; cbn [selectMove].
  - now apply getEasyMove_legal.
  - apply findBestMove_some_legal; [lia | simpl; lia | exact Hne].
  - apply findBestMove_some_legal; [lia | simpl; lia | exact Hne].
  - apply findBestMove_some_legal; [lia | simpl; lia | exact Hne].
Qed.

Lemma highlightLastMove_run (st : @App G) :
  highlightLastMove st
  = Done tt
      (set_page
         (set_highlighted
            (match lastMoveSquares st with
             | [a; b] =>
                 (if mem a (squares (page st)) then [a] else [])
                 ++ (if mem b (squares (page st))
                        && negb (mem b (if mem a (squares (page st))
                                        then [a] else []))
                     then [b] else [])
             | _ => []
             end)
            (page st))
         st).
Proof.
  destruct st as [co d ai l pg sto ti].
  unfold highlightLastMove, removeHighlights, ubind, on_page, assign.
  cbn [lastMoveSquares set_page page].
  destruct l as [|a [|b [|c l]]]; try reflexivity.
  unfold addHighlight, on_page, assign, ubind, mem.
  cbn [page set_page squares highlighted set_highlighted].
  destruct (existsb (String.eqb a) (squares pg));
    cbn [existsb squares highlighted set_highlighted app];
    destruct (existsb (String.eqb b) (squares pg));
    cbn [existsb andb negb squares highlighted set_highlighted app orb];
    try destruct (String.eqb b a);
    cbn [andb negb orb squares highlighted set_highlighted app];
    reflexivity.
Qed.

End EngineTurn.

(** X9. The engine's turn, with a rules engine that keeps its contract:
    for a known difficulty name and a position with legal moves (draws of
    [0, 1), fewer than [2 ^ 53] moves), the callback of [makeAIMove]
    returns after playing one of the legal moves: the position is the one
    after that move, the board shows it, [lastMoveSquares] holds its two
    squares, the flag and the indicator are off, and the game is saved with
    that position, difficulty and squares. *)
Theorem runAIMove_plays_legal_move {G : Type} {E : RulesEngine G}
    {C : GameControls G} :
  undo_restores -> legal_moves_apply -> never_fails ->
  forall fuel level (st : @App G),
    (4 <= fuel)%nat ->
    unit_draws (random (core st)) ->
    game_moves (game (core st)) <> [] ->
    (Z.of_nat (List.length (game_moves (game (core st)))) < 2 ^ 53)%Z ->
    difficultyOf (difficulty st) = Some level ->
    exists m g' st',
      runAIMove fuel st = Done tt st'
      /\ In m (game_moves (game (core st)))
      /\ game_move m (game (core st)) = Some g'
      /\ game (core st') = g'
      /\ lastMoveSquares st' = [from m; to m]
      /\ boardPosition (page st') = game_fen g'
      /\ isAiThinking st' = false
      /\ thinking (page st') = false
      /\ storage_get "gameState" (storage st')
         = Some (StoredState
                   (mkGameState (game_fen g') (difficulty st)
                      [from m; to m] (game_pgn g'))).
Proof.
  intros Hundo Hlegal Hnever fuel level st Hf Hu Hne Hbound Hlevel.
  destruct (@selectMove_some_legal G E Hundo Hlegal Hnever fuel level (core st)
              Hf Hu Hne Hbound) as (m & s1 & Hsel & Hin & Hg1).
  destruct (game_move m (game (core st))) as [g'|] eqn:Hgm;
    [|exfalso; exact (Hlegal _ _ Hin Hgm)].
  exists m, g'.
  unfold runAIMove, try_catch.
  rewrite (@ubind_run _ _ _ _ _ _ _ _ (lift_call_run Hnever game_moves st)).
  destruct (List.length (game_moves (game (core st))) =? 0)%nat eqn:Hlen.
  { apply Nat.eqb_eq, length_zero_iff_nil in Hlen. contradiction. }
  unfold ubind at 1. rewrite Hlevel.
  unfold ubind at 1. unfold lift at 1. rewrite Hsel.
  set (st1 := set_core s1 st).
  unfold ubind at 1. unfold ubind at 1. unfold lift at 1. unfold move_.
  cbn [core st1 set_core]. rewrite Hnever, Hg1, Hgm.
  set (st2 := set_core _ st1).
  rewrite (@ubind_run _ _ _ _ _ _ _ _ (showPosition_run Hnever st2)).
  unfold ubind at 1. unfold assign at 1.
  set (st3 := set_lastMoveSquares _ _).
  pose proof (highlightLastMove_run st3) as Hhl. rewrite Hhl.
  unfold ubind at 1. unfold assign at 1.
  unfold ubind at 1. unfold removeThinkingIndicator, on_page, assign.
  set (st4 := set_page _ _).
  destruct (updateStatus_run Hnever None st4) as (st5 & Hus & Hs).
  rewrite (@ubind_run _ _ _ _ _ _ _ _ Hus).
  rewrite saveGameState_run by exact Hnever.
  unfold status_only in Hs. cbn in Hs.
  destruct Hs as (Hgame & _ & Hdiff & Hai & Hlast & Hstore & _ & Hboard & _
                  & Hthink & _).
  eexists. split; [reflexivity|].
  cbn. rewrite Hgame, Hdiff, Hai, Hlast, Hboard, Hthink.
  repeat split; auto.
Qed.


(** X10. With a difficulty name that the [switch] does not know (a saved
    state can hold any string), the callback of [makeAIMove] plays no move:
    the position and [lastMoveSquares] stay as they were, the flag goes
    down, and no call of [makeAIMove] is scheduled, so the engine's turn
    never ends. *)
Theorem runAIMove_unknown_difficulty {G : Type} {E : RulesEngine G}
    {C : GameControls G} :
  never_fails ->
  forall fuel (st : @App G),
    game_moves (game (core st)) <> [] ->
    difficultyOf (difficulty st) = None ->
    exists st',
      runAIMove fuel st = Done tt st'
      /\ game (core st') = game (core st)
      /\ lastMoveSquares st' = lastMoveSquares st
      /\ isAiThinking st' = false
      /\ (forall d, In (CallMakeAIMove, d) (timers st')
                    -> In (CallMakeAIMove, d) (timers st)).
Proof.
  intros Hnever fuel st Hne Hnone.
  unfold runAIMove, try_catch.
  rewrite (@ubind_run _ _ _ _ _ _ _ _ (lift_call_run Hnever game_moves st)).
  destruct (List.length (game_moves (game (core st))) =? 0)%nat eqn:Hlen.
  { apply Nat.eqb_eq, length_zero_iff_nil in Hlen. contradiction. }
  unfold ubind at 1. rewrite Hnone.
  unfold ubind at 1. unfold uret at 1.
  unfold ubind at 1. unfold uret at 1.
  unfold ubind at 1. unfold assign at 1.
  unfold ubind at 1. unfold removeThinkingIndicator, on_page, assign.
  set (st4 := set_page _ _).
  destruct (updateStatus_run Hnever None st4) as (st5 & Hus & Hs).
  rewrite (@ubind_run _ _ _ _ _ _ _ _ Hus).
  rewrite saveGameState_run by exact Hnever.
  unfold status_only in Hs. cbn in Hs.
  destruct Hs as (Hgame & _ & _ & Hai & Hlast & _ & _ & _ & _ & _ & _ & _ & Ht).
  eexists. split; [reflexivity|]. cbn.
  repeat split; auto.
  intros d Hd. destruct Ht as [Ht | Ht]; rewrite Ht in Hd; [exact Hd|].
  destruct Hd as [Hd | Hd]; [discriminate Hd | exact Hd].
Qed.

Section Undo.
Context {G : Type} {E : RulesEngine G} {C : GameControls G}.
Hypothesis Hnever : never_fails.



End Undo.



Section Lock.
Context {G : Type} {E : RulesEngine G} {C : GameControls G}.

Ltac locked_frame := intros; unfold locked in *; cbn; auto.

Lemma keeps_locked_triggerWinCelebration :
  keeps (@locked G) triggerWinCelebration.
Proof.
  unfold triggerWinCelebration.
  apply keeps_bind; [apply keeps_lift; locked_frame | intros pieces].
  apply keeps_bind;
    [unfold on_page; apply keeps_assign; locked_frame | intros _].
  apply keeps_setTimeout; locked_frame.
Qed.

Ltac keeps_locked :=
  repeat match goal with
    | |- keeps _ triggerWinCelebration =>
        apply keeps_locked_triggerWinCelebration
    | |- keeps _ (uret _) => apply keeps_uret
    | |- keeps _ (ubind _ _) => apply keeps_bind; [|intros ?]
    | |- keeps _ (if _ then _ else _) => apply keeps_if
    | |- keeps _ (detached _) => apply keeps_detached
    | |- keeps _ (lift _) => apply keeps_lift; locked_frame
    | |- keeps _ (assign _) => apply keeps_assign; locked_frame
    | |- keeps _ (setTimeout _ _) => apply keeps_setTimeout; locked_frame
    | |- keeps _ (match ?x with _ => _ end) => destruct x
    | |- keeps _ (fun st => Done _ st) => apply keeps_read
    end.

Lemma keeps_locked_statusLines : keeps (@locked G) statusLines.
Proof.
  unfold statusLines, on_page. keeps_locked.
Qed.

End Lock.

(** X12. While [isAiThinking] is set, [undoMove] and [restartGame] return
    without any effect, [onDragStart] never lets a drag start, [makeAIMove]
    does not start a second calculation, and [updateStatus] leaves the
    three buttons disabled. *)
Theorem controls_locked_while_thinking {G : Type} {E : RulesEngine G}
    {C : GameControls G} (st : @App G) :
  isAiThinking st = true ->
  undoMove st = Done tt st
  /\ restartGame st = Done tt st
  /\ (forall source piece st', onDragStart source piece st <> Done true st')
  /\ (forall st', makeAIMove st = Done tt st' -> st' = st)
  /\ (forall msg st',
         updateStatus msg st = Done tt st' ->
         undoDisabled (page st') = true
         /\ restartDisabled (page st') = true
         /\ difficultyDisabled (page st') = true).
Proof.
  intros Hai. split; [|split; [|split; [|split]]].
  - unfold undoMove, ubind. now rewrite Hai.
  - unfold restartGame, ubind. now rewrite Hai.
  - intros source piece st'. unfold onDragStart, ubind.
    destruct (lift (call game_over) st) as [over st1 | st1 | ] eqn:Hover;
      try discriminate.
    unfold lift, call in Hover.
    destruct (engine_fails (game (core st))); [discriminate Hover|].
    injection Hover as _ <-. cbn [isAiThinking set_core]. rewrite Hai.
    rewrite orb_true_r. discriminate.
  - intros st'. unfold makeAIMove, ubind.
    destruct (lift (call game_over) st) as [over st1 | st1 | ] eqn:Hover;
      try discriminate.
    unfold lift, call in Hover.
    destruct (engine_fails (game (core st))); [discriminate Hover|].
    injection Hover as _ <-. cbn [isAiThinking set_core]. rewrite Hai.
    rewrite orb_true_r. unfold uret. intros H. injection H as <-.
    now destruct st.
  - intros msg st'. unfold updateStatus. unfold ubind at 1. rewrite Hai.
    unfold ubind at 1. unfold uret at 1. unfold ubind at 1. unfold uret at 1.
    unfold ubind at 1. unfold on_page at 1. unfold assign at 1.
    set (st1 := set_page _ st).
    assert (H1 : locked st1) by (unfold locked; cbn; auto).
    intros Hrun. change (locked st').
    destruct msg as [message|]; [destruct (truthy message)|].
    + unfold ubind, on_page, assign in Hrun. injection Hrun as <-.
      unfold locked. cbn. auto.
    + pose proof (@keeps_locked_statusLines G E C st1 H1) as Hk.
      rewrite Hrun in Hk. exact Hk.
    + pose proof (@keeps_locked_statusLines G E C st1 H1) as Hk.
      rewrite Hrun in Hk. exact Hk.
Qed.

(** X13. [updateStatus()] without a message, on an engine whose calls do
    not throw: when the game is over the turn line is empty and the status
    line is not, otherwise the status line is empty and the turn line is
    not; the status line reads [CHECKMATE - YOU WIN!] exactly in a
    checkmate with black to move and [CHECKMATE - AI WINS] exactly in a
    checkmate with white to move; the undo button is disabled exactly when
    the engine is thinking, the game is over or the history is empty, the
    two other buttons exactly when the engine is thinking. *)
Theorem updateStatus_lines {G : Type} {E : RulesEngine G}
    {C : GameControls G} :
  never_fails ->
  forall (st : @App G),
    let g := game (core st) in
    exists st',
      updateStatus None st = Done tt st'
      /\ (game_over g = true ->
          turnIndicator (page st') = "" /\ gameStatus (page st') <> "")
      /\ (game_over g = false ->
          gameStatus (page st') = "" /\ turnIndicator (page st') <> "")
      /\ (gameStatus (page st') = "CHECKMATE - YOU WIN!"
          <-> game_over g = true /\ in_checkmate g = true
              /\ game_turn g = Black)
      /\ (gameStatus (page st') = "CHECKMATE - AI WINS"
          <-> game_over g = true /\ in_checkmate g = true
              /\ game_turn g = White)
      /\ undoDisabled (page st')
         = (isAiThinking st || game_over g
            || (List.length (game_history g) =? 0)%nat)
      /\ restartDisabled (page st') = isAiThinking st
      /\ difficultyDisabled (page st') = isAiThinking st.
Proof.
  intros Hnever st g.
  unfold updateStatus. unfold ubind at 1.
  assert (Hd : forall (b : bool) (st0 : @App G),
             (if b then uret true else lift (call game_over)) st0
             = Done (if b then true else game_over (game (core st0))) st0).
  { intros [|] st0; [reflexivity | now apply lift_call_run]. }
  rewrite (@ubind_run _ _ _ _ _ _ _ _ (Hd (isAiThinking st) st)). fold g.
  set (isDisabled := if isAiThinking st then true else game_over g).
  assert (Hu : (if isDisabled then uret true
                else ubind (lift (call game_history))
                       (fun h => uret (List.length h =? 0)%nat)) st
               = Done (if isDisabled then true
                       else (List.length (game_history g) =? 0)%nat) st).
  { destruct isDisabled; [reflexivity|].
    now rewrite (@ubind_run _ _ _ _ _ _ _ _ (lift_call_run Hnever game_history st)). }
  rewrite (@ubind_run _ _ _ _ _ _ _ _ Hu).
  assert (Hundo : (if isDisabled then true
                   else (List.length (game_history g) =? 0)%nat)
                  = (isAiThinking st || game_over g
                     || (List.length (game_history g) =? 0)%nat)).
  { subst isDisabled. destruct (isAiThinking st); [reflexivity|].
    now destruct (game_over g). }
  rewrite Hundo. clear Hu Hundo isDisabled.
  unfold ubind at 1. unfold on_page at 1. unfold assign at 1.
  set (st1 := set_page _ st).
  unfold statusLines.
  rewrite (@ubind_run _ _ _ _ _ _ _ _ (lift_call_run Hnever game_over st1)).
  change (game (core st1)) with g.
  destruct (game_over g) eqn:Hover.
  - unfold ubind at 1. unfold on_page at 1. unfold assign at 1.
    match goal with |- context [ubind _ _ ?x] => set (st2 := x) end.
    rewrite (@ubind_run _ _ _ _ _ _ _ _ (lift_call_run Hnever in_checkmate st2)).
    change (game (core st2)) with g.
    destruct (in_checkmate g) eqn:Hmate.
    + rewrite (@ubind_run _ _ _ _ _ _ _ _ (lift_call_run Hnever game_turn st2)).
      change (game (core st2)) with g.
      destruct (game_turn g) eqn:Hturn.
      * eexists. split; [reflexivity|]. cbn.
        repeat split; auto; intros; try discriminate;
          intuition (try discriminate; try congruence).
      * unfold ubind at 1. unfold on_page at 1. unfold assign at 1.
        match goal with
        | |- context [triggerWinCelebration ?x] =>
            destruct (triggerWinCelebration_run x) as (l & r & Hrun)
        end.
        rewrite Hrun. eexists. split; [reflexivity|]. cbn.
        repeat split; auto; intros; try discriminate;
          intuition (try discriminate; try congruence).
    + rewrite (@ubind_run _ _ _ _ _ _ _ _ (lift_call_run Hnever in_stalemate st2)).
      destruct (in_stalemate (game (core st2)));
        [eexists; split; [reflexivity|]; cbn;
         repeat split; auto; intros; try discriminate;
         intuition (try discriminate; try congruence)|].
      rewrite (@ubind_run _ _ _ _ _ _ _ _
                 (lift_call_run Hnever in_threefold_repetition st2)).
      destruct (in_threefold_repetition (game (core st2)));
        [eexists; split; [reflexivity|]; cbn;
         repeat split; auto; intros; try discriminate;
         intuition (try discriminate; try congruence)|].
      rewrite (@ubind_run _ _ _ _ _ _ _ _
                 (lift_call_run Hnever insufficient_material st2)).
      destruct (insufficient_material (game (core st2)));
        (eexists; split; [reflexivity|]); cbn;
        repeat split; auto; intros; try discriminate;
        intuition (try discriminate; try congruence).
  - unfold ubind at 1. unfold on_page at 1. unfold assign at 1.
    match goal with |- context [ubind _ _ ?x] => set (st2 := x) end.
    rewrite (@ubind_run _ _ _ _ _ _ _ _ (lift_call_run Hnever in_check st2)).
    rewrite (@ubind_run _ _ _ _ _ _ _ _ (lift_call_run Hnever game_turn st2)).
    destruct (in_check (game (core st2)));
      destruct (game_turn (game (core st2)));
      (eexists; split; [reflexivity|]); cbn;
      repeat split; auto; intros; try discriminate;
      intuition (try discriminate; try congruence).
Qed.

(** X14. [onDrop(source, target)], on an engine whose calls do not throw:
    when the engine rejects the move it returns ['snapback'] and only the
    highlights are cleared; when the engine accepts it, the position is the
    one after the move, [lastMoveSquares] holds the two squares, the game
    is saved with them, and a call of [makeAIMove] is scheduled after 1200
    ms exactly when the game is not over and black is to move. *)
Theorem onDrop_snapback_or_move {G : Type} {E : RulesEngine G}
    {C : GameControls G} :
  never_fails ->
  forall source target (st : @App G),
    let g := game (core st) in
    (game_move_squares source target g = None ->
     onDrop source target st
     = Done true (set_page (set_highlighted [] (page st)) st))
    /\ (forall g',
           game_move_squares source target g = Some g' ->
           exists st',
             onDrop source target st = Done false st'
             /\ game (core st') = g'
             /\ lastMoveSquares st' = [source; target]
             /\ storage_get "gameState" (storage st')
                = Some (StoredState
                          (mkGameState (game_fen g') (difficulty st)
                             [source; target] (game_pgn g')))
             /\ ((game_over g' = false /\ game_turn g' = Black) ->
                 In (CallMakeAIMove, 1200%Z) (timers st'))
             /\ (In (CallMakeAIMove, 1200%Z) (timers st') ->
                 (game_over g' = false /\ game_turn g' = Black)
                 \/ In (CallMakeAIMove, 1200%Z) (timers st))).
Proof.
  intros Hnever source target st g. split.
  - intros Hnone. unfold onDrop.
    unfold ubind at 1. unfold removeHighlights, on_page, assign.
    unfold ubind at 1. unfold lift, move_squares_.
    cbn [core set_page game]. rewrite Hnever. fold g. rewrite Hnone.
    cbn [negb]. reflexivity.
  - intros g' Hsome. unfold onDrop.
    unfold ubind at 1. unfold removeHighlights at 1.
    unfold on_page at 1. unfold assign at 1.
    unfold ubind at 1. unfold lift at 1. unfold move_squares_.
    cbn [core set_page game]. rewrite Hnever. fold g. rewrite Hsome.
    cbn [negb]. unfold ubind at 1. unfold assign at 1.
    set (st2 := set_lastMoveSquares _ _).
    destruct (updateStatus_run Hnever None st2) as (st3 & Hus & Hs).
    rewrite (@ubind_run _ _ _ _ _ _ _ _ Hus).
    pose proof (highlightLastMove_run st3) as Hhl.
    rewrite (@ubind_run _ _ _ _ _ _ _ _ Hhl).
    set (st4 := set_page _ st3).
    rewrite (@ubind_run _ _ _ _ _ _ _ _ (saveGameState_run Hnever st4)).
    set (st5 := set_storage _ st4).
    rewrite (@ubind_run _ _ _ _ _ _ _ _ (engineToMove_run Hnever st5)).
    unfold status_only in Hs. cbn in Hs.
    destruct Hs as (Hgame & _ & Hdiff & _ & Hlast & _ & _ & _ & _ & _ & _ & _
                    & Ht).
    assert (Hg5 : game (core st5) = g') by (cbn; exact Hgame).
    rewrite Hg5.
    destruct (game_over g') eqn:Hover; cbn [negb andb].
    + eexists. split; [reflexivity|]. cbn.
      rewrite Hgame, Hdiff, Hlast. repeat split; auto.
      * intros [H _]. discriminate H.
      * intros Hin. right.
        destruct Ht as [Ht | Ht]; rewrite Ht in Hin; [exact Hin|].
        destruct Hin as [Hin | Hin]; [discriminate Hin | exact Hin].
    + destruct (game_turn g') eqn:Hturn.
      * eexists. split; [reflexivity|]. cbn.
        rewrite Hgame, Hdiff, Hlast. repeat split; auto.
        -- intros [_ H]. discriminate H.
        -- intros Hin. right.
           destruct Ht as [Ht | Ht]; rewrite Ht in Hin; [exact Hin|].
           destruct Hin as [Hin | Hin]; [discriminate Hin | exact Hin].
      * eexists. split; [reflexivity|]. cbn.
        rewrite Hgame, Hdiff, Hlast. repeat split; auto.
Qed.

(** X15. [highlightLastMove()] leaves highlighted exactly the squares of
    [lastMoveSquares] that the document has, and only when
    [lastMoveSquares] holds two squares: at most two squares, none twice. *)
Lemma mem_In (x : string) (l : list string) : mem x l = true <-> In x l.
Proof.
  unfold mem. rewrite existsb_exists. split.
  - intros (y & Hy & Heq). apply String.eqb_eq in Heq. now subst.
  - intros H. exists x. split; [exact H | apply String.eqb_refl].
Qed.

Lemma mem_not_In (x : string) (l : list string) : mem x l = false <-> ~ In x l.
Proof.
  rewrite <- mem_In. destruct (mem x l); split; congruence.
Qed.

Theorem highlightLastMove_marks_last_move {G : Type} {E : RulesEngine G}
    {C : GameControls G} (st : @App G) :
  exists hl,
    highlightLastMove st = Done tt (set_page (set_highlighted hl (page st)) st)
    /\ NoDup hl
    /\ (List.length hl <= 2)%nat
    /\ (forall sq, In sq hl <->
                   List.length (lastMoveSquares st) = 2%nat
                   /\ In sq (lastMoveSquares st)
                   /\ In sq (squares (page st))).
Proof.
  eexists. split; [apply highlightLastMove_run|].
  destruct (lastMoveSquares st) as [|a [|b [|c l]]].
  - repeat split; try constructor; intros; simpl in *;
      intuition (try discriminate; try lia).
  - repeat split; try constructor; intros; simpl in *;
      intuition (try discriminate; try lia).
  - destruct (mem a (squares (page st))) eqn:Ea;
      [apply mem_In in Ea | apply mem_not_In in Ea];
      (destruct (mem b (squares (page st))) eqn:Eb;
       [apply mem_In in Eb | apply mem_not_In in Eb]);
      cbn [mem existsb andb negb orb app];
      try destruct (String.eqb_spec b a) as [Hba | Hba];
      cbn [andb negb orb app];
      (split; [repeat constructor; simpl; intuition congruence|]);
      (split; [simpl; lia|]).

    all: intros sq; simpl; split;
      [ intros Hsq; repeat (destruct Hsq as [<- | Hsq]);
        try contradiction; subst; repeat split; auto
      | intros (_ & Hsq & Hin); repeat (destruct Hsq as [<- | Hsq]);
        try contradiction; subst; auto; try contradiction ].
  - repeat split; try constructor; intros; simpl in *;
      intuition (try discriminate; try lia).
Qed.

Section Reload.
Context {G : Type} {E : RulesEngine G} {C : GameControls G}.
Hypothesis Hnever : never_fails.

Lemma loadGameState_run (st : @App G) :
  exists st1,
    loadGameState st = Done tt st1
    /\ storage st1 = storage st
    /\ timers st1 = timers st
    /\ isAiThinking st1 = isAiThinking st
    /\ modalHidden (page st1) = modalHidden (page st)
    /\ match storage_get "gameState" (storage st) with
       | Some (StoredState gs) =>
           game (core st1)
           = (if truthy (saved_fen gs)
              then game_load (saved_fen gs) (game (core st))
              else game (core st))
           /\ difficulty st1
              = (if truthy (saved_difficulty gs)
                 then saved_difficulty gs else difficulty st)
           /\ lastMoveSquares st1 = saved_lastMoveSquares gs
       | _ => st1 = st
       end.
Proof.
  unfold loadGameState. unfold ubind at 1. unfold getStorageData.
  destruct (storage_get "gameState" (storage st)) as [[b | gs]|].
  - exists st. repeat split.
  - assert (H1 : exists st1,
               (if truthy (saved_fen gs)
                then lift (replace_ (game_load (saved_fen gs)))
                else uret tt) st = Done tt st1
               /\ st1 = set_core
                          (mkQuickChess
                             (if truthy (saved_fen gs)
                              then game_load (saved_fen gs) (game (core st))
                              else game (core st))
                             (nodeCount (core st)) (random (core st))) st).
    { destruct (truthy (saved_fen gs)).
      - unfold lift, replace_. rewrite Hnever. eexists. split; reflexivity.
      - exists st. split; [reflexivity|]. now destruct st as [[] ? ? ? ? ? ?]. }
    destruct H1 as (st1 & Hrun1 & ->).
    rewrite (@ubind_run _ _ _ _ _ _ _ _ Hrun1).
    destruct (truthy (saved_difficulty gs));
      (eexists; split; [reflexivity|]); cbn; repeat split; auto.
  - exists st. repeat split.
Qed.

End Reload.

(** X16. What [saveGameState] stores, [loadGameState] reads back: the
    squares of the last move, the difficulty (unless it is the empty
    string) and the position of the saved FEN (unless that is empty). The
    saved PGN is not read: when the engine's history is empty after
    [load], as chess.js leaves it, [undoMove] does nothing after a
    reload. *)
Theorem saved_state_round_trip {G : Type} {E : RulesEngine G}
    {C : GameControls G} :
  never_fails ->
  forall (st st2 : @App G),
    let g := game (core st) in
    exists st1 : @App G,
      saveGameState st = Done tt st1
      /\ (storage st2 = storage st1 ->
          exists st3,
            loadGameState st2 = Done tt st3
            /\ lastMoveSquares st3 = lastMoveSquares st
            /\ difficulty st3
               = (if truthy (difficulty st)
                  then difficulty st else difficulty st2)
            /\ game (core st3)
               = (if truthy (game_fen g)
                  then game_load (game_fen g) (game (core st2))
                  else game (core st2))
            /\ (game_history (game_load (game_fen g) (game (core st2))) = [] ->
                truthy (game_fen g) = true ->
                undoMove st3 = Done tt st3)).
Proof.
  intros Hnever st st2 g.
  rewrite saveGameState_run by exact Hnever. eexists. split; [reflexivity|].
  intros Hstore.
  destruct (loadGameState_run Hnever st2)
    as (st3 & Hrun & _ & _ & _ & _ & Hload).
  rewrite Hstore in Hload. unfold storage_get, storage_set in Hload.
  cbn in Hload. destruct Hload as (Hgame & Hdiff & Hlast).
  exists st3. split; [exact Hrun|]. fold g in Hgame.
  repeat split; auto.
  intros Hempty Hfen. unfold undoMove. unfold ubind at 1.
  destruct (isAiThinking st3); [reflexivity|].
  rewrite (@ubind_run _ _ _ _ _ _ _ _
             (ubind_call_run Hnever game_history
                (fun h => (List.length h =? 0)%nat) st3)).
  rewrite Hgame, Hfen, Hempty. reflexivity.
Qed.

(** X17. [init()], on an engine whose calls do not throw: it returns; the
    difficulty modal is shown unless a truthy [hasPlayedBefore] is stored
    (as [hideDifficultyModal] stores it); the board shows the position of
    the game; and a call of [makeAIMove] is scheduled after 500 ms exactly
    when black is to move and the game is not over. *)
Theorem init_restores_and_schedules {G : Type} {E : RulesEngine G}
    {C : GameControls G} :
  never_fails ->
  forall (st : @App G),
    exists st',
      init st = Done tt st'
      /\ modalHidden (page st')
         = match storage_get "hasPlayedBefore" (storage st) with
           | Some (StoredFlag true) | Some (StoredState _) =>
               modalHidden (page st)
           | _ => false
           end
      /\ (forall st0 st1 : @App G,
             hideDifficultyModal st0 = Done tt st1 ->
             storage st = storage st1 ->
             modalHidden (page st') = modalHidden (page st))
      /\ boardPosition (page st') = game_fen (game (core st'))
      /\ ((game_turn (game (core st')) = Black
           /\ game_over (game (core st')) = false) ->
          In (CallMakeAIMove, 500%Z) (timers st'))
      /\ (In (CallMakeAIMove, 500%Z) (timers st') ->
          (game_turn (game (core st')) = Black
           /\ game_over (game (core st')) = false)
          \/ In (CallMakeAIMove, 500%Z) (timers st)).
Proof.
  intros Hnever st. unfold init.
  destruct (loadGameState_run Hnever st)
    as (st1 & Hrun1 & Hstore1 & Ht1 & _ & Hmodal1 & _).
  rewrite (@ubind_run _ _ _ _ _ _ _ _ Hrun1).
  rewrite (@ubind_run _ _ _ _ _ _ _ _ (showPosition_run Hnever st1)).
  set (st2 := set_page _ st1).
  destruct (updateStatus_run Hnever None st2) as (st3 & Hus & Hs).
  rewrite (@ubind_run _ _ _ _ _ _ _ _ Hus).
  pose proof (highlightLastMove_run st3) as Hhl.
  rewrite (@ubind_run _ _ _ _ _ _ _ _ Hhl).
  set (st4 := set_page _ st3).
  unfold status_only in Hs. cbn in Hs.
  destruct Hs as (Hgame & _ & _ & _ & _ & Hstore3 & _ & Hboard & _ & _
                  & Hmodal3 & _ & Ht3).
  unfold ubind at 1. unfold getStorageData at 1.
  cbn [storage st4 set_page]. rewrite Hstore3, Hstore1.
  assert (Hmodal :
            exists st5,
              (match storage_get "hasPlayedBefore" (storage st) with
               | Some (StoredFlag true) | Some (StoredState _) => uret tt
               | _ => showDifficultyModal
               end) st4 = Done tt st5
              /\ modalHidden (page st5)
                 = match storage_get "hasPlayedBefore" (storage st) with
                   | Some (StoredFlag true) | Some (StoredState _) =>
                       modalHidden (page st)
                   | _ => false
                   end
              /\ game (core st5) = game (core st1)
              /\ boardPosition (page st5) = game_fen (game (core st1))
              /\ timers st5 = timers st3).
  { destruct (storage_get "hasPlayedBefore" (storage st)) as [[[|] | gs]|];
      (eexists; split; [reflexivity|]); cbn;
      rewrite ?Hmodal3, ?Hmodal1, ?Hboard; auto. }
  destruct Hmodal as (st5 & Hrun5 & Hm5 & Hg5 & Hb5 & Ht5).
  rewrite (@ubind_run _ _ _ _ _ _ _ _ Hrun5).
  rewrite (@ubind_run _ _ _ _ _ _ _ _ (lift_call_run Hnever game_turn st5)).
  assert (Hkeep : forall d, In (CallMakeAIMove, d) (timers st5) ->
                            In (CallMakeAIMove, d) (timers st)).
  { intros d Hd. rewrite Ht5 in Hd. rewrite <- Ht1.
    destruct Ht3 as [Ht3 | Ht3]; rewrite Ht3 in Hd; [exact Hd|].
    destruct Hd as [Hd | Hd]; [discriminate Hd | exact Hd]. }
  assert (Hhide : forall st0 st1' : @App G,
             hideDifficultyModal st0 = Done tt st1' ->
             storage st = storage st1' ->
             storage_get "hasPlayedBefore" (storage st)
             = Some (StoredFlag true)).
  { intros st0 st1' Hh Hst. unfold hideDifficultyModal, ubind, on_page,
      setStorageData, assign in Hh. injection Hh as <-. rewrite Hst.
    reflexivity. }
  destruct (game_turn (game (core st5))) eqn:Hturn.
  - unfold ubind at 1. unfold uret at 1. unfold uret.
    exists st5. split; [reflexivity|]. rewrite Hg5 in *.
    split; [exact Hm5|]. split.
    { intros st0 st1' Hh Hst. rewrite Hm5, (Hhide st0 st1' Hh Hst). reflexivity. }
    split; [rewrite ?Hg5; exact Hb5|]. rewrite Hturn. split.
    + intros [H _]. discriminate H.
    + intros Hin. right. now apply Hkeep.
  - rewrite (@ubind_run _ _ _ _ _ _ _ _
               (ubind_call_run Hnever game_over negb st5)).
    destruct (game_over (game (core st5))) eqn:Hover; cbn [negb].
    + exists st5. split; [reflexivity|]. 
      split; [exact Hm5|]. split.
      { intros st0 st1' Hh Hst. rewrite Hm5, (Hhide st0 st1' Hh Hst). reflexivity. }
      split; [rewrite ?Hg5; exact Hb5|]. rewrite Hover. split.
      * intros [_ H]. discriminate H.
      * intros Hin. right. now apply Hkeep.
    + eexists. split; [reflexivity|]. cbn.
      split; [exact Hm5|]. split.
      { intros st0 st1' Hh Hst. rewrite Hm5, (Hhide st0 st1' Hh Hst). reflexivity. }
      split; [rewrite ?Hg5; exact Hb5|]. split; auto.
Qed.

(** ** More theorems at concrete inputs *)

Section MoreWitnesses.
Import Miniature MiniaturePage.
Local Open Scope string_scope.

Let s0 : @QuickChess Game := state start.

Lemma miniature_width (g : Game) :
  (List.length (game_moves (RulesEngine := sound) g) <= 3)%nat.
Proof.
  destruct g as [[pw bk wk sd] hist]. destruct pw, sd; simpl; lia.
Qed.

Lemma miniature_endless (g : Game) : game_over (RulesEngine := sound) g = false.
Proof. reflexivity. Qed.

Lemma miniature_first_move (g : Game) :
  exists m rest,
    game_moves (RulesEngine := sound) g = m :: rest
    /\ game_move (RulesEngine := sound) m g <> None.
Proof.
  destruct (MiniatureFacts.first_move_applies (fun _ => false) g)
    as (m & rest & g' & Hm & Hg).
  exists m, rest. split; [exact Hm|]. unfold sound. rewrite Hg. discriminate.
Qed.

Lemma getPieceValue_mirror_witness :
  getPieceValue (mkPiece Pawn White) 6 4 = getPieceValue (mkPiece Pawn Black) 1 4
  /\ JS.le 80 (getPieceValue (mkPiece Pawn White) 6 4) = true
  /\ JS.le (getPieceValue (mkPiece Pawn White) 6 4) 20030 = true.
Proof.
  destruct (@getPieceValue_mirror Pawn 6 4 ltac:(simpl; tauto) ltac:(simpl; tauto))
    as [Hm Hb].
  split; [exact Hm | exact (Hb White)].
Defined.

Lemma findBestMove_least_value_witness :
  exists mv s' g',
    findBestMove (E := sound) 1 1 s0 = Return (Some mv) s'
    /\ game_move (RulesEngine := sound) mv start = Some g'
    /\ forall m g'',
        In m (game_moves (RulesEngine := sound) start) ->
        game_move (RulesEngine := sound) m start = Some g'' ->
        JS.le (evaluatePosition (E := sound) g')
              (evaluatePosition (E := sound) g'') = true.
Proof.
  destruct (findBestMove (E := sound) 1 1 s0) as [[mv|] s' | s' | ] eqn:Hrun;
    [ | vm_compute in Hrun; discriminate Hrun
      | vm_compute in Hrun; discriminate Hrun
      | vm_compute in Hrun; discriminate Hrun ].
  destruct (@findBestMove_least_value Game sound
              (@MiniatureFacts.undo_restores_engine _)
              (@MiniatureFacts.legal_moves_apply_engine _)
              MiniatureFacts.never_fails_sound 1%nat 1%Z s0 mv s'
              ltac:(lia) ltac:(simpl; lia) Hrun) as (g' & Hg' & Hleast).
  exists mv, s', g'. split; [reflexivity|]. split; [exact Hg'|].
  exact Hleast.
Defined.

Lemma search_visits_bounded_witness :
  exists mv s',
    findBestMove (E := sound) 2 2 s0 = Return mv s'
    /\ (0 <= nodeCount s' <= 12)%Z.
Proof.
  destruct (findBestMove (E := sound) 2 2 s0) as [mv s' | s' | ] eqn:Hrun;
    [ | vm_compute in Hrun; discriminate Hrun
      | vm_compute in Hrun; discriminate Hrun ].
  exists mv, s'. split; [reflexivity|].
  exact (proj2 (@search_visits_bounded Game sound 3 miniature_width)
           2%nat 2%Z s0 mv s' ltac:(lia) Hrun).
Defined.

Lemma search_below_zero_never_stops_witness :
  minimax (E := sound) 5 (-1) neg_infinity infinity true s0 = OutOfFuel
  /\ findBestMove (E := sound) 5 0 s0 = OutOfFuel.
Proof.
  destruct (@search_below_zero_never_stops Game sound miniature_endless
              miniature_first_move MiniatureFacts.never_fails_sound)
    as [Hmin Hroot].
  split.
  - apply Hmin. lia.
  - apply Hroot. lia.
Defined.

Lemma runAIMove_plays_legal_move_witness :
  exists m st',
    runAIMove (E := sound) (C := controls) 4 (app start "medium")
    = Done tt st'
    /\ In m (game_moves (RulesEngine := sound) start)
    /\ lastMoveSquares st' = [from m; to m]
    /\ isAiThinking st' = false.
Proof.
  destruct (@runAIMove_plays_legal_move Game sound controls
              (@MiniatureFacts.undo_restores_engine _)
              (@MiniatureFacts.legal_moves_apply_engine _)
              MiniatureFacts.never_fails_sound 4%nat medium (app start "medium")
              ltac:(lia) unit_draws_half ltac:(discriminate)
              ltac:(reflexivity) ltac:(reflexivity))
    as (m & g' & st' & Hrun & Hin & _ & _ & Hlast & _ & Hai & _).
  exists m, st'. split; [exact Hrun|]. split; [exact Hin|].
  split; [exact Hlast | exact Hai].
Defined.

Lemma runAIMove_unknown_difficulty_witness :
  exists st',
    runAIMove (E := sound) (C := controls) 0 (app start "expert")
    = Done tt st'
    /\ game (core st') = start
    /\ isAiThinking st' = false.
Proof.
  destruct (@runAIMove_unknown_difficulty Game sound controls
              MiniatureFacts.never_fails_sound 0%nat (app start "expert")
              ltac:(discriminate) ltac:(reflexivity))
    as (st' & Hrun & Hgame & _ & Hai & _).
  exists st'. split; [exact Hrun|]. split; [exact Hgame | exact Hai].
Defined.


Lemma controls_locked_while_thinking_witness :
  undoMove (E := sound) (C := controls)
    (mkApp (state start) "easy" true [] document [] [])
  = Done tt (mkApp (state start) "easy" true [] document [] [])
  /\ restartGame (E := sound) (C := controls)
       (mkApp (state start) "easy" true [] document [] [])
     = Done tt (mkApp (state start) "easy" true [] document [] []).
Proof.
  destruct (@controls_locked_while_thinking Game sound controls
              (mkApp (state start) "easy" true [] document [] [])
              ltac:(reflexivity)) as (Hundo & Hrestart & _).
  split; [exact Hundo | exact Hrestart].
Defined.

Lemma updateStatus_lines_witness :
  exists st',
    updateStatus (E := sound) (C := controls) None (app start "easy")
    = Done tt st'
    /\ gameStatus (page st') = ""
    /\ turnIndicator (page st') <> ""
    /\ undoDisabled (page st') = true.
Proof.
  destruct (@updateStatus_lines Game sound controls
              MiniatureFacts.never_fails_sound (app start "easy"))
    as (st' & Hrun & _ & Hplay & _ & _ & Hundo & _).
  exists st'. split; [exact Hrun|].
  destruct (Hplay ltac:(reflexivity)) as [Hs Ht].
  split; [exact Hs|]. split; [exact Ht | exact Hundo].
Defined.

Lemma onDrop_snapback_or_move_witness :
  onDrop (E := sound) (C := controls) "d4" "d6" (app fresh "easy")
  = Done true (app fresh "easy")
  /\ exists st',
      onDrop (E := sound) (C := controls) "d4" "d5" (app fresh "easy")
      = Done false st'
      /\ game (core st') = afterPush
      /\ In (CallMakeAIMove, 1200%Z) (timers st').
Proof.
  destruct (@onDrop_snapback_or_move Game sound controls
              MiniatureFacts.never_fails_sound "d4" "d6" (app fresh "easy"))
    as [Hsnap _].
  destruct (@onDrop_snapback_or_move Game sound controls
              MiniatureFacts.never_fails_sound "d4" "d5" (app fresh "easy"))
    as [_ Hmove].
  split; [exact (Hsnap ltac:(reflexivity))|].
  destruct (Hmove afterPush ltac:(reflexivity))
    as (st' & Hrun & Hgame & _ & _ & Htimer & _).
  exists st'. split; [exact Hrun|]. split; [exact Hgame|].
  apply Htimer. split; reflexivity.
Defined.

Lemma saved_state_round_trip_witness :
  exists st1 st3,
    saveGameState (E := sound) (C := controls) (app afterPush "hard")
    = Done tt st1
    /\ loadGameState (E := sound) (C := controls)
         (mkApp (state fresh) "easy" false [] document (storage st1) [])
       = Done tt st3
    /\ difficulty st3 = "hard"
    /\ current (game (core st3)) = current afterPush
    /\ undoMove (E := sound) (C := controls) st3 = Done tt st3.
Proof.
  destruct (@saved_state_round_trip Game sound controls
              MiniatureFacts.never_fails_sound (app afterPush "hard")
              (mkApp (state fresh) "easy" false [] document
                 (storage_set "gameState"
                    (StoredState
                       (mkGameState (game_fen (GameControls := controls) afterPush)
                          "hard" [] (game_pgn (GameControls := controls) afterPush)))
                    []) []))
    as (st1 & Hsave & Hload).
  exists st1.
  assert (Hst : storage st1
                = storage_set "gameState"
                    (StoredState
                       (mkGameState (game_fen (GameControls := controls) afterPush)
                          "hard" [] (game_pgn (GameControls := controls) afterPush)))
                    []).
  { rewrite (saveGameState_run MiniatureFacts.never_fails_sound) in Hsave.
    injection Hsave as <-. reflexivity. }
  rewrite Hst.
  destruct (Hload (eq_sym Hst)) as (st3 & Hrun & _ & Hdiff & Hgame & Hundo).
  exists st3. split; [exact Hsave|]. split; [exact Hrun|].
  split; [exact Hdiff|]. split; [rewrite Hgame; reflexivity|].
  apply Hundo; reflexivity.
Defined.

Lemma init_restores_and_schedules_witness :
  exists st',
    init (E := sound) (C := controls)
      (constructed (C := controls) (fun _ => 0.5%float) document [])
    = Done tt st'
    /\ modalHidden (page st') = false
    /\ boardPosition (page st') = fenOf (current fresh).
Proof.
  destruct (@init_restores_and_schedules Game sound controls
              MiniatureFacts.never_fails_sound
              (constructed (C := controls)
                 (fun _ => 0.5%float) document []))
    as (st' & Hrun & Hmodal & _ & Hboard & _).
  exists st'. split; [exact Hrun|]. split; [exact Hmodal|].
  rewrite Hboard.
  vm_compute in Hrun. injection Hrun as <-. reflexivity.
Defined.

End MoreWitnesses.
